(** * TypeFlow typing engine (engine.js): session engine, history store and
      suggestion ranking, as a shallow embedding.

    Conventions of the embedding.
    - A JS string is its sequence of UTF-16 code units ([jsstring]); the
      target text after [text.split('')] is a list of one-unit strings,
      kept as the list of their units.
    - JS numbers are IEEE doubles.  A finite double is followed as the
      rational it denotes ([Q]); the three non-finite values appear in
      [jsnum], which is what a division can return.  Counters ([cursor],
      [errors], map counts) only ever hold small non-negative integers and
      are [nat].  Clock readings and scroll offsets, their sums and
      differences, and the quotient of one of them by a constant of which
      the code takes the integer part (elapsed seconds, histogram bucket,
      first visible row) are followed exactly, as is the error reduction
      of app.js.  The other quotients and products that decide a reported
      number (accuracy, WPM, the latency average and percentile index) and
      every operation on a suggestion score are rounded to the nearest
      double by [b64], as the machine does; the exponent range of the
      format is not followed, none of these values coming near its limits.
    - The two clocks ([performance.now()], [Date]) are inputs: every call
      that reads one receives the reading as an argument.
    - The four optional callbacks are recorded in a trace of [event]s, in
      call order; the History Store is given by the entries saved into it,
      newest first, and read through the JSON text that holds them.
    - [generateSuggestions] is given twice: on the contents of its
      arguments, and as a call on a heap of objects in which the caller's
      arrays, sessions and error maps are reached through references. *)

From Stdlib Require Import ZArith NArith QArith Qround Qminmax Qabs Qpower Lia Lqa.
From Stdlib Require Import Sorted Permutation String Ascii.
From Stdlib Require Import PrimFloat FloatOps SpecFloat.
From Stdlib Require Qcanon.
From stdpp Require Import gmap list fin_maps.

Local Open Scope nat_scope.

(** ** Strings *)

Abbreviation code_unit := N.
Abbreviation jsstring := (list N).

(** An ASCII literal as a JS string. *)
Definition js (s : string) : jsstring :=
  map N_of_ascii (list_ascii_of_string s).

(** U+2192, the arrow of [expected + '→' + key]. *)
Definition arrow : code_unit := 8594%N.

(** [ToString] of a text cell: [testText[i]] is a one-unit string or
    [undefined]. *)
Definition ToString (x : option code_unit) : jsstring :=
  match x with
  | Some c => [c]
  | None => js "undefined"
  end.

(** ** Numbers *)

Inductive jsnum : Type :=
  | Fin (q : Q)
  | PosInfinity
  | NegInfinity
  | NaN.

(** [a / b] on two finite doubles, the divisor being [+0] when it is zero;
    the exact quotient. *)
Definition js_div (a b : Q) : jsnum :=
  if Qeq_bool b 0 then
    if Qeq_bool a 0 then NaN
    else if Qle_bool 0 a then PosInfinity else NegInfinity
  else Fin (a / b).

(** [x || 0]: the falsy numbers are [0] and [NaN]. *)
Definition or_zero (x : jsnum) : jsnum :=
  match x with
  | NaN => Fin 0
  | Fin q => if Qeq_bool q 0 then Fin 0 else Fin q
  | _ => x
  end.

(** [Math.round]: nearest integer, ties towards +Infinity. *)
Definition Math_round_Q (q : Q) : Z := Qfloor (q + (1 # 2)).

Definition Math_round (x : jsnum) : jsnum :=
  match x with
  | Fin q => Fin (inject_Z (Math_round_Q q))
  | _ => x
  end.

(** [+x.toFixed(1)]: the multiple [n / 10] of 0.1 nearest to the value of
    the double [x], the larger [n] on a tie for a positive [x]; the result
    is the double written with that one decimal, given by the decimal. *)
Definition toFixed1 (x : Q) : Q :=
  let n := Qfloor (Qabs x * 10 + (1 # 2)) in
  Qred ((if Qle_bool 0 x then n else (- n)%Z) # 10).

Definition Qlt_bool (a b : Q) : bool := negb (Qle_bool b a).

(** [floor (log2 x)] of a positive number. *)
Definition exponent (x : Q) : Z :=
  let e := (Z.log2 (Qnum x) - Z.log2 (Zpos (Qden x)))%Z in
  if Qle_bool (2 ^ e) x then e else (e - 1)%Z.

(** The nearest integer, a tie going to the even one. *)
Definition rne (x : Q) : Z :=
  let f := Qfloor x in
  match (x - inject_Z f ?= 1 # 2)%Q with
  | Lt => f
  | Gt => (f + 1)%Z
  | Eq => if Z.even f then f else (f + 1)%Z
  end.

(** The double nearest to a real number, which is what an arithmetic
    operation returns for its exact result: a significand of 53 bits, a
    tie going to the even significand.  The result is in lowest terms. *)
Definition b64 (x : Q) : Q :=
  if Qeq_bool x 0 then 0%Q
  else
    let a := Qabs x in
    let k := (exponent a - 52)%Z in
    let r := Qred (inject_Z (rne (a * 2 ^ (- k))) * 2 ^ k) in
    if Qle_bool 0 x then r else (- r)%Q.

(** [a / b] on two finite doubles, rounded. *)
Definition js_quotient (a b : Q) : jsnum :=
  match js_div a b with
  | Fin q => Fin (b64 q)
  | x => x
  end.

(** The rational a machine double denotes, to compare [b64] with the
    machine's own arithmetic. *)
Definition Q_of_float (f : float) : option Q :=
  match Prim2SF f with
  | S754_zero _ => Some 0%Q
  | S754_finite s m e =>
      Some (Qred ((if s then -1 else 1) * inject_Z (Zpos m) * 2 ^ e))
  | _ => None
  end.

Definition of_nat (n : nat) : Q := inject_Z (Z.of_nat n).

(** [arr.sort(cmp)]: the sort is stable; [cmp a b > 0] puts [b] first. *)
Fixpoint sort_insert {A} (cmp : A → A → Q) (x : A) (l : list A) : list A :=
  match l with
  | [] => [x]
  | y :: l' =>
      if Qlt_bool 0 (cmp x y) then y :: sort_insert cmp x l'
      else x :: y :: l'
  end.

Definition js_sort {A} (cmp : A → A → Q) (l : list A) : list A :=
  foldr (sort_insert cmp) [] l.

(** ** Session engine state *)

Record TypingEngine : Type := {
  testText : list code_unit;
  cursor : nat;
  errors : nat;
  errorMap : gmap jsstring nat;
  timestamps : list Q;
  sessionStart : option Q;
  latencies : list Q;
  latencyBuckets : gmap Z nat;
  confusions : gmap jsstring nat
}.

Inductive status : Type := correct | current | pending.

Record textState : Type := {
  chars : list (code_unit * status);
  ts_cursor : nat;
  total : nat
}.

Record stats : Type := {
  st_wpm : jsnum;
  st_accuracy : Q;
  st_errors : nat;
  st_elapsed : Z
}.

Record latencyStats : Type := {
  count : nat;
  avg : Q;
  p50 : Q;
  p90 : Q;
  p99 : Q
}.

(** A session record, the type [W] being that of its [wpm] field. *)
Record record (W : Type) : Type := {
  id : Z;
  timestamp : Z;
  rec_length : nat;
  rec_errors : nat;
  rec_accuracy : Q;
  rec_wpm : W;
  rec_errorMap : gmap jsstring nat;
  latency : option latencyStats;
  rec_confusions : gmap jsstring nat
}.
Arguments id {W} _.
Arguments timestamp {W} _.
Arguments rec_length {W} _.
Arguments rec_errors {W} _.
Arguments rec_accuracy {W} _.
Arguments rec_wpm {W} _.
Arguments rec_errorMap {W} _.
Arguments latency {W} _.
Arguments rec_confusions {W} _.

(** The record [persistSession] builds: its [wpm] is any number. *)
Abbreviation sessionRecord := (record jsnum).

(** An entry of the History Store, read back from its JSON text: [wpm] is
    a finite number or [null]. *)
Abbreviation storedRecord := (record (option Q)).

Inductive event : Type :=
  | onKey (key : jsstring) (is_correct : bool) (expected : option code_unit)
  | onUpdate (t : textState)
  | onStats (s : stats)
  | onComplete (r : sessionRecord).

(** The engine together with its collaborators: the History Store, given
    by the entries saved into it, newest first, and the callbacks' trace.
    [LocalHistoryStorage] keeps the entries as JSON text: what it reads
    back of them is given by [_load]. *)
Record world : Type := {
  engine : TypingEngine;
  storage : list sessionRecord;
  calls : list event
}.

(** Clock readings of one [handleKey] call: [performance.now()] at its
    head and inside [elapsedSeconds], [Date.now()] and [new Date()] inside
    [persistSession] (epoch milliseconds). *)
Record clock : Type := {
  now : Q;
  now_stats : Q;
  date_id : Z;
  date_iso : Z
}.

(** ** Session engine operations *)

Definition resetSession : TypingEngine :=
  {| testText := []; cursor := 0; errors := 0; errorMap := ∅;
     timestamps := []; sessionStart := None; latencies := [];
     latencyBuckets := ∅; confusions := ∅ |}.

Definition expectedChar (e : TypingEngine) : option code_unit :=
  testText e !! cursor e.

Definition accuracy (e : TypingEngine) : Q :=
  let typed := cursor e + errors e in
  if Nat.eqb typed 0 then 100
  else toFixed1 (Qmax 0 (b64 (b64 (of_nat (cursor e) / of_nat typed) * 100))).

(** [null] is 0 in arithmetic. *)
Definition num_of (x : option Q) : Q := default 0%Q x.

Definition wpm (e : TypingEngine) : jsnum :=
  match last (timestamps e) with
  | None => Fin 0
  | Some t =>
      let elapsedMs := (t - num_of (sessionStart e))%Q in
      let minutes := b64 (elapsedMs / 60000) in
      let words := b64 (of_nat (cursor e) / 5) in
      Math_round (or_zero (js_quotient words minutes))
  end.

Definition char_status (cur i : nat) : status :=
  if Nat.ltb i cur then correct
  else if Nat.eqb i cur then current else pending.

Definition render (e : TypingEngine) : textState :=
  {| chars := imap (λ i ch, (ch, char_status (cursor e) i)) (testText e);
     ts_cursor := cursor e;
     total := length (testText e) |}.

Definition emitUpdate (w : world) : world :=
  {| engine := engine w; storage := storage w;
     calls := calls w ++ [onUpdate (render (engine w))] |}.

(** [x ? ... : ...] on a timestamp: [null] and [0] are falsy. *)
Definition truthy (x : option Q) : bool :=
  match x with
  | Some t => negb (Qeq_bool t 0)
  | None => false
  end.

Definition elapsedSeconds (e : TypingEngine) (t : Q) : Z :=
  if truthy (sessionStart e)
  then Qfloor ((t - num_of (sessionStart e)) / 1000)
  else 0%Z.

Definition emitStats (t : Q) (w : world) : world :=
  let e := engine w in
  {| engine := e; storage := storage w;
     calls := calls w ++
       [onStats {| st_wpm := wpm e; st_accuracy := accuracy e;
                   st_errors := errors e;
                   st_elapsed := elapsedSeconds e t |}] |}.

Definition latencySummary (e : TypingEngine) : option latencyStats :=
  match latencies e with
  | [] => None
  | _ =>
      let sorted := js_sort (λ a b, a - b)%Q (latencies e) in
      let sum := foldl Qplus 0%Q sorted in
      let n := length sorted in
      let idx (p : Q) :=
        nth (Nat.min (n - 1) (Z.to_nat (Qfloor (b64 (p * of_nat n)))))
            sorted 0%Q in
      Some {| count := n;
              avg := toFixed1 (b64 (sum / of_nat n));
              p50 := toFixed1 (idx (b64 0.5));
              p90 := toFixed1 (idx (b64 0.9));
              p99 := toFixed1 (idx (b64 0.99)) |}
  end.

Definition buildRecord (e : TypingEngine) (c : clock) : sessionRecord :=
  {| id := date_id c;
     timestamp := date_iso c;
     rec_length := length (testText e);
     rec_errors := errors e;
     rec_accuracy := accuracy e;
     rec_wpm := wpm e;
     rec_errorMap := errorMap e;
     latency := latencySummary e;
     rec_confusions := confusions e |}.

(** [LocalHistoryStorage.saveSession]: [list.unshift(entry)], the list
    being then written as JSON text. *)
Definition saveSession (r : sessionRecord) (st : list sessionRecord)
  : list sessionRecord := r :: st.

Definition persistSession (c : clock) (w : world) : world :=
  let record := buildRecord (engine w) c in
  {| engine := engine w;
     storage := saveSession record (storage w);
     calls := calls w ++ [onComplete record] |}.

Definition loadText (text : jsstring) (t : Q) (w : world) : world :=
  let e := engine w in
  emitUpdate
    {| engine :=
         {| testText := text; cursor := 0; errors := 0; errorMap := ∅;
            timestamps := []; sessionStart := Some t;
            latencies := latencies e;
            latencyBuckets := latencyBuckets e;
            confusions := confusions e |};
       storage := storage w;
       calls := calls w |}.

(** [key === expected]: [key] is always a string. *)
Definition is_expected (key : jsstring) (expected : option code_unit) : bool :=
  match expected with
  | Some c => bool_decide (key = [c])
  | None => false
  end.

(** [(m[k] || 0) + 1] stored back under [k]. *)
Definition bump `{Countable K} (k : K) (m : gmap K nat) : gmap K nat :=
  <[k := default 0 (m !! k) + 1]> m.

Definition lastCorrectTs (e : TypingEngine) : option Q :=
  match last (timestamps e) with
  | Some t => Some t
  | None => sessionStart e
  end.

Definition interval_at (e : TypingEngine) (t : Q) : Q :=
  if truthy (lastCorrectTs e) then (t - num_of (lastCorrectTs e))%Q else 0%Q.

Definition keeps_sample (interval : Q) : bool :=
  negb (Qeq_bool interval 0) && Qlt_bool interval 5000.

Definition bucket_of (interval : Q) : Z :=
  Z.min 4000 (Math_round_Q (interval / 50) * 50).

(** The state part of [handleKey] (lines 45-64). *)
Definition typeKey (key : jsstring) (t : Q) (e : TypingEngine) : TypingEngine :=
  let expected := expectedChar e in
  let interval := interval_at e t in
  if is_expected key expected then
    let sample := keeps_sample interval in
    {| testText := testText e;
       cursor := S (cursor e);
       errors := errors e;
       errorMap := errorMap e;
       timestamps := timestamps e ++ [t];
       sessionStart := sessionStart e;
       latencies := if sample then latencies e ++ [interval] else latencies e;
       latencyBuckets :=
         if sample then bump (bucket_of interval) (latencyBuckets e)
         else latencyBuckets e;
       confusions := confusions e |}
  else
    {| testText := testText e;
       cursor := cursor e;
       errors := S (errors e);
       errorMap := bump (ToString expected) (errorMap e);
       timestamps := timestamps e;
       sessionStart := sessionStart e;
       latencies := latencies e;
       latencyBuckets := latencyBuckets e;
       confusions :=
         bump (ToString expected ++ [arrow] ++ key) (confusions e) |}.

Definition finished (e : TypingEngine) : bool :=
  Nat.leb (length (testText e)) (cursor e).

Definition handleKey (key : jsstring) (c : clock) (w : world) : world :=
  match testText (engine w) with
  | [] => w
  | _ =>
      let expected := expectedChar (engine w) in
      let e' := typeKey key (now c) (engine w) in
      let w1 :=
        {| engine := e'; storage := storage w;
           calls := calls w ++ [onKey key (is_expected key expected) expected] |} in
      let w2 := emitStats (now_stats c) (emitUpdate w1) in
      if finished e' then persistSession c w2 else w2
  end.

(** [new TypingEngine({...})] over a given History Store. *)
Definition newEngine (st : list sessionRecord) : world :=
  {| engine := resetSession; storage := st; calls := [] |}.

(** Feeding keystrokes one at a time, each with its clock readings. *)
Definition typeAll (ks : list (jsstring * clock)) (w : world) : world :=
  foldl (λ w k, handleKey k.1 k.2 w) w ks.

(** ** Suggestion engine *)

(** An object is read only through [Object.entries]: it is given by that
    list of own properties, whose keys are distinct. *)
Abbreviation entries := (list (jsstring * nat)).

(** A history session as [generateSuggestions] sees it: its [errorMap]
    property, if it has one. *)
Record historySession : Type := { s_errorMap : option entries }.

(** A [Map] with string keys: its entries in insertion order. *)
Abbreviation jsMap := (list (jsstring * Q)).

Fixpoint Map_get (k : jsstring) (m : jsMap) : option Q :=
  match m with
  | [] => None
  | (k', v) :: m' => if decide (k = k') then Some v else Map_get k m'
  end.

Fixpoint Map_set (k : jsstring) (v : Q) (m : jsMap) : jsMap :=
  match m with
  | [] => [(k, v)]
  | (k', v') :: m' =>
      if decide (k = k') then (k, v) :: m' else (k', v') :: Map_set k v m'
  end.

(** [\s] of a regular expression. *)
Definition is_space (c : code_unit) : bool :=
  ((9 <=? c) && (c <=? 13) || (c =? 32) || (c =? 160) || (c =? 5760)
   || (8192 <=? c) && (c <=? 8202) || (c =? 8232) || (c =? 8233)
   || (c =? 8239) || (c =? 8287) || (c =? 12288) || (c =? 65279))%N.

(** [/\s/.test(char)] *)
Definition isWhitespace (char : jsstring) : bool := existsb is_space char.

(** [/\s/.test(char) ? 0.4 : 1], [0.4] being the double so written. *)
Definition rarityBoost (char : jsstring) : Q :=
  if isWhitespace char then b64 0.4 else 1.

Record suggestion : Type := { char : jsstring; score : Q }.

(** [aggregate.set(char, (aggregate.get(char) || 0) + x)] *)
Definition accumulate (m : jsMap) (char : jsstring) (x : Q) : jsMap :=
  Map_set char (b64 (default 0%Q (Map_get char m) + x)) m.

(** [Object.entries(o || {}).forEach(([char, count]) => ...)], the loop
    body adding [weigh count]. *)
Definition addEntries (weigh : Q → Q) (o : option entries) (m : jsMap) : jsMap :=
  foldl (λ m e, accumulate m e.1 (weigh (of_nat e.2))) m (default [] o).

(** [count => count] and [count => count * 1.2], what the two loops add. *)
Definition fromHistory (count : Q) : Q := count.
Definition fromCurrent (count : Q) : Q := b64 (count * b64 1.2).

(** [([char, count]) => [char, count * rarityBoost]] (lines 168-172) *)
Definition scoreEntry (e : jsstring * Q) : jsstring * Q :=
  (e.1, b64 (e.2 * rarityBoost e.1)).

(** [(a, b) => b[1] - a[1]] (line 173) *)
Definition byScore (a b : jsstring * Q) : Q := b64 (b.2 - a.2).

(** [([char, score]) => ({char, score})] (line 174) *)
Definition toSuggestion (e : jsstring * Q) : suggestion :=
  {| char := e.1; score := e.2 |}.

(** [generateSuggestions] (lines 157-175) on the contents of its arguments;
    [max] defaults to 8. *)
Definition generateSuggestions (historySessions : list historySession)
    (currentErrorMap : option entries) (max : option nat) : list suggestion :=
  let consider := historySessions in
  let aggregate :=
    foldl (λ m s, addEntries fromHistory (s_errorMap s) m) [] consider in
  let aggregate := addEntries fromCurrent currentErrorMap aggregate in
  let scored := map scoreEntry aggregate in
  let scored := js_sort byScore scored in
  map toSuggestion (take (default 8 max) scored).

(** ** The call of [generateSuggestions] on a heap of objects *)

(** The values the function meets in its arguments, and the objects in the
    heap: plain objects (own properties in [Object.entries] order), arrays,
    the [Map] and the array of [char, score] pairs that the function
    makes.  A reference is an index into the heap; two values that hold
    the same reference are the same object. *)
Abbreviation loc := nat.

Inductive value : Type :=
  | Undefined
  | Null
  | Number (n : nat)
  | Ref (l : loc).

Inductive object : Type :=
  | Obj (props : list (jsstring * value))
  | Arr (elems : list value)
  | MapObj (m : jsMap)
  | Pairs (l : list (jsstring * Q)).

Abbreviation heap := (list object).

(** A computation on the heap; [None] where the call is not followed: a
    reference to no object or to an object of another kind than the
    function expects, a count that is not a number. *)
Definition M (A : Type) : Type := heap → option (A * heap).

#[local] Instance M_ret : MRet M := λ A x h, Some (x, h).
#[local] Instance M_bind : MBind M :=
  λ A B f m h, match m h with Some (x, h') => f x h' | None => None end.

Definition throw {A} : M A := λ _, None.

Definition lift {A} (x : option A) : M A := λ h, (λ a, (a, h)) <$> x.

(** [new ...], [[...]]: a new object, at the end of the heap. *)
Definition alloc (o : object) : M loc := λ h, Some (length h, h ++ [o]).

(** Reading the object behind a reference. *)
Definition deref (l : loc) : M object := λ h, (λ o, (o, h)) <$> h !! l.

(** Writing to the object behind a reference, in place. *)
Definition assign (l : loc) (o : object) : M unit :=
  λ h, if decide (l < length h) then Some (tt, <[l := o]> h) else None.

(** The plain object at an address. *)
Definition obj_at (h : heap) (l : loc) : option (list (jsstring * value)) :=
  match h !! l with
  | Some (Obj props) => Some props
  | _ => None
  end.

Definition object_at (l : loc) : M (list (jsstring * value)) :=
  λ h, (λ p, (p, h)) <$> obj_at h l.

(** [o.k] on a plain object: the own property, or [undefined]. *)
Fixpoint getProp (k : jsstring) (props : list (jsstring * value)) : value :=
  match props with
  | [] => Undefined
  | (k', v) :: props' => if decide (k = k') then v else getProp k props'
  end.

Definition count_of (kv : jsstring * value) : option (jsstring * nat) :=
  match kv.2 with
  | Number n => Some (kv.1, n)
  | _ => None
  end.

(** The entries of a plain object whose values are counts. *)
Definition counts (props : list (jsstring * value)) : option entries :=
  mapM count_of props.

(** [Object.entries(v || {})]: [undefined], [null] and a number have no
    entry. *)
Definition entriesOf (v : value) : M (option entries) :=
  match v with
  | Undefined | Null | Number _ => mret None
  | Ref l => props ← object_at l; es ← lift (counts props); mret (Some es)
  end.

(** [s.errorMap] for an element [s] of the history: a [TypeError] on
    [undefined] and [null], [undefined] on a number. *)
Definition errorMapOf (s : value) : M value :=
  match s with
  | Undefined | Null => throw
  | Number _ => mret Undefined
  | Ref l => props ← object_at l; mret (getProp (js "errorMap") props)
  end.

(** The elements [[...v]] and [v.forEach] iterate over, [v] being an
    array. *)
Definition elementsOf (v : value) : M (list value) :=
  match v with
  | Ref l =>
      o ← deref l;
      match o with
      | Arr elems => mret elems
      | _ => throw
      end
  | _ => throw
  end.

Definition forEach {A} (l : list A) (f : A → M unit) : M unit :=
  foldr (λ x k, f x ≫= λ _, k) (mret tt) l.

(** [Object.entries(...).forEach(([char, count]) =>
    aggregate.set(char, (aggregate.get(char) || 0) + weigh(count)))] on
    the [Map] at [aggregate]. *)
Definition addTo (aggregate : loc) (weigh : Q → Q) (o : option entries) : M unit :=
  forEach (default [] o) (λ e,
    m ← deref aggregate;
    match m with
    | MapObj m => assign aggregate (MapObj (accumulate m e.1 (weigh (of_nat e.2))))
    | _ => throw
    end).

(** [generateSuggestions({historySessions, currentErrorMap, max})] (lines
    157-175) as a call: the first two properties of the argument are values
    that refer to the caller's objects, and [consider] holds the very
    references found in [historySessions]. *)
Definition generateSuggestions_call (historySessions currentErrorMap : value)
    (max : option nat) : M (list suggestion) :=
  aggregate ← alloc (MapObj []);
  elems ← elementsOf historySessions;
  consider ← alloc (Arr elems);
  elems ← elementsOf (Ref consider);
  forEach elems (λ s,
    v ← errorMapOf s;
    es ← entriesOf v;
    addTo aggregate fromHistory es);;
  es ← entriesOf currentErrorMap;
  addTo aggregate fromCurrent es;;
  m ← deref aggregate;
  scored ← match m with
           | MapObj m => alloc (Pairs (map scoreEntry m))
           | _ => throw
           end;
  p ← deref scored;
  match p with
  | Pairs p => assign scored (Pairs (js_sort byScore p))
  | _ => throw
  end;;
  p ← deref scored;
  match p with
  | Pairs p => mret (map toSuggestion (take (default 8 max) p))
  | _ => throw
  end.

(** What the arguments hold in a heap: the contents the function reads
    through them. *)
Definition entries_at (h : heap) (v : value) : option (option entries) :=
  match v with
  | Undefined | Null | Number _ => Some None
  | Ref l => props ← obj_at h l; es ← counts props; Some (Some es)
  end.

Definition session_at (h : heap) (s : value) : option historySession :=
  match s with
  | Undefined | Null => None
  | Number _ => Some {| s_errorMap := None |}
  | Ref l =>
      props ← obj_at h l;
      es ← entries_at h (getProp (js "errorMap") props);
      Some {| s_errorMap := es |}
  end.

Definition sessions_at (h : heap) (v : value) : option (list historySession) :=
  match v with
  | Ref l =>
      match h !! l with
      | Some (Arr elems) => mapM (session_at h) elems
      | _ => None
      end
  | _ => None
  end.

(** The elements of the array an argument refers to. *)
Definition elems_at (h : heap) (v : value) : option (list value) :=
  match v with
  | Ref l =>
      match h !! l with
      | Some (Arr elems) => Some elems
      | _ => None
      end
  | _ => None
  end.

(** An object that is not a plain object, as are the three the call
    makes. *)
Definition not_plain (o : object) : Prop :=
  match o with
  | Obj _ => False
  | _ => True
  end.

(** ** Quantities the statements speak of *)

(** Sum of the counts held in a map. *)
Definition total_count `{Countable K} (m : gmap K nat) : nat :=
  map_fold (λ _ v acc, v + acc) 0 m.

Definition is_complete (ev : event) : bool :=
  match ev with onComplete _ => true | _ => false end.

Definition is_update (ev : event) : bool :=
  match ev with onUpdate _ => true | _ => false end.

(** Number of [onComplete] invocations in a trace. *)
Definition completions (evs : list event) : nat :=
  length (List.filter is_complete evs).

(** Number of [onUpdate] invocations in a trace. *)
Definition renders (evs : list event) : nat :=
  length (List.filter is_update evs).

(** A clock whose four readings are taken at the same millisecond. *)
Definition at_ms (t : Z) : clock :=
  {| now := inject_Z t; now_stats := inject_Z t; date_id := t; date_iso := t |}.

(** The count an object records for a character (0 when it has none). *)
Definition tally (c : jsstring) (o : option entries) : nat :=
  sum_list (map snd (List.filter (λ e, bool_decide (e.1 = c)) (default [] o))).

(** The sum of a character's counts over the history sessions. *)
Definition history_count (c : jsstring) (h : list historySession) : nat :=
  sum_list (map (λ s, tally c (s_errorMap s)) h).

(** The sum of all the counts of the history sessions. *)
Definition history_total (h : list historySession) : nat :=
  sum_list (map (λ s, sum_list (map snd (default [] (s_errorMap s)))) h).

(** The score the ranking is said to give a character: the sum of its
    history counts plus 1.2 times its current count, times 0.4 or 1, each
    operation and each constant being the machine's. *)
Definition weighted_score (h : list historySession) (cur : option entries)
    (c : jsstring) : Q :=
  b64 (b64 (of_nat (history_count c h) + b64 (of_nat (tally c cur) * b64 1.2))
       * (if isWhitespace c then b64 0.4 else 1)).

(** The code units [\s] matches. *)
Definition white_space : list code_unit :=
  [9; 10; 11; 12; 13; 32; 160; 5760; 8192; 8193; 8194; 8195; 8196; 8197;
   8198; 8199; 8200; 8201; 8202; 8232; 8233; 8239; 8287; 12288; 65279]%N.

(** A character with an entry in some history error map or in the current
    one. *)
Definition recorded (h : list historySession) (cur : option entries)
    (c : jsstring) : Prop :=
  c ∈ map fst (default [] cur) ∨
  ∃ s, s ∈ h ∧ c ∈ map fst (default [] (s_errorMap s)).

(** Every addition made to the aggregate, in the order the loops make it. *)
Definition additions (h : list historySession) (cur : option entries)
  : list (jsstring * Q) :=
  flat_map (λ s, map (λ e, (e.1, fromHistory (of_nat e.2)))
                     (default [] (s_errorMap s))) h
  ++ map (λ e, (e.1, fromCurrent (of_nat e.2))) (default [] cur).

(** What a list of additions makes of the value [acc] held for one key. *)
Fixpoint added (c : jsstring) (acc : Q) (l : list (jsstring * Q)) : Q :=
  match l with
  | [] => acc
  | (k, v) :: l' =>
      if decide (k = c) then added c (b64 (acc + v)) l' else added c acc l'
  end.

(** The aggregate after a list of additions. *)
Definition accumulateAll (m : jsMap) (l : list (jsstring * Q)) : jsMap :=
  foldl (λ m kv, accumulate m kv.1 kv.2) m l.

(** The whole sorted array, before [slice(0, max)]. *)
Definition ranked (h : list historySession) (cur : option entries)
  : list suggestion :=
  map toSuggestion
      (js_sort byScore (map scoreEntry (accumulateAll [] (additions h cur)))).

(** ** Sessions as sequences of calls *)

(** The two calls a user of the engine makes. *)
Inductive action : Type :=
  | load (text : jsstring) (t : Q)
  | press (key : jsstring) (c : clock).

Definition act (w : world) (a : action) : world :=
  match a with
  | load text t => loadText text t w
  | press key c => handleKey key c w
  end.

Definition runActions (l : list action) (w : world) : world := foldl act w l.

(** The states passed to [onUpdate] and the records passed to
    [onComplete], in call order. *)
Definition updates (evs : list event) : list textState :=
  flat_map (λ ev, match ev with onUpdate t => [t] | _ => [] end) evs.

Definition completed (evs : list event) : list sessionRecord :=
  flat_map (λ ev, match ev with onComplete r => [r] | _ => [] end) evs.

Definition has_status (s : status) (p : code_unit * status) : bool :=
  match s, p.2 with
  | correct, correct | current, current | pending, pending => true
  | _, _ => false
  end.

Definition count_status (s : status) (t : textState) : nat :=
  length (List.filter (has_status s) (chars t)).

(** Typing a text without a mistake: one keystroke per character. *)
Definition perfectKeys (ks : list (code_unit * clock)) : list (jsstring * clock) :=
  map (λ k, ([k.1], k.2)) ks.

(** ** History store: reading *)

(** [JSON.stringify] of a number: a value that is not finite is written
    [null]. *)
Definition json_number (x : jsnum) : option Q :=
  match x with
  | Fin q => Some q
  | _ => None
  end.

(** [JSON.parse(JSON.stringify(entry))]: an entry as the store's text gives
    it back.  The fields other than [wpm] are integers, one-decimal
    numbers, a date string, and objects or [null], which the text gives
    back as they were. *)
Definition json (entry : sessionRecord) : storedRecord :=
  {| id := id entry;
     timestamp := timestamp entry;
     rec_length := rec_length entry;
     rec_errors := rec_errors entry;
     rec_accuracy := rec_accuracy entry;
     rec_wpm := json_number (rec_wpm entry);
     rec_errorMap := rec_errorMap entry;
     latency := latency entry;
     rec_confusions := rec_confusions entry |}.

(** [LocalHistoryStorage._load]: [JSON.parse] of the text written by
    [_save], that is of [JSON.stringify] of the list of entries. *)
Definition _load (st : list sessionRecord) : list storedRecord := map json st.

(** [LocalHistoryStorage.list(limit = 25)]: [this._load().slice(0, limit)]. *)
Definition storage_list (limit : option nat) (st : list sessionRecord)
  : list storedRecord := take (default 25 limit) (_load st).

(** ** app.js: helpers around the engine *)

(** [Object.values(m).reduce((a, b) => a + b, 0)] *)
Definition sumValues (m : gmap jsstring nat) : Q := of_nat (total_count m).

(** [averageWeakErrorReduction(currentRecord)] (app.js lines 230-238), the
    History Store being [st] when it is called. *)
Definition averageWeakErrorReduction (st : list sessionRecord)
    (currentRecord : sessionRecord) : Q :=
  let past := drop 1 (storage_list (Some 6) st) in
  match past with
  | [] => 0
  | _ =>
      let pastAvgErrors :=
        (foldl (λ a s, a + sumValues (rec_errorMap s)) 0 past
         / of_nat (length past))%Q in
      let currentErrors := sumValues (rec_errorMap currentRecord) in
      if Qeq_bool pastAvgErrors 0 then 0
      else ((pastAvgErrors - currentErrors) / pastAvgErrors * 100)%Q
  end.

(** The table of [escapeHTML]: ampersand, less-than, greater-than, double
    and single quote, with their entities. *)
Definition entity (c : code_unit) : option jsstring :=
  if (c =? 38)%N then Some (js "&amp;")
  else if (c =? 60)%N then Some (js "&lt;")
  else if (c =? 62)%N then Some (js "&gt;")
  else if (c =? 34)%N then Some (js "&quot;")
  else if (c =? 39)%N then Some (js "&#39;")
  else None.

(** [str.replace(re, c => table[c])], [re] matching every occurrence of
    one of the five characters. *)
Definition escapeHTML (str : jsstring) : jsstring :=
  flat_map (λ c, default [c] (entity c)) str.

(** [arr.join(sep)] *)
Fixpoint join (sep : jsstring) (l : list jsstring) : jsstring :=
  match l with
  | [] => []
  | [x] => x
  | x :: l' => x ++ sep ++ join sep l'
  end.

(** [c.repeat(4)] *)
Definition repeat4 (c : jsstring) : jsstring := c ++ c ++ c ++ c.

(** [buildDrillFromSuggestions] (app.js lines 192-198), on the [data-char]
    values it reads from the suggestion list; [None] is [null]. *)
Definition buildDrillFromSuggestions (chars : list jsstring) : option jsstring :=
  match chars with
  | [] => None
  | _ => Some (join (js " ") (map repeat4 chars))
  end.

(** ** Virtual scrolling (virtual-scroll.js) *)

Record VirtualScroll (A : Type) : Type := {
  itemHeight : Q;
  visibleItems : Z;
  data : list A;
  scrollTop : Q
}.
Arguments itemHeight {A} _.
Arguments visibleItems {A} _.
Arguments data {A} _.
Arguments scrollTop {A} _.

(** [Math.floor(this.scrollTop / this.itemHeight)]; [None] when the
    quotient is not finite, in which case the loop of [render] has no
    iteration. *)
Definition startIndex {A} (v : VirtualScroll A) : option Z :=
  match js_div (scrollTop v) (itemHeight v) with
  | Fin q => Some (Qfloor q)
  | _ => None
  end.

(** [Math.min(this.startIndex + this.visibleItems + 1, this.data.length)] *)
Definition endIndex {A} (v : VirtualScroll A) (start : Z) : Z :=
  Z.min (start + visibleItems v + 1) (Z.of_nat (length (data v))).

(** [this.data[i]]: undefined outside the array; the data are session
    records, objects, so an element of the array always passes the test
    [if (this.data[i])]. *)
Definition item_at {A} (l : list A) (i : Z) : option A :=
  if (i <? 0)%Z then None else l !! Z.to_nat i.

(** The items [render] creates: index, datum and [top] offset in pixels. *)
Definition renderItems {A} (v : VirtualScroll A) : list (Z * A * Q) :=
  match startIndex v with
  | None => []
  | Some s =>
      flat_map
        (λ i, match item_at (data v) i with
              | Some x => [(i, x, inject_Z i * itemHeight v)%Q]
              | None => []
              end)
        (seqZ s (endIndex v s - s))
  end.

(** ** Sample backend (server.js) *)

(** The two in-memory stores: username to password hash, username to
    session records (newest first). *)
Record server (R : Type) : Type := {
  users : gmap jsstring jsstring;
  sessions : gmap jsstring (list R)
}.
Arguments users {R} _.
Arguments sessions {R} _.

(** [String(x)] of a body field that is a string or missing. *)
Definition field (x : option jsstring) : jsstring :=
  default (js "undefined") x.

(** [!x] is false for a non-empty string only. *)
Definition present (x : option jsstring) : bool :=
  match x with
  | Some (_ :: _) => true
  | _ => false
  end.

Definition hash (pw : option jsstring) : jsstring := js "h$" ++ field pw.

Definition verify (pw : option jsstring) (hashStr : jsstring) : bool :=
  bool_decide (hash pw = hashStr).

(** [POST /api/signup]: HTTP status and the stores afterwards. *)
Definition signup {R} (username password password2 : option jsstring)
    (s : server R) : nat * server R :=
  if negb (present username) || negb (present password) then (400, s)
  else if negb (bool_decide (password = password2)) then (400, s)
  else match users s !! field username with
       | Some _ => (409, s)
       | None =>
           (200, {| users := <[field username := hash password]> (users s);
                    sessions := <[field username := []]> (sessions s) |})
       end.

(** [POST /api/login]: HTTP status. *)
Definition login {R} (username password : option jsstring) (s : server R) : nat :=
  match username ≫= (λ u, users s !! u) with
  | Some passwordHash => if verify password passwordHash then 200 else 401
  | None => 401
  end.

(** [POST /api/session] behind [authMiddleware], [user] being the token's
    subject. *)
Definition postSession {R} (user : jsstring) (record : option R)
    (s : server R) : nat * server R :=
  match record with
  | None => (400, s)
  | Some r =>
      let list := r :: default [] (sessions s !! user) in
      let list := if Nat.ltb 200 (length list) then removelast list else list in
      (200, {| users := users s; sessions := <[user := list]> (sessions s) |})
  end.

(** [GET /api/session/history] *)
Definition sessionHistory {R} (user : jsstring) (s : server R) : list R :=
  take 50 (default [] (sessions s !! user)).

(** ** Invariants *)

(** What holds of the engine's fields after any sequence of calls. *)
Definition engine_ok (e : TypingEngine) : Prop :=
  cursor e ≤ length (testText e) ∧
  length (timestamps e) = cursor e ∧
  total_count (errorMap e) = errors e ∧
  total_count (latencyBuckets e) = length (latencies e) ∧
  Forall (λ x, ¬ (x == 0)%Q ∧ (x < 5000)%Q) (latencies e) ∧
  ∀ k n, latencyBuckets e !! k = Some n → ((50 | k) ∧ k ≤ 4000)%Z ∧ 0 < n.

(** What holds of a record the engine builds. *)
Definition record_ok (r : sessionRecord) : Prop :=
  0 < rec_length r ∧
  rec_errors r = total_count (rec_errorMap r) ∧
  (0 <= rec_accuracy r)%Q ∧ (rec_accuracy r <= 100)%Q ∧
  (rec_wpm r = PosInfinity ∨ ∃ z : Z, rec_wpm r = Fin (inject_Z z)) ∧
  (latency r = None ∨ ∃ s, latency r = Some s ∧ 0 < count s).

(** What the store's text does to an entry: the [wpm] is [null] for
    [Infinity] and the number itself otherwise, and every other field is
    read back as it was. *)
Definition stored_as (r : sessionRecord) (s : storedRecord) : Prop :=
  id s = id r ∧ timestamp s = timestamp r ∧
  rec_length s = rec_length r ∧ rec_errors s = rec_errors r ∧
  rec_accuracy s = rec_accuracy r ∧
  rec_errorMap s = rec_errorMap r ∧ latency s = latency r ∧
  rec_confusions s = rec_confusions r ∧
  (rec_wpm r = PosInfinity → rec_wpm s = None) ∧
  (∀ q, rec_wpm r = Fin q → rec_wpm s = Some q).

(** Posting records one after the other for one user. *)
Definition postAll {R} (user : jsstring) (rs : list R) (s : server R) : server R :=
  foldl (λ s r, (postSession user (Some r) s).2) s rs.

(** ** Order of aggregation *)

(** The keys of a list in the order of their first occurrence. *)
Definition firstSeen (seen : list jsstring) (l : list jsstring) : list jsstring :=
  foldl (λ acc k, if decide (k ∈ acc) then acc else acc ++ [k]) seen l.

(** The scored array before it is sorted (line 168). *)
Definition unsorted (h : list historySession) (cur : option entries)
  : list suggestion :=
  map toSuggestion (map scoreEntry (accumulateAll [] (additions h cur))).

(** The aggregate of a character before the whitespace factor: the value
    the [Map] holds for it after the two loops. *)
Definition raw_count (h : list historySession) (cur : option entries)
    (c : jsstring) : Q :=
  default 0%Q (Map_get c (accumulateAll [] (additions h cur))).

(** ** Basic facts about [handleKey] *)

Section HandleKey.
Implicit Types (w : world) (e : TypingEngine) (key : jsstring) (c : clock).

Lemma handleKey_empty w key c :
  testText (engine w) = [] → handleKey key c w = w.
Proof. intros E. unfold handleKey. by rewrite E. Qed.

Lemma handleKey_engine w key c :
  testText (engine w) ≠ [] →
  engine (handleKey key c w) = typeKey key (now c) (engine w).
Proof.
  intros E. unfold handleKey.
  destruct (testText (engine w)) eqn:Ht; [done|].
  by destruct (finished _).
Qed.

Lemma handleKey_storage w key c :
  testText (engine w) ≠ [] →
  storage (handleKey key c w) =
    let e' := typeKey key (now c) (engine w) in
    if finished e' then buildRecord e' c :: storage w else storage w.
Proof.
  intros E. unfold handleKey.
  destruct (testText (engine w)) eqn:Ht; [done|].
  by destruct (finished _).
Qed.

Lemma handleKey_calls w key c :
  testText (engine w) ≠ [] →
  calls (handleKey key c w) =
    let e' := typeKey key (now c) (engine w) in
    let expected := expectedChar (engine w) in
    calls w ++
      [onKey key (is_expected key expected) expected;
       onUpdate (render e');
       onStats {| st_wpm := wpm e'; st_accuracy := accuracy e';
                  st_errors := errors e';
                  st_elapsed := elapsedSeconds e' (now_stats c) |}] ++
      (if finished e' then [onComplete (buildRecord e' c)] else []).
Proof.
  intros E. unfold handleKey.
  destruct (testText (engine w)) eqn:Ht; [done|].
  destruct (finished _); simpl; by rewrite <- !app_assoc.
Qed.

Lemma typeKey_testText key t e : testText (typeKey key t e) = testText e.
Proof. unfold typeKey. by destruct (is_expected _ _). Qed.

Lemma typeKey_sessionStart key t e :
  sessionStart (typeKey key t e) = sessionStart e.
Proof. unfold typeKey. by destruct (is_expected _ _). Qed.

Lemma handleKey_testText w key c :
  testText (engine (handleKey key c w)) = testText (engine w).
Proof.
  destruct (testText (engine w)) eqn:Ht.
  - by rewrite handleKey_empty.
  - rewrite handleKey_engine, typeKey_testText; [done|by rewrite Ht].
Qed.

Lemma typeKey_wrong key t e :
  is_expected key (expectedChar e) = false →
  cursor (typeKey key t e) = cursor e ∧
  errors (typeKey key t e) = S (errors e) ∧
  errorMap (typeKey key t e) =
    bump (ToString (expectedChar e)) (errorMap e) ∧
  confusions (typeKey key t e) =
    bump (ToString (expectedChar e) ++ [arrow] ++ key) (confusions e) ∧
  latencies (typeKey key t e) = latencies e ∧
  timestamps (typeKey key t e) = timestamps e.
Proof. intros E. unfold typeKey. by rewrite E. Qed.

Lemma typeKey_right key t e :
  is_expected key (expectedChar e) = true →
  cursor (typeKey key t e) = S (cursor e) ∧
  errors (typeKey key t e) = errors e ∧
  errorMap (typeKey key t e) = errorMap e ∧
  confusions (typeKey key t e) = confusions e ∧
  timestamps (typeKey key t e) = timestamps e ++ [t] ∧
  latencies (typeKey key t e) =
    (if keeps_sample (interval_at e t)
     then latencies e ++ [interval_at e t] else latencies e).
Proof. intros E. unfold typeKey. by rewrite E. Qed.

(** Past the end of the text there is no expected character, so no key
    is the expected one. *)
Lemma is_expected_finished key e :
  finished e = true → is_expected key (expectedChar e) = false.
Proof.
  unfold finished, expectedChar. intros F%Nat.leb_le.
  by rewrite lookup_ge_None_2.
Qed.

Lemma typeAll_snoc ks k w :
  typeAll (ks ++ [k]) w = handleKey k.1 k.2 (typeAll ks w).
Proof. unfold typeAll. by rewrite foldl_app. Qed.

Lemma typeAll_testText ks w :
  testText (engine (typeAll ks w)) = testText (engine w).
Proof.
  induction ks as [|k ks IH] using rev_ind; [done|].
  by rewrite typeAll_snoc, handleKey_testText.
Qed.

Lemma cursor_handleKey_mono w key c :
  cursor (engine w) ≤ cursor (engine (handleKey key c w)).
Proof.
  destruct (testText (engine w)) eqn:Ht.
  - by rewrite handleKey_empty.
  - rewrite handleKey_engine by (by rewrite Ht).
    unfold typeKey. destruct (is_expected _ _); simpl; lia.
Qed.
End HandleKey.

(** ** Counts in a map *)

Section TotalCount.
Context `{Countable K}.
Implicit Types (m : gmap K nat) (k : K).

Lemma total_count_empty : total_count (@empty (gmap K nat) _) = 0.
Proof. unfold total_count. by rewrite map_fold_empty. Qed.

Lemma total_count_insert m k v :
  m !! k = None → total_count (<[k := v]> m) = v + total_count m.
Proof.
  intros E. unfold total_count.
  rewrite map_fold_insert_L; [done| |done]. intros; lia.
Qed.

Lemma total_count_delete m k v :
  m !! k = Some v → total_count m = v + total_count (delete k m).
Proof.
  intros E. unfold total_count.
  rewrite <- (map_fold_delete_L _ _ k v m); [done| |done]. intros; lia.
Qed.

Lemma total_count_bump m k : total_count (bump k m) = S (total_count m).
Proof.
  unfold bump. destruct (m !! k) as [v|] eqn:E; simpl.
  - rewrite <- insert_delete_eq.
    rewrite total_count_insert by apply lookup_delete_eq.
    rewrite (total_count_delete m k v E). lia.
  - rewrite total_count_insert by done. lia.
Qed.

Lemma bump_lookup m k : bump k m !! k = Some (default 0 (m !! k) + 1).
Proof. unfold bump. apply lookup_insert_eq. Qed.

Lemma bump_lookup_ne m k k' : k ≠ k' → bump k m !! k' = m !! k'.
Proof. intros E. unfold bump. by apply lookup_insert_ne. Qed.
End TotalCount.

(** ** Finished sessions and finalisation *)

Lemma finished_stays key t e :
  finished e = true → finished (typeKey key t e) = true.
Proof.
  intros F. pose proof (is_expected_finished key e F) as W.
  destruct (typeKey_wrong key t e W) as (Hc & _).
  unfold finished in *. by rewrite typeKey_testText, Hc.
Qed.

(** What a keystroke does to a session whose cursor already stands at the
    end of a non-empty text: it is counted as an error against the key
    ["undefined"], every callback fires, and [persistSession] runs again. *)
Lemma handleKey_after_finish w key c :
  testText (engine w) ≠ [] →
  finished (engine w) = true →
  let w' := handleKey key c w in
  errors (engine w') = S (errors (engine w)) ∧
  errorMap (engine w') = bump (js "undefined") (errorMap (engine w)) ∧
  storage w' = buildRecord (engine w') c :: storage w ∧
  completions (calls w') = S (completions (calls w)).
Proof.
  intros Ht F w'. subst w'.
  pose proof (is_expected_finished key (engine w) F) as W.
  pose proof (finished_stays key (now c) (engine w) F) as F'.
  destruct (typeKey_wrong key (now c) (engine w) W) as (_ & He & Hm & _).
  rewrite handleKey_engine, handleKey_storage, handleKey_calls by done.
  simpl. rewrite F'. repeat split; try done.
  - rewrite Hm. unfold expectedChar, finished in *.
    apply Nat.leb_le in F. by rewrite lookup_ge_None_2.
  - unfold completions. rewrite !List.filter_app, !length_app. simpl. lia.
Qed.

(** C1 (the code departs from the claim): load ["a"], type [a] — the session
    completes, one record is stored and [onComplete] fires once — then type
    [b].  The second keystroke is not a no-op: it is counted as an error
    under the key ["undefined"], a second record is appended to the History
    Store and [onComplete] fires a second time. *)
Theorem handleKey_after_completion_persists_again :
  let w1 := handleKey (js "a") (at_ms 200) (loadText (js "a") 100 (newEngine [])) in
  let w2 := handleKey (js "b") (at_ms 300) w1 in
  finished (engine w1) = true ∧
  length (storage w1) = 1 ∧ completions (calls w1) = 1 ∧
  length (storage w2) = 2 ∧ completions (calls w2) = 2 ∧
  length (calls w2) = length (calls w1) + 4 ∧
  errors (engine w1) = 0 ∧ errors (engine w2) = 1 ∧
  errorMap (engine w2) = {[ js "undefined" := 1 ]}.
Proof. vm_compute. repeat split; reflexivity. Qed.

(** ** Loading a text *)

Lemma render_start_lookup (e : TypingEngine) i ch st :
  cursor e = 0 →
  chars (render e) !! i = Some (ch, st) →
  testText e !! i = Some ch ∧ st = (if Nat.eqb i 0 then current else pending).
Proof.
  intros Hc. unfold render; simpl. rewrite list_lookup_imap.
  destruct (testText e !! i) as [x|]; simpl; [|done].
  rewrite Hc. unfold char_status. intros [= <- <-].
  split; [done|]. by destruct i.
Qed.

(** What [loadText] does reset, and its single render notification. *)
Lemma loadText_effect text t w :
  let w' := loadText text t w in
  testText (engine w') = text ∧ cursor (engine w') = 0 ∧
  errors (engine w') = 0 ∧ errorMap (engine w') = ∅ ∧
  timestamps (engine w') = [] ∧ sessionStart (engine w') = Some t ∧
  storage w' = storage w ∧
  calls w' = calls w ++ [onUpdate (render (engine w'))] ∧
  total (render (engine w')) = length text ∧
  (∀ i ch st, chars (render (engine w')) !! i = Some (ch, st) →
     text !! i = Some ch ∧ st = (if Nat.eqb i 0 then current else pending)).
Proof.
  intros w'. repeat split; try done.
  all: apply (render_start_lookup (engine w') i ch st) in H as [? ?]; done.
Qed.

(** What [loadText] leaves as it was. *)
Lemma loadText_keeps text t w :
  let w' := loadText text t w in
  confusions (engine w') = confusions (engine w) ∧
  latencies (engine w') = latencies (engine w) ∧
  latencyBuckets (engine w') = latencyBuckets (engine w).
Proof. done. Qed.

(** C2 (the code departs from the claim): load ["ab"] at 100 ms, type [x]
    (wrong) and [a] (right, 200 ms after the load), then load ["cd"].  The
    second load resets cursor, errors, error map and timestamps and renders
    once, but the confusion map still holds ["a→x"] and the latency samples
    still hold the 200 ms sample; typing ["cd"] without a mistake then
    stores a record with no error that carries the stale confusion entry. *)
Theorem loadText_keeps_confusions_and_latencies :
  let w1 := typeAll [(js "x", at_ms 200); (js "a", at_ms 300)]
                    (loadText (js "ab") 100 (newEngine [])) in
  let w2 := loadText (js "cd") 400 w1 in
  let w3 := typeAll [(js "c", at_ms 500); (js "d", at_ms 600)] w2 in
  cursor (engine w2) = 0 ∧ errors (engine w2) = 0 ∧
  errorMap (engine w2) = ∅ ∧ timestamps (engine w2) = [] ∧
  renders (calls w2) = renders (calls w1) + 1 ∧
  confusions (engine w2) = {[ js "a" ++ [arrow] ++ js "x" := 1 ]} ∧
  latencies (engine w2) = [200%Q] ∧
  (rec_errors <$> head (storage w3)) = Some 0 ∧
  (rec_confusions <$> head (storage w3)) =
    Some {[ js "a" ++ [arrow] ++ js "x" := 1 ]} ∧
  (count <$> (head (storage w3) ≫= latency)) = Some 3.
Proof. vm_compute. repeat split; reflexivity. Qed.

(** ** Keystroke accounting *)

Lemma typeKey_counts key t e :
  cursor (typeKey key t e) + errors (typeKey key t e) =
    S (cursor e + errors e) ∧
  total_count (errorMap (typeKey key t e)) + errors e =
    total_count (errorMap e) + errors (typeKey key t e).
Proof.
  destruct (is_expected key (expectedChar e)) eqn:E.
  - destruct (typeKey_right key t e E) as (-> & -> & -> & _). lia.
  - destruct (typeKey_wrong key t e E) as (-> & -> & -> & _).
    rewrite total_count_bump. lia.
Qed.

Lemma typeAll_counts ks w :
  testText (engine w) ≠ [] →
  let w' := typeAll ks w in
  cursor (engine w') + errors (engine w') =
    cursor (engine w) + errors (engine w) + length ks ∧
  total_count (errorMap (engine w')) + errors (engine w) =
    total_count (errorMap (engine w)) + errors (engine w').
Proof.
  intros Ht. induction ks as [|k ks IH] using rev_ind; simpl.
  - split; lia.
  - rewrite typeAll_snoc, length_app. simpl in *.
    rewrite handleKey_engine by (by rewrite typeAll_testText).
    pose proof (typeKey_counts k.1 (now k.2) (engine (typeAll ks w))).
    lia.
Qed.

(** C4: after any keystrokes on a loaded non-empty text, cursor + errors is
    the number of keystrokes processed and the counts of the error map add
    up to the error counter; a mistyped key changes the error map and the
    confusion map by adding one to a single entry of each. *)
Theorem keystroke_accounting (text : jsstring) (t : Q) (w0 : world)
    (ks : list (jsstring * clock)) :
  text ≠ [] →
  let w := typeAll ks (loadText text t w0) in
  cursor (engine w) + errors (engine w) = length ks ∧
  total_count (errorMap (engine w)) = errors (engine w) ∧
  ∀ key c,
    is_expected key (expectedChar (engine w)) = false →
    let w' := handleKey key c w in
    ∃ k1 k2,
      errorMap (engine w') =
        <[k1 := default 0 (errorMap (engine w) !! k1) + 1]> (errorMap (engine w)) ∧
      confusions (engine w') =
        <[k2 := default 0 (confusions (engine w) !! k2) + 1]> (confusions (engine w)) ∧
      total_count (errorMap (engine w')) = S (total_count (errorMap (engine w))) ∧
      total_count (confusions (engine w')) = S (total_count (confusions (engine w))).
Proof.
  intros Ht w.
  destruct (typeAll_counts ks (loadText text t w0) Ht) as [H1 H2].
  fold w in H1, H2.
  change (errorMap (engine (loadText text t w0)))
    with (@empty (gmap jsstring nat) _) in H2.
  change (errors (engine (loadText text t w0))) with 0 in H1, H2.
  change (cursor (engine (loadText text t w0))) with 0 in H1.
  pose proof (total_count_empty (K := jsstring)) as H0. rewrite H0 in H2.
  split; [lia|]. split; [lia|].
  intros key c W w'. subst w'.
  rewrite handleKey_engine by (subst w; by rewrite typeAll_testText).
  destruct (typeKey_wrong key (now c) (engine w) W) as (_ & _ & -> & -> & _).
  eexists _, _. split; [reflexivity|]. split; [reflexivity|].
  by rewrite !total_count_bump.
Qed.

Lemma keystroke_accounting_witness :
  let w := typeAll [(js "a", at_ms 200); (js "x", at_ms 300)]
                   (loadText (js "ab") 100 (newEngine [])) in
  cursor (engine w) + errors (engine w) = 2 ∧
  total_count (errorMap (engine w)) = errors (engine w).
Proof.
  pose proof (keystroke_accounting (js "ab") 100 (newEngine [])
                [(js "a", at_ms 200); (js "x", at_ms 300)]) as H.
  destruct H as (H1 & H2 & _); [discriminate|].
  split; [exact H1|exact H2].
Defined.

(** C5: on an unfinished session, a key other than the expected character
    leaves the cursor where it is and adds one to the error counter, to the
    error-map entry of the expected character and to the confusion-map entry
    of the pair; no other entry of either map changes. *)
Theorem wrong_key_effect (w : world) (key : jsstring) (c : clock)
    (x : code_unit) :
  expectedChar (engine w) = Some x →
  key ≠ [x] →
  let w' := handleKey key c w in
  let pair := [x] ++ [arrow] ++ key in
  cursor (engine w') = cursor (engine w) ∧
  errors (engine w') = errors (engine w) + 1 ∧
  errorMap (engine w') !! [x] = Some (default 0 (errorMap (engine w) !! [x]) + 1) ∧
  confusions (engine w') !! pair =
    Some (default 0 (confusions (engine w) !! pair) + 1) ∧
  (∀ k, k ≠ [x] → errorMap (engine w') !! k = errorMap (engine w) !! k) ∧
  (∀ k, k ≠ pair → confusions (engine w') !! k = confusions (engine w) !! k).
Proof.
  intros Hx Hk w' pair. subst w'.
  assert (testText (engine w) ≠ []) as Ht.
  { unfold expectedChar in Hx. intros E. by rewrite E in Hx. }
  assert (is_expected key (expectedChar (engine w)) = false) as W.
  { rewrite Hx. simpl. by apply bool_decide_eq_false. }
  rewrite handleKey_engine by done.
  destruct (typeKey_wrong key (now c) (engine w) W) as (-> & -> & -> & -> & _).
  rewrite Hx. simpl ToString. fold pair.
  repeat split.
  - lia.
  - apply bump_lookup.
  - apply bump_lookup.
  - intros k Hne. by apply bump_lookup_ne.
  - intros k Hne. by apply bump_lookup_ne.
Qed.

Lemma wrong_key_effect_witness :
  let w := loadText (js "ab") 100 (newEngine []) in
  let w' := handleKey (js "x") (at_ms 200) w in
  cursor (engine w') = 0 ∧ errors (engine w') = 1 ∧
  errorMap (engine w') !! js "a" = Some 1.
Proof.
  pose proof (wrong_key_effect (loadText (js "ab") 100 (newEngine []))
                (js "x") (at_ms 200) 97%N) as H.
  destruct H as (H1 & H2 & H3 & _); [reflexivity|discriminate|].
  split; [exact H1|]. split; [exact H2|exact H3].
Defined.

(** ** Persistence happens at the end of the text only *)

Lemma typeKey_cursor_bound key t e :
  cursor e ≤ length (testText e) →
  cursor (typeKey key t e) ≤ length (testText e).
Proof.
  intros B. unfold typeKey.
  destruct (is_expected key (expectedChar e)) eqn:E; simpl; [|done].
  unfold expectedChar in E.
  destruct (testText e !! cursor e) eqn:L; [|done].
  apply lookup_lt_Some in L. lia.
Qed.

Lemma typeAll_cursor_bound ks w :
  cursor (engine w) ≤ length (testText (engine w)) →
  cursor (engine (typeAll ks w)) ≤ length (testText (engine w)).
Proof.
  intros B. induction ks as [|k ks IH] using rev_ind; [done|].
  rewrite typeAll_snoc.
  destruct (testText (engine w)) eqn:Ht.
  - rewrite handleKey_empty; [done|]. by rewrite typeAll_testText.
  - rewrite handleKey_engine by (by rewrite typeAll_testText, Ht).
    rewrite <- Ht, <- (typeAll_testText ks w).
    apply typeKey_cursor_bound. by rewrite typeAll_testText, Ht.
Qed.

Lemma completions_app evs evs' :
  completions (evs ++ evs') = completions evs + completions evs'.
Proof. unfold completions. by rewrite List.filter_app, length_app. Qed.

Lemma handleKey_in_progress w key c :
  let w' := handleKey key c w in
  cursor (engine w') < length (testText (engine w)) →
  storage w' = storage w ∧ completions (calls w') = completions (calls w).
Proof.
  intros w' Hc. subst w'.
  destruct (testText (engine w)) eqn:Ht; [simpl in Hc; lia|].
  assert (testText (engine w) ≠ []) as Hne by (by rewrite Ht).
  rewrite handleKey_engine in Hc by done.
  rewrite handleKey_storage, handleKey_calls by done. simpl.
  assert (finished (typeKey key (now c) (engine w)) = false) as ->.
  { unfold finished. rewrite typeKey_testText, Ht. apply Nat.leb_gt. lia. }
  split; [done|]. rewrite completions_app. simpl. unfold completions. simpl. lia.
Qed.

Lemma typeAll_in_progress ks w :
  let w' := typeAll ks w in
  cursor (engine w') < length (testText (engine w)) →
  storage w' = storage w ∧ completions (calls w') = completions (calls w).
Proof.
  induction ks as [|k ks IH] using rev_ind; [done|].
  simpl in *. rewrite typeAll_snoc. intros Hc.
  pose proof (cursor_handleKey_mono (typeAll ks w) k.1 k.2) as M.
  destruct IH as [IH1 IH2]; [lia|].
  destruct (handleKey_in_progress (typeAll ks w) k.1 k.2) as [S1 S2].
  { by rewrite typeAll_testText. }
  split; congruence.
Qed.

(** C10: while the cursor of a loaded session is short of the text length,
    nothing of that session is in the History Store and [onComplete] has not
    fired; loading another text then stores nothing and fires no
    [onComplete] either, so the abandoned session leaves no record.  A
    record appears in the store only once the cursor has reached the text
    length. *)
Theorem abandoned_session_not_persisted (w0 : world) (text : jsstring)
    (t : Q) (ks : list (jsstring * clock)) (text' : jsstring) (t' : Q) :
  let w := typeAll ks (loadText text t w0) in
  let w' := loadText text' t' w in
  cursor (engine w) ≤ length text ∧
  (cursor (engine w) < length text →
     storage w = storage w0 ∧ completions (calls w) = completions (calls w0) ∧
     storage w' = storage w0 ∧ completions (calls w') = completions (calls w0)) ∧
  storage w' = storage w ∧ completions (calls w') = completions (calls w) ∧
  (storage w ≠ storage w0 → cursor (engine w) = length text).
Proof.
  intros w w'.
  pose proof (typeAll_cursor_bound ks (loadText text t w0)) as B.
  pose proof (typeAll_in_progress ks (loadText text t w0)) as P.
  fold w in B, P. simpl in B, P.
  assert (completions (calls (loadText text t w0)) = completions (calls w0)) as L0.
  { simpl. rewrite completions_app. unfold completions. simpl. lia. }
  assert (completions (calls w') = completions (calls w)) as L1.
  { subst w'. simpl. rewrite completions_app. unfold completions. simpl. lia. }
  specialize (B ltac:(lia)).
  repeat split; try done.
  - by apply P.
  - destruct (P H) as [_ ->]. done.
  - by apply P.
  - rewrite L1. destruct (P H) as [_ ->]. done.
  - intros Hne. destruct (decide (cursor (engine w) < length text)) as [Hlt|]; [|lia].
    destruct (P Hlt) as [E _]. done.
Qed.

Lemma abandoned_session_not_persisted_witness :
  let w := typeAll [(js "a", at_ms 200)] (loadText (js "ab") 100 (newEngine [])) in
  cursor (engine w) < 2 ∧
  storage (loadText (js "cd") 300 w) = [] ∧
  completions (calls (loadText (js "cd") 300 w)) = 0.
Proof.
  pose proof (abandoned_session_not_persisted (newEngine []) (js "ab") 100
                [(js "a", at_ms 200)] (js "cd") 300) as H.
  destruct H as (_ & H & _).
  assert (1 < 2) as L by lia.
  destruct (H L) as (_ & _ & H3 & H4).
  split; [exact L|]. split; [exact H3|exact H4].
Defined.

(** ** Latency samples *)

Lemma Qlt_bool_lt (a b : Q) : Qlt_bool a b = true → (a < b)%Q.
Proof.
  unfold Qlt_bool. intros E%negb_true_iff.
  apply Qnot_le_lt. intros L%Qle_bool_iff. congruence.
Qed.

Lemma keeps_sample_spec (x : Q) :
  keeps_sample x = true → ¬ (x == 0)%Q ∧ (x < 5000)%Q.
Proof.
  unfold keeps_sample. intros [E1%negb_true_iff E2]%andb_true_iff.
  split; [by apply Qeq_bool_neq | by apply Qlt_bool_lt].
Qed.

Lemma interval_at_nonzero e t :
  ¬ (interval_at e t == 0)%Q →
  ∃ prev, lastCorrectTs e = Some prev ∧ interval_at e t = (t - prev)%Q.
Proof.
  unfold interval_at, truthy.
  destruct (lastCorrectTs e) as [prev|]; simpl.
  - destruct (Qeq_bool prev 0); simpl; [intros []; reflexivity|]. eauto.
  - intros []; reflexivity.
Qed.

(** One keystroke adds at most one sample, and only when it is correct. *)
Lemma typeKey_latencies key t e :
  latencies (typeKey key t e) = latencies e ∨
  ∃ prev,
    is_expected key (expectedChar e) = true ∧
    lastCorrectTs e = Some prev ∧
    latencies (typeKey key t e) = latencies e ++ [(t - prev)%Q] ∧
    ¬ (t - prev == 0)%Q ∧ (t - prev < 5000)%Q.
Proof.
  destruct (is_expected key (expectedChar e)) eqn:E.
  - destruct (typeKey_right key t e E) as (_ & _ & _ & _ & _ & ->).
    destruct (keeps_sample (interval_at e t)) eqn:K; [|by left].
    apply keeps_sample_spec in K as [K1 K2].
    destruct (interval_at_nonzero e t K1) as (prev & L & I).
    right. exists prev. rewrite I in *. done.
  - left. by destruct (typeKey_wrong key t e E) as (_ & _ & _ & _ & -> & _).
Qed.

Lemma typeAll_latencies ks w :
  let w' := typeAll ks w in
  ∃ samples,
    latencies (engine w') = latencies (engine w) ++ samples ∧
    length samples + cursor (engine w) ≤ cursor (engine w') ∧
    length (timestamps (engine w')) + cursor (engine w) =
      length (timestamps (engine w)) + cursor (engine w') ∧
    Forall (λ x, ¬ (x == 0)%Q ∧ (x < 5000)%Q) samples.
Proof.
  induction ks as [|k ks IH] using rev_ind; simpl.
  - exists []. rewrite app_nil_r. repeat split; simpl; try done; lia.
  - rewrite typeAll_snoc. simpl in IH.
    destruct IH as (samples & L & B & T & F).
    set (w1 := typeAll ks w) in *.
    destruct (testText (engine w1)) eqn:Ht.
    { rewrite handleKey_empty by done. by exists samples. }
    rewrite handleKey_engine by (by rewrite Ht).
    destruct (is_expected k.1 (expectedChar (engine w1))) eqn:E.
    + destruct (typeKey_right k.1 (now k.2) (engine w1) E)
        as (Hc & _ & _ & _ & Hts & _).
      rewrite Hc, Hts, length_app. simpl.
      destruct (typeKey_latencies k.1 (now k.2) (engine w1))
        as [->|(prev & _ & _ & -> & N0 & N5)].
      * exists samples. repeat split; try done; lia.
      * exists (samples ++ [(now k.2 - prev)%Q]).
        rewrite L, <- app_assoc, length_app. simpl.
        repeat split; try done; try lia.
        apply Forall_app. split; [done|]. by constructor.
    + destruct (typeKey_wrong k.1 (now k.2) (engine w1) E)
        as (-> & _ & _ & _ & -> & ->).
      by exists samples.
Qed.

(** C3, as amended: a latency sample is appended only on a correct
    keystroke; its value is the time since the previous correct keystroke
    or, on the first correct keystroke, since the session start; it is kept
    only when it is not 0 and below 5000 ms (with a clock that does not run
    backwards: strictly between 0 and 5000).  Hence the samples appended
    since the load number at most the correct keystrokes. *)
Theorem latency_samples (w0 : world) (text : jsstring) (t : Q)
    (ks : list (jsstring * clock)) :
  let w := typeAll ks (loadText text t w0) in
  (∃ samples,
     latencies (engine w) = latencies (engine w0) ++ samples ∧
     length samples ≤ cursor (engine w) ∧
     length (timestamps (engine w)) = cursor (engine w) ∧
     Forall (λ x, ¬ (x == 0)%Q ∧ (x < 5000)%Q) samples) ∧
  ∀ key c,
    let w' := handleKey key c w in
    latencies (engine w') = latencies (engine w) ∨
    ∃ prev,
      is_expected key (expectedChar (engine w)) = true ∧
      (last (timestamps (engine w)) = Some prev ∨
       timestamps (engine w) = [] ∧ sessionStart (engine w) = Some prev) ∧
      latencies (engine w') = latencies (engine w) ++ [(now c - prev)%Q] ∧
      ¬ (now c - prev == 0)%Q ∧ (now c - prev < 5000)%Q ∧
      ((prev <= now c)%Q → (0 < now c - prev)%Q).
Proof.
  intros w. split.
  - destruct (typeAll_latencies ks (loadText text t w0))
      as (samples & L & B & T & F).
    fold w in L, B, T. simpl in L, B, T.
    exists samples. repeat split; try done; lia.
  - intros key c w'. subst w'.
    destruct (testText (engine w)) eqn:Ht.
    { left. by rewrite handleKey_empty. }
    rewrite handleKey_engine by (by rewrite Ht).
    destruct (typeKey_latencies key (now c) (engine w))
      as [->|(prev & E & P & -> & N0 & N5)]; [by left|].
    right. exists prev. repeat split; try done.
    + unfold lastCorrectTs in P.
      destruct (last (timestamps (engine w))) eqn:La; [left; congruence|].
      right. split; [|done]. by apply last_None.
    + intros Le. apply Qle_lteq in Le as [Lt|Eq].
      * by apply -> Qlt_minus_iff.
      * destruct N0. rewrite Eq. ring.
Qed.

Lemma latency_samples_witness :
  let w := loadText (js "ab") 100 (newEngine []) in
  let w' := handleKey (js "a") (at_ms 200) w in
  latencies (engine w') = latencies (engine w) ∨
  ∃ prev,
    is_expected (js "a") (expectedChar (engine w)) = true ∧
    (last (timestamps (engine w)) = Some prev ∨
     timestamps (engine w) = [] ∧ sessionStart (engine w) = Some prev) ∧
    latencies (engine w') = latencies (engine w) ++ [(200 - prev)%Q] ∧
    ¬ (200 - prev == 0)%Q ∧ (200 - prev < 5000)%Q ∧
    ((prev <= 200)%Q → (0 < 200 - prev)%Q).
Proof.
  exact (proj2 (latency_samples (newEngine []) (js "ab") 100 [])
               (js "a") (at_ms 200)).
Defined.

(** C3, as the claim states it, fails: load ["ab"] at 100 ms and type [a]
    at 200 ms.  This is the first correct keystroke, and it appends the
    sample 100 (measured from the session start), so there is one sample for
    one correct keystroke. *)
Lemma latency_on_first_correct_key :
  let w := loadText (js "ab") 100 (newEngine []) in
  let w' := handleKey (js "a") (at_ms 200) w in
  timestamps (engine w) = [] ∧ cursor (engine w') = 1 ∧
  latencies (engine w') = [100%Q] ∧
  ¬ (Z.of_nat (length (latencies (engine w'))) ≤ Z.of_nat (cursor (engine w')) - 1)%Z.
Proof. vm_compute. repeat split; try reflexivity. intros H. apply H. reflexivity. Qed.

(** ** Rounding to the nearest double *)

Section Binary64.
Implicit Types (x y : Q) (k e n : Z).
Local Open Scope Q_scope.

Lemma pow2_pos k : 0 < 2 ^ k.
Proof. by apply Qpower_0_lt. Qed.

Lemma pow2_add k e : 2 ^ (k + e) == 2 ^ k * 2 ^ e.
Proof. by apply Qpower_plus. Qed.

Lemma pow2_inv k : 2 ^ (- k) * 2 ^ k == 1.
Proof. rewrite <- pow2_add. by replace (- k + k)%Z with 0%Z by lia. Qed.

Lemma pow2_le k e : (k <= e)%Z → 2 ^ k <= 2 ^ e.
Proof. intros H. by apply Qpower_le_compat_l. Qed.

Lemma pow2_lt k e : (k < e)%Z → 2 ^ k < 2 ^ e.
Proof. intros H. by apply Qpower_lt_compat_l. Qed.

Lemma pow2_Z k : (0 <= k)%Z → 2 ^ k == inject_Z (2 ^ k).
Proof. intros H. by rewrite Zpower_Qpower. Qed.

Lemma exponent_spec x : 0 < x → 2 ^ exponent x <= x ∧ x < 2 ^ (exponent x + 1).
Proof.
  intros P. unfold exponent.
  destruct x as [p d]. cbn [Qnum Qden].
  assert (0 < p)%Z as Pp by (unfold Qlt in P; simpl in P; lia).
  destruct (Z.log2_spec p Pp) as [Lp Up].
  destruct (Z.log2_spec (Z.pos d) (Pos2Z.is_pos d)) as [Ld Ud].
  pose proof (Z.log2_nonneg p) as Np.
  pose proof (Z.log2_nonneg (Z.pos d)) as Nd.
  set (a := Z.log2 p) in *. set (b := Z.log2 (Z.pos d)) in *.
  assert (p # d == inject_Z p / inject_Z (Z.pos d)) as E by apply Qmake_Qdiv.
  assert (0 < inject_Z (Z.pos d)) as Pd by (rewrite <- (Zlt_Qlt 0); lia).
  rewrite Zle_Qle in Lp, Ld. rewrite Zlt_Qlt in Up, Ud.
  rewrite <- !pow2_Z in Lp, Ld, Up, Ud by lia.
  replace (Z.succ a) with (a + 1)%Z in Up by lia.
  replace (Z.succ b) with (b + 1)%Z in Ud by lia.
  destruct (Qle_bool (2 ^ (a - b)) (p # d)) eqn:T.
  - apply Qle_bool_iff in T. split; [done|].
    rewrite E. apply Qlt_shift_div_r; [done|].
    replace (a - b + 1)%Z with ((a + 1) + - b)%Z by lia.
    rewrite pow2_add.
    apply Qlt_le_trans with (2 ^ (a + 1) * (2 ^ (- b) * 2 ^ b)).
    + rewrite pow2_inv. lra.
    + rewrite Qmult_assoc. apply Qmult_le_l; [|done].
      apply Qmult_lt_0_compat; apply pow2_pos.
  - assert (p # d < 2 ^ (a - b)) as T'.
    { apply Qnot_le_lt. intros L%Qle_bool_iff. congruence. }
    replace (a - b - 1 + 1)%Z with (a - b)%Z by lia. split; [|done].
    rewrite E. apply Qle_shift_div_l; [done|].
    replace (a - b - 1)%Z with (a + - (b + 1))%Z by lia.
    rewrite pow2_add.
    apply Qle_trans with (2 ^ a * (2 ^ (- (b + 1)) * 2 ^ (b + 1))).
    + rewrite <- Qmult_assoc. apply Qmult_le_l; [apply pow2_pos|].
      apply Qmult_le_l; [apply pow2_pos|]. by apply Qlt_le_weak.
    + rewrite pow2_inv. lra.
Qed.

Lemma exponent_unique x e : 2 ^ e <= x → x < 2 ^ (e + 1) → exponent x = e.
Proof.
  intros L U.
  assert (0 < x) as P by (pose proof (pow2_pos e); lra).
  destruct (exponent_spec x P) as [L' U'].
  assert (2 ^ e < 2 ^ (exponent x + 1)) as H1 by lra.
  assert (2 ^ exponent x < 2 ^ (e + 1)) as H2 by lra.
  apply Qpower_lt_compat_l_inv in H1, H2; [lia|done..].
Qed.

Lemma exponent_mono x y : 0 < x → x <= y → (exponent x <= exponent y)%Z.
Proof.
  intros P L.
  destruct (exponent_spec x P) as [Lx Ux].
  destruct (exponent_spec y) as [Ly Uy]; [lra|].
  assert (2 ^ exponent x < 2 ^ (exponent y + 1)) as H by lra.
  apply Qpower_lt_compat_l_inv in H; [lia|done].
Qed.

Lemma exponent_proper x y : 0 < x → x == y → exponent x = exponent y.
Proof.
  intros P E. symmetry. destruct (exponent_spec x P).
  apply exponent_unique; by rewrite <- E.
Qed.

Lemma rne_proper x y : x == y → rne x = rne y.
Proof.
  intros E. unfold rne. rewrite (Qfloor_comp _ _ E).
  assert (x - inject_Z (Qfloor y) == y - inject_Z (Qfloor y)) as E'
    by (by rewrite E).
  by rewrite (Qcompare_comp _ _ E' _ _ (Qeq_refl _)).
Qed.

Lemma rne_Z n : rne (inject_Z n) = n.
Proof.
  unfold rne. rewrite Qfloor_Z.
  destruct (Qcompare_spec (inject_Z n - inject_Z n) (1 # 2)) as [H|H|H]; [lra|done|lra].
Qed.

Lemma rne_near x : inject_Z (rne x) - (1 # 2) <= x ∧ x <= inject_Z (rne x) + (1 # 2).
Proof.
  unfold rne.
  pose proof (Qfloor_le x) as L. pose proof (Qlt_floor x) as U.
  rewrite inject_Z_plus in U. change (inject_Z 1) with 1 in U.
  destruct (Qcompare_spec (x - inject_Z (Qfloor x)) (1 # 2)) as [H|H|H].
  - destruct (Z.even (Qfloor x)); rewrite ?inject_Z_plus;
      change (inject_Z 1) with 1; split; lra.
  - split; lra.
  - rewrite inject_Z_plus. change (inject_Z 1) with 1. split; lra.
Qed.

Lemma rne_mono x y : x <= y → (rne x <= rne y)%Z.
Proof.
  intros L. pose proof (Qfloor_resp_le _ _ L) as F.
  assert (Qfloor x <= rne x <= Qfloor x + 1)%Z as Bx.
  { unfold rne. destruct (_ ?= _); [destruct (Z.even _)|..]; lia. }
  assert (Qfloor y <= rne y <= Qfloor y + 1)%Z as By.
  { unfold rne. destruct (_ ?= _); [destruct (Z.even _)|..]; lia. }
  destruct (Z.eq_dec (Qfloor x) (Qfloor y)) as [E|N]; [|lia].
  unfold rne. rewrite E.
  destruct (Qcompare_spec (x - inject_Z (Qfloor y)) (1 # 2)) as [Hx|Hx|Hx];
    destruct (Qcompare_spec (y - inject_Z (Qfloor y)) (1 # 2)) as [Hy|Hy|Hy];
    try lia; try lra; destruct (Z.even _); lia.
Qed.

(** The value of [b64] on a positive number. *)
Lemma b64_pos x :
  0 < x →
  b64 x == inject_Z (rne (x * 2 ^ (- (exponent x - 52)))) * 2 ^ (exponent x - 52).
Proof.
  intros P. unfold b64.
  destruct (Qeq_bool x 0) eqn:Z0.
  { apply Qeq_bool_iff in Z0. lra. }
  assert (Qle_bool 0 x = true) as -> by (apply Qle_bool_iff; lra).
  rewrite Qred_correct.
  assert (Qabs x == x) as A by (apply Qabs_pos; lra).
  rewrite (exponent_proper (Qabs x) x) by (rewrite ?A; done || lra).
  by rewrite (rne_proper _ (x * 2 ^ (- (exponent x - 52)))) by (by rewrite A).
Qed.

Lemma b64_0 x : x == 0 → b64 x = 0.
Proof. intros E. unfold b64. apply Qeq_bool_iff in E. by rewrite E. Qed.

Lemma b64_neg x : x < 0 → b64 x == - b64 (- x).
Proof.
  intros N. unfold b64.
  destruct (Qeq_bool x 0) eqn:Z0.
  { apply Qeq_bool_iff in Z0. lra. }
  destruct (Qeq_bool (- x) 0) eqn:Z1.
  { apply Qeq_bool_iff in Z1. lra. }
  destruct (Qle_bool 0 x) eqn:S.
  { apply Qle_bool_iff in S. lra. }
  assert (Qle_bool 0 (- x) = true) as -> by (apply Qle_bool_iff; lra).
  rewrite !Qred_correct.
  assert (Qabs (- x) == Qabs x) as A by apply Qabs_opp.
  assert (0 < Qabs x) as PA by (rewrite Qabs_neg; lra).
  rewrite (exponent_proper (Qabs (- x)) (Qabs x)) by (rewrite ?A; done).
  by rewrite (rne_proper (Qabs (- x) * _) (Qabs x * 2 ^ (- (exponent (Qabs x) - 52))))
    by (by rewrite A).
Qed.

(** [b64] gives one result for equal rationals. *)
Lemma b64_proper x y : x == y → b64 x = b64 y.
Proof.
  intros E. unfold b64.
  rewrite (Qeqb_comp _ _ E _ _ (Qeq_refl 0)).
  destruct (Qeq_bool y 0) eqn:Z0; [done|].
  assert (¬ y == 0) as NZ by (intros H%Qeq_bool_iff; congruence).
  rewrite (Qleb_comp _ _ (Qeq_refl 0) _ _ E).
  assert (Qabs x == Qabs y) as A by (by rewrite E).
  assert (0 < Qabs x) as PA.
  { apply Qabs_case; intros; lra. }
  rewrite (exponent_proper _ _ PA A).
  rewrite (rne_proper (Qabs x * _) (Qabs y * 2 ^ (- (exponent (Qabs y) - 52))))
    by (by rewrite A).
  done.
Qed.

(** A positive number and its double lie in the same binade. *)
Lemma b64_binade x :
  0 < x → 2 ^ exponent x <= b64 x ∧ b64 x <= 2 ^ (exponent x + 1).
Proof.
  intros P. rewrite (b64_pos x P).
  destruct (exponent_spec x P) as [L U].
  set (e := exponent x) in *. set (k := (e - 52)%Z).
  pose proof (pow2_pos k) as Pk. pose proof (pow2_pos (- k)) as Pk'.
  assert (2 ^ 52 <= x * 2 ^ (- k)) as L'.
  { replace 52%Z with (e + - k)%Z by lia. rewrite pow2_add.
    by apply Qmult_le_r. }
  assert (x * 2 ^ (- k) <= 2 ^ 53) as U'.
  { replace 53%Z with ((e + 1) + - k)%Z by lia. rewrite pow2_add.
    apply Qmult_le_r; [done|]. by apply Qlt_le_weak. }
  rewrite (pow2_Z 52) in L' by done. rewrite (pow2_Z 53) in U' by done.
  apply rne_mono in L', U'. rewrite rne_Z in L', U'.
  rewrite Zle_Qle in L', U'. rewrite <- pow2_Z in L', U' by done.
  set (n := inject_Z (rne (x * 2 ^ (- k)))) in *.
  split.
  - replace e with (52 + k)%Z at 1 by lia. rewrite pow2_add.
    by apply Qmult_le_r.
  - replace (e + 1)%Z with (53 + k)%Z by lia. rewrite pow2_add.
    by apply Qmult_le_r.
Qed.

Lemma b64_pos_lt x : 0 < x → 0 < b64 x.
Proof.
  intros P. destruct (b64_binade x P) as [L _].
  pose proof (pow2_pos (exponent x)). lra.
Qed.

Lemma b64_mono_pos x y : 0 < x → x <= y → b64 x <= b64 y.
Proof.
  intros P L. assert (0 < y) as Py by lra.
  pose proof (exponent_mono x y P L) as E.
  destruct (Z.eq_dec (exponent x) (exponent y)) as [Eq|Ne].
  - rewrite (b64_pos x P), (b64_pos y Py), Eq.
    apply Qmult_le_r; [apply pow2_pos|].
    rewrite <- Zle_Qle. apply rne_mono.
    apply Qmult_le_r; [apply pow2_pos|done].
  - destruct (b64_binade x P) as [_ U]. destruct (b64_binade y Py) as [L' _].
    assert (2 ^ (exponent x + 1) <= 2 ^ exponent y) by (apply pow2_le; lia).
    lra.
Qed.

(** Rounding keeps the order. *)
Lemma b64_mono x y : x <= y → b64 x <= b64 y.
Proof.
  intros L.
  destruct (Qlt_le_dec 0 x) as [Px|Nx].
  { by apply b64_mono_pos. }
  destruct (Qlt_le_dec 0 y) as [Py|Ny].
  - apply Qle_trans with 0; [|by apply Qlt_le_weak, b64_pos_lt].
    destruct (Qeq_dec x 0) as [Z0|NZ]; [by rewrite (b64_0 x Z0)|].
    assert (x < 0) as N by lra. rewrite (b64_neg x N).
    pose proof (b64_pos_lt (- x)). lra.
  - destruct (Qeq_dec y 0) as [Zy|NZy].
    + rewrite (b64_0 y Zy).
      destruct (Qeq_dec x 0) as [Z0|NZ]; [by rewrite (b64_0 x Z0)|].
      assert (x < 0) as N by lra. rewrite (b64_neg x N).
      pose proof (b64_pos_lt (- x)). lra.
    + assert (y < 0) as N by lra. assert (x < 0) as N' by lra.
      rewrite (b64_neg x N'), (b64_neg y N).
      pose proof (b64_mono_pos (- y) (- x)). lra.
Qed.

Lemma b64_neg_lt x : x < 0 → b64 x < 0.
Proof.
  intros N. rewrite (b64_neg x N). pose proof (b64_pos_lt (- x)). lra.
Qed.

(** The rounding error is at most 2^-53 of the value. *)
Lemma b64_error_pos x : 0 < x → Qabs (b64 x - x) <= x * 2 ^ (-53).
Proof.
  intros P. rewrite (b64_pos x P).
  destruct (exponent_spec x P) as [L _].
  set (e := exponent x) in *. set (k := (e - 52)%Z).
  pose proof (pow2_pos k) as Pk.
  destruct (rne_near (x * 2 ^ (- k))) as [N1 N2].
  set (n := inject_Z (rne (x * 2 ^ (- k)))) in *.
  assert (x == x * 2 ^ (- k) * 2 ^ k) as X.
  { rewrite <- Qmult_assoc, pow2_inv. ring. }
  assert (2 ^ k * (1 # 2) <= x * 2 ^ (-53)) as B.
  { apply Qle_trans with (2 ^ e * 2 ^ (-53)).
    - replace k with (e + -52)%Z by lia. rewrite pow2_add.
      rewrite <- Qmult_assoc. apply Qmult_le_l; [apply pow2_pos|]. done.
    - apply Qmult_le_r; [apply pow2_pos|done]. }
  apply Qabs_Qle_condition.
  set (s := x * 2 ^ (- k)) in *. set (p := 2 ^ k) in *.
  set (u := x * 2 ^ (-53)) in *.
  assert ((n - (1 # 2)) * p <= s * p) as M1 by (by apply Qmult_le_r).
  assert (s * p <= (n + (1 # 2)) * p) as M2 by (by apply Qmult_le_r).
  split; lra.
Qed.

(** The result is a fraction in lowest terms. *)
Lemma b64_red x : Qred (b64 x) = b64 x.
Proof.
  unfold b64. destruct (Qeq_bool x 0); [done|].
  destruct (Qle_bool 0 x).
  - apply Qcanon.Qred_involutive.
  - by rewrite Qred_opp, Qcanon.Qred_involutive.
Qed.

(** An integer below 2^53 is a double. *)
Lemma b64_Z n : (Z.abs n < 2 ^ 53)%Z → b64 (inject_Z n) = inject_Z n.
Proof.
  assert (∀ m, (0 < m < 2 ^ 53)%Z → b64 (inject_Z m) == inject_Z m) as Pos.
  { intros m [P B].
    assert (0 < inject_Z m) as PQ by (rewrite <- (Zlt_Qlt 0); lia).
    rewrite (b64_pos _ PQ).
    destruct (exponent_spec _ PQ) as [L _].
    set (e := exponent (inject_Z m)) in *.
    assert (e < 53)%Z as E.
    { rewrite Zlt_Qlt in B. rewrite <- (pow2_Z 53) in B by done.
      assert (2 ^ e < 2 ^ 53) as H by lra.
      by apply Qpower_lt_compat_l_inv in H. }
    set (k := (e - 52)%Z).
    assert (inject_Z m * 2 ^ (- k) == inject_Z (m * 2 ^ (- k))) as I.
    { rewrite inject_Z_mult, <- pow2_Z by lia. done. }
    rewrite (rne_proper _ _ I), rne_Z, inject_Z_mult, <- pow2_Z by lia.
    rewrite <- Qmult_assoc, pow2_inv. ring. }
  intros B.
  rewrite <- (b64_red (inject_Z n)).
  rewrite <- (Qcanon.Qred_identity (inject_Z n)) at 2 by (simpl; apply Z.gcd_1_r).
  apply Qred_complete.
  destruct (Z.lt_trichotomy n 0) as [N|[->|P]].
  - assert (inject_Z n < 0) as NQ by (rewrite <- (Zlt_Qlt _ 0); lia).
    rewrite (b64_neg _ NQ).
    assert (- inject_Z n == inject_Z (- n)) as O by (by rewrite inject_Z_opp).
    rewrite (b64_proper _ _ O), (Pos (- n)%Z) by lia.
    rewrite inject_Z_opp. ring.
  - done.
  - apply Pos. lia.
Qed.
Lemma b64_zero_iff x : b64 x == 0 ↔ x == 0.
Proof.
  split; [|by intros ->%b64_0].
  intros E. destruct (Q_dec x 0) as [[N|P]|Z0]; [| |done].
  - pose proof (b64_neg_lt x N). lra.
  - pose proof (b64_pos_lt x P). lra.
Qed.
End Binary64.

(** The machine's own arithmetic gives the values [b64] gives: the
    quotient and the product of the accuracy at cursor 23 with 57 errors,
    the three constants of the ranking and two of its products, and the
    quotients of a WPM and of a latency average. *)
Lemma b64_in_doubles :
  Q_of_float (23 / 80 * 100)%float = Some (b64 (b64 (23 / 80) * 100)) ∧
  Q_of_float 0x1.3333333333333p+0%float = Some (b64 1.2) ∧
  Q_of_float 0x1.999999999999ap-2%float = Some (b64 0.4) ∧
  Q_of_float (3 * 0x1.3333333333333p+0)%float = Some (b64 (3 * b64 1.2)) ∧
  Q_of_float (5 * 0x1.3333333333333p+0 * 0x1.999999999999ap-2)%float =
    Some (b64 (b64 (5 * b64 1.2) * b64 0.4)) ∧
  Q_of_float ((3 / 5) / (192 / 60000))%float =
    Some (b64 (b64 (3 / 5) / b64 (192 / 60000))) ∧
  Q_of_float (23 / 20)%float = Some (b64 (23 / 20)).
Proof. vm_compute. repeat split; reflexivity. Qed.

(** ** Accuracy *)

Lemma toFixed1_tenth (x : Q) : ∃ n : Z, (toFixed1 x == n # 10)%Q.
Proof.
  unfold toFixed1. eexists. apply Qred_correct.
Qed.

Lemma round_half (y : Q) :
  (Qabs (inject_Z (Qfloor (y * 10 + (1 # 2))) / 10 - y) <= 1 # 20)%Q.
Proof.
  pose proof (Qfloor_le (y * 10 + (1 # 2))) as L.
  pose proof (Qlt_floor (y * 10 + (1 # 2))) as U.
  rewrite inject_Z_plus in U. change (inject_Z 1) with 1%Q in U.
  set (n := inject_Z (Qfloor (y * 10 + (1 # 2)))) in *.
  apply Qabs_Qle_condition.
  unfold Qdiv. change (/ 10)%Q with (1 # 10)%Q. split; lra.
Qed.

(** [toFixed1] returns a multiple of 0.1 at distance at most 0.05. *)
Lemma toFixed1_nearest (x : Q) : (Qabs (toFixed1 x - x) <= 1 # 20)%Q.
Proof.
  unfold toFixed1. rewrite Qred_correct.
  destruct (Qle_bool 0 x) eqn:S.
  - apply Qle_bool_iff in S. rewrite (Qabs_pos x S).
    rewrite (Qmake_Qdiv _ 10). apply round_half.
  - assert (x <= 0)%Q as N.
    { apply Qlt_le_weak, Qnot_le_lt. intros L%Qle_bool_iff. congruence. }
    rewrite (Qabs_neg x N).
    rewrite (Qmake_Qdiv _ 10), inject_Z_opp.
    pose proof (round_half (- x)) as R.
    set (n := inject_Z (Qfloor (- x * 10 + (1 # 2)))) in *.
    apply Qabs_Qle_condition in R. apply Qabs_Qle_condition.
    unfold Qdiv in *. change (/ inject_Z 10)%Q with (1 # 10)%Q.
    change (/ 10)%Q with (1 # 10)%Q in R. split; lra.
Qed.

(** On a value that is not negative, [toFixed1] is rounding to one decimal,
    the half going up: the result is n/10 for the one integer n with
    n/10 - 0.05 <= x < n/10 + 0.05. *)
Lemma toFixed1_one_decimal (x : Q) :
  (0 <= x)%Q →
  ∃ n : Z, toFixed1 x = Qred (n # 10) ∧
           ((n # 10) - (1 # 20) <= x)%Q ∧ (x < (n # 10) + (1 # 20))%Q.
Proof.
  intros P. unfold toFixed1.
  apply Qle_bool_iff in P as Pb. rewrite Pb.
  assert (Qfloor (Qabs x * 10 + (1 # 2)) = Qfloor (x * 10 + (1 # 2))) as ->.
  { apply Qfloor_comp. by rewrite (Qabs_pos x P). }
  exists (Qfloor (x * 10 + (1 # 2))). split; [done|].
  pose proof (Qfloor_le (x * 10 + (1 # 2))) as L.
  pose proof (Qlt_floor (x * 10 + (1 # 2))) as U.
  rewrite inject_Z_plus in U. change (inject_Z 1) with 1%Q in U.
  rewrite (Qmake_Qdiv _ 10).
  set (n := inject_Z (Qfloor (x * 10 + (1 # 2)))) in *.
  unfold Qdiv. change (/ inject_Z 10)%Q with (1 # 10)%Q. split; lra.
Qed.

Lemma one_decimal_unique (x : Q) (n m : Z) :
  ((n # 10) - (1 # 20) <= x)%Q → (x < (n # 10) + (1 # 20))%Q →
  ((m # 10) - (1 # 20) <= x)%Q → (x < (m # 10) + (1 # 20))%Q →
  n = m.
Proof.
  rewrite !(Qmake_Qdiv _ 10). unfold Qdiv.
  change (/ inject_Z 10)%Q with (1 # 10)%Q. intros A B C D.
  assert (inject_Z n < inject_Z (m + 1))%Q as H1.
  { rewrite inject_Z_plus. change (inject_Z 1) with 1%Q. lra. }
  assert (inject_Z m < inject_Z (n + 1))%Q as H2.
  { rewrite inject_Z_plus. change (inject_Z 1) with 1%Q. lra. }
  rewrite <- Zlt_Qlt in H1, H2. lia.
Qed.

(** C6: the accuracy is 100 when nothing has been typed.  Otherwise it is
    the double max(0, cursor / (cursor + errors) * 100), quotient and
    product being those of the machine, rounded to one decimal: it is n/10
    for the one integer n with n/10 - 0.05 <= x < n/10 + 0.05, x being that
    double.  At cursor 23 with 57 errors the double is 28.749999999999996
    and the accuracy 28.7.  Loading ["ab"] and typing [a], [x], [b]
    (whatever the clock readings) gives cursor 2, errors 1, error map
    {b: 1}, confusion map {b→x: 1} and accuracy 66.7, and completion fires
    once with a record holding these values. *)
Theorem accuracy_value :
  (∀ e : TypingEngine,
     (cursor e + errors e = 0 → accuracy e = 100%Q) ∧
     (cursor e + errors e ≠ 0 →
        let x := Qmax 0 (b64 (b64 (of_nat (cursor e) /
                                     of_nat (cursor e + errors e)) * 100)) in
        ∃ n : Z, accuracy e = Qred (n # 10) ∧
                 ((n # 10) - (1 # 20) <= x)%Q ∧ (x < (n # 10) + (1 # 20))%Q ∧
                 ∀ m : Z, ((m # 10) - (1 # 20) <= x)%Q →
                          (x < (m # 10) + (1 # 20))%Q → m = n)) ∧
  (∀ e : TypingEngine,
     cursor e = 23 → errors e = 57 →
     b64 (b64 (of_nat (cursor e) / of_nat (cursor e + errors e)) * 100)
       = (8092405580431359 # 281474976710656)%Q ∧
     accuracy e = 28.7%Q) ∧
  (∀ (t0 : Q) (c1 c2 c3 : clock) (st : list sessionRecord),
     let w := typeAll [(js "a", c1); (js "x", c2); (js "b", c3)]
                      (loadText (js "ab") t0 (newEngine st)) in
     cursor (engine w) = 2 ∧ errors (engine w) = 1 ∧
     errorMap (engine w) = {[ js "b" := 1 ]} ∧
     confusions (engine w) = {[ js "b" ++ [arrow] ++ js "x" := 1 ]} ∧
     accuracy (engine w) = 66.7%Q ∧
     completions (calls w) = 1 ∧
     storage w = buildRecord (engine w) c3 :: st ∧
     last (calls w) = Some (onComplete (buildRecord (engine w) c3)) ∧
     rec_accuracy (buildRecord (engine w) c3) = 66.7%Q ∧
     rec_errors (buildRecord (engine w) c3) = 1 ∧
     rec_errorMap (buildRecord (engine w) c3) = {[ js "b" := 1 ]}).
Proof.
  split; [|split].
  - intros e. unfold accuracy. split.
    + intros ->. reflexivity.
    + intros Hn. destruct (Nat.eqb_spec (cursor e + errors e) 0) as [|_]; [done|].
      cbv zeta.
      set (x := Qmax 0 (b64 (b64 (of_nat (cursor e) /
                                    of_nat (cursor e + errors e)) * 100))).
      destruct (toFixed1_one_decimal x (Q.le_max_l _ _)) as (n & E & L & U).
      exists n. repeat split; try done.
      intros m Lm Um. by apply (one_decimal_unique x).
  - intros e C E. unfold accuracy. rewrite C, E. split; reflexivity.
  - intros t0 c1 c2 c3 st. repeat split.
Qed.

Lemma accuracy_value_witness :
  let e := engine (handleKey (js "x") (at_ms 200)
                     (loadText (js "ab") 100 (newEngine []))) in
  accuracy resetSession = 100%Q ∧
  cursor e + errors e ≠ 0 ∧
  ∃ n : Z, accuracy e = Qred (n # 10).
Proof.
  intros e. split; [|split].
  - apply (proj1 accuracy_value resetSession). reflexivity.
  - discriminate.
  - destruct (proj2 (proj1 accuracy_value e)) as (n & A & _);
      [discriminate|].
    by exists n.
Defined.

(** ** Words per minute *)

Lemma wpm_no_correct_key (e : TypingEngine) :
  timestamps e = [] → wpm e = Fin 0.
Proof. unfold wpm. by intros ->. Qed.

Lemma Math_round_or_zero (q : Q) :
  Math_round (or_zero (Fin q)) = Fin (inject_Z (Math_round_Q q)).
Proof.
  simpl. destruct (Qeq_bool q 0) eqn:E; [|done].
  apply Qeq_bool_iff in E. simpl. unfold Math_round_Q.
  by rewrite E.
Qed.

(** With time elapsed between the load and the last correct keystroke, the
    result is the rounded quotient, the two divisions by constants and the
    quotient being the machine's. *)
Lemma wpm_elapsed (e : TypingEngine) (t : Q) :
  last (timestamps e) = Some t →
  ¬ (t - num_of (sessionStart e) == 0)%Q →
  wpm e = Fin (inject_Z (Math_round_Q
            (b64 (b64 (of_nat (cursor e) / 5) /
                  b64 ((t - num_of (sessionStart e)) / 60000))))).
Proof.
  intros L N. unfold wpm. rewrite L. cbv zeta.
  unfold js_quotient, js_div.
  destruct (Qeq_bool (b64 ((t - num_of (sessionStart e)) / 60000)) 0) eqn:E.
  - apply Qeq_bool_iff in E. apply (proj1 (b64_zero_iff _)) in E. destruct N.
    unfold Qdiv in E. change (/ 60000)%Q with (1 # 60000)%Q in E. lra.
  - apply Math_round_or_zero.
Qed.

(** With no time elapsed the quotient is [Infinity]; [x || 0] keeps it. *)
Lemma wpm_no_elapsed (e : TypingEngine) (t : Q) :
  last (timestamps e) = Some t →
  (t - num_of (sessionStart e) == 0)%Q →
  0 < cursor e →
  wpm e = PosInfinity.
Proof.
  intros L Z C. unfold wpm. rewrite L. cbv zeta.
  unfold js_quotient, js_div.
  assert (b64 ((t - num_of (sessionStart e)) / 60000) = 0%Q) as ->.
  { apply b64_0. rewrite Z. reflexivity. }
  change (Qeq_bool 0 0) with true. cbv iota.
  assert (0 < b64 (of_nat (cursor e) / 5))%Q as P.
  { apply b64_pos_lt. apply Qlt_shift_div_l; [reflexivity|]. rewrite Qmult_0_l.
    unfold of_nat. rewrite <- (Zlt_Qlt 0). lia. }
  destruct (Qeq_bool (b64 (of_nat (cursor e) / 5)) 0) eqn:E.
  { apply Qeq_bool_iff in E. rewrite E in P. by apply Qlt_irrefl in P. }
  apply Qlt_le_weak, Qle_bool_iff in P. by rewrite P.
Qed.

(** C7 (the code departs from the claim): load ["a"] and type [a] while the
    monotonic clock still shows the reading taken at the load.  The elapsed
    time is 0, the quotient (1/5) / 0 is [Infinity], [Infinity || 0] is
    [Infinity], and the WPM reported and that of the record saved into the
    History Store are [Infinity], not 0. *)
Theorem wpm_infinite_when_no_time_elapsed :
  let w := handleKey (js "a") (at_ms 100) (loadText (js "a") 100 (newEngine [])) in
  timestamps (engine w) = [100%Q] ∧ sessionStart (engine w) = Some 100%Q ∧
  cursor (engine w) = 1 ∧
  wpm (engine w) = PosInfinity ∧
  (rec_wpm <$> head (storage w)) = Some PosInfinity ∧
  wpm (engine (loadText (js "a") 100 (newEngine []))) = Fin 0.
Proof. vm_compute. repeat split; reflexivity. Qed.

(** The JSON text of the History Store has no [Infinity]: of that
    record, [LocalHistoryStorage] reads back [wpm: null]. *)
Lemma wpm_infinite_read_back_null :
  let w := handleKey (js "a") (at_ms 100) (loadText (js "a") 100 (newEngine [])) in
  (rec_wpm <$> head (completed (calls w))) = Some PosInfinity ∧
  (rec_wpm <$> head (storage_list None (storage w))) = Some None.
Proof. vm_compute. split; reflexivity. Qed.

(** Three correct keys in 192 ms: the quotient of the machine is
    187.49999999999997 and the WPM 187, where the exact quotient is 187.5. *)
Lemma wpm_in_doubles :
  let w := typeAll [(js "a", at_ms 1064); (js "b", at_ms 1128);
                    (js "c", at_ms 1192)]
                   (loadText (js "abcd") 1000 (newEngine [])) in
  wpm (engine w) = Fin 187 ∧
  Q_of_float ((3 / 5) / (192 / 60000))%float =
    Some (b64 (b64 (3 / 5) / b64 (192 / 60000))) ∧
  (b64 (b64 (3 / 5) / b64 (192 / 60000)) < 187.5)%Q.
Proof. vm_compute. repeat split; reflexivity. Qed.

(** ** The aggregate map *)

Section Aggregate.
Implicit Types (m : jsMap) (k c : jsstring) (v : Q) (l : list (jsstring * Q)).

Lemma Map_get_set k v m c :
  Map_get c (Map_set k v m) = if decide (c = k) then Some v else Map_get c m.
Proof.
  induction m as [|[k' v'] m IH]; simpl.
  - destruct (decide (c = k)); done.
  - destruct (decide (k = k')) as [->|Hne]; simpl.
    + destruct (decide (c = k')); done.
    + rewrite IH. destruct (decide (c = k')) as [->|]; [|done].
      destruct (decide (k' = k)); congruence.
Qed.

Lemma Map_set_keys k v m :
  map fst (Map_set k v m) =
    if decide (k ∈ map fst m) then map fst m else map fst m ++ [k].
Proof.
  induction m as [|[k' v'] m IH]; simpl.
  - destruct (decide (k ∈ [])) as [H|]; [by apply elem_of_nil in H|done].
  - destruct (decide (k = k')) as [->|Hne]; simpl.
    + destruct (decide (k' ∈ k' :: map fst m)) as [|N]; [done|].
      destruct N. apply elem_of_cons. by left.
    + rewrite IH.
      destruct (decide (k ∈ map fst m)) as [I|N];
        destruct (decide (k ∈ k' :: map fst m)) as [I'|N']; try done.
      * destruct N'. apply elem_of_cons. by right.
      * apply elem_of_cons in I' as [?|?]; done.
Qed.

Lemma Map_set_elem k v m c :
  c ∈ map fst (Map_set k v m) ↔ c = k ∨ c ∈ map fst m.
Proof.
  rewrite Map_set_keys. destruct (decide (k ∈ map fst m)) as [I|N].
  - split; [tauto|]. by intros [->|?].
  - rewrite elem_of_app, list_elem_of_singleton. tauto.
Qed.

Lemma Map_set_NoDup k v m :
  NoDup (map fst m) → NoDup (map fst (Map_set k v m)).
Proof.
  intros N. rewrite Map_set_keys. destruct (decide (k ∈ map fst m)); [done|].
  apply NoDup_app. repeat split; [done| |apply NoDup_singleton].
  intros x Hx ->%list_elem_of_singleton. done.
Qed.

Lemma Map_get_elem m k v :
  NoDup (map fst m) → (k, v) ∈ m → Map_get k m = Some v.
Proof.
  induction m as [|[k' v'] m IH]; simpl.
  - intros _ H. by apply elem_of_nil in H.
  - intros [N1 N2]%NoDup_cons [E|I]%elem_of_cons.
    + injection E as -> ->. by destruct (decide (k' = k')).
    + destruct (decide (k = k')) as [->|]; [|by apply IH].
      destruct N1. change (k' ∈ fst <$> m). apply list_elem_of_fmap.
      by exists (k', v).
Qed.

Lemma accumulateAll_keys l m c :
  c ∈ map fst (accumulateAll m l) ↔ c ∈ map fst m ∨ c ∈ map fst l.
Proof.
  revert m. induction l as [|[k v] l IH]; intros m; simpl.
  - rewrite elem_of_nil. tauto.
  - unfold accumulateAll in *. simpl. rewrite IH. unfold accumulate.
    rewrite Map_set_elem, elem_of_cons. tauto.
Qed.

Lemma accumulateAll_NoDup l m :
  NoDup (map fst m) → NoDup (map fst (accumulateAll m l)).
Proof.
  revert m. induction l as [|[k v] l IH]; intros m N; [done|].
  apply IH. by apply Map_set_NoDup.
Qed.

Lemma accumulateAll_value l m c :
  default 0%Q (Map_get c (accumulateAll m l)) =
    added c (default 0%Q (Map_get c m)) l.
Proof.
  revert m. induction l as [|[k v] l IH]; intros m; [done|].
  unfold accumulateAll in *. cbn [foldl added fst snd]. rewrite IH.
  unfold accumulate. rewrite Map_get_set.
  destruct (decide (c = k)) as [->|N].
  - by destruct (decide (k = k)).
  - by destruct (decide (k = c)); [congruence|].
Qed.
End Aggregate.

(** ** The additions the two loops make *)

Lemma addEntries_accumulateAll (weigh : Q → Q) (o : option entries) (m : jsMap) :
  addEntries weigh o m =
    accumulateAll m (map (λ e, (e.1, weigh (of_nat e.2))) (default [] o)).
Proof.
  unfold addEntries, accumulateAll. generalize (default [] o). intros es.
  revert m. induction es as [|e es IH]; intros m; [done|]. simpl. apply IH.
Qed.

Lemma accumulateAll_app (m : jsMap) (l1 l2 : list (jsstring * Q)) :
  accumulateAll m (l1 ++ l2) = accumulateAll (accumulateAll m l1) l2.
Proof. unfold accumulateAll. apply foldl_app. Qed.

Lemma history_accumulateAll (h : list historySession) (m : jsMap) :
  foldl (λ m s, addEntries fromHistory (s_errorMap s) m) m h =
    accumulateAll m
      (flat_map (λ s, map (λ e, (e.1, fromHistory (of_nat e.2)))
                          (default [] (s_errorMap s))) h).
Proof.
  revert m. induction h as [|s h IH]; intros m; [done|].
  simpl. rewrite accumulateAll_app, IH. f_equal.
  apply addEntries_accumulateAll.
Qed.

Lemma aggregate_additions (h : list historySession) (cur : option entries) :
  addEntries fromCurrent cur
    (foldl (λ m s, addEntries fromHistory (s_errorMap s) m) [] h) =
    accumulateAll [] (additions h cur).
Proof.
  unfold additions. rewrite accumulateAll_app, <- history_accumulateAll.
  apply addEntries_accumulateAll.
Qed.

Lemma of_nat_add (a b : nat) : (of_nat (a + b) == of_nat a + of_nat b)%Q.
Proof. unfold of_nat. by rewrite Nat2Z.inj_add, inject_Z_plus. Qed.

Lemma added_app (c : jsstring) (acc : Q) (l1 l2 : list (jsstring * Q)) :
  added c acc (l1 ++ l2) = added c (added c acc l1) l2.
Proof.
  revert acc. induction l1 as [|[k v] l1 IH]; intros acc; cbn [added app]; [done|].
  by destruct (decide (k = c)).
Qed.

Lemma tally_cons (c k : jsstring) (n : nat) (es : entries) :
  tally c (Some ((k, n) :: es)) =
    (if decide (k = c) then n else 0) + tally c (Some es).
Proof.
  unfold tally. simpl. destruct (decide (k = c)) as [->|N].
  - by rewrite bool_decide_eq_true_2.
  - by rewrite bool_decide_eq_false_2.
Qed.

Lemma history_count_cons (c : jsstring) (s : historySession)
    (h : list historySession) :
  history_count c (s :: h) = tally c (s_errorMap s) + history_count c h.
Proof. done. Qed.

Lemma tally_None (c : jsstring) : tally c None = 0.
Proof. done. Qed.

Lemma tally_absent (c : jsstring) (es : entries) :
  c ∉ map fst es → tally c (Some es) = 0.
Proof.
  induction es as [|[k n] es IH]; [done|]. intros N.
  rewrite tally_cons. cbn [map fst] in N.
  apply not_elem_of_cons in N as [N1 N2].
  destruct (decide (k = c)); [congruence|]. by apply IH.
Qed.

(** Sums of counts below 2^53 are exact. *)
Lemma b64_of_nat (n : nat) : (Z.of_nat n < 2 ^ 53)%Z → b64 (of_nat n) = of_nat n.
Proof. intros B. apply b64_Z. lia. Qed.

Lemma b64_of_nat_add (a n : nat) :
  (Z.of_nat (a + n) < 2 ^ 53)%Z → b64 (of_nat a + of_nat n) = of_nat (a + n).
Proof.
  intros B. rewrite <- (b64_of_nat (a + n) B).
  apply b64_proper. by rewrite of_nat_add.
Qed.

Lemma added_history_entries (c : jsstring) (es : entries) (a : nat) :
  (Z.of_nat (a + tally c (Some es)) < 2 ^ 53)%Z →
  added c (of_nat a) (map (λ e, (e.1, fromHistory (of_nat e.2))) es)
    = of_nat (a + tally c (Some es)).
Proof.
  revert a. induction es as [|[k n] es IH]; intros a B.
  - cbn [map added]. change (tally c (Some [])) with 0. by rewrite Nat.add_0_r.
  - cbn [map added fst snd]. rewrite tally_cons in *.
    destruct (decide (k = c)) as [->|N].
    + unfold fromHistory. rewrite b64_of_nat_add by lia.
      rewrite IH by lia. f_equal. lia.
    + by apply IH.
Qed.

Lemma added_history (c : jsstring) (h : list historySession) (a : nat) :
  (Z.of_nat (a + history_count c h) < 2 ^ 53)%Z →
  added c (of_nat a)
    (flat_map (λ s, map (λ e, (e.1, fromHistory (of_nat e.2)))
                        (default [] (s_errorMap s))) h)
    = of_nat (a + history_count c h).
Proof.
  revert a. induction h as [|s h IH]; intros a B.
  - cbn [flat_map added]. unfold history_count. simpl. by rewrite Nat.add_0_r.
  - rewrite history_count_cons in *. cbn [flat_map]. rewrite added_app.
    assert (tally c (s_errorMap s) = tally c (Some (default [] (s_errorMap s))))
      as T by (by destruct (s_errorMap s)).
    rewrite added_history_entries by (rewrite <- T; lia).
    rewrite IH by (rewrite <- T; lia). rewrite <- T. f_equal. lia.
Qed.

Lemma added_current (c : jsstring) (es : entries) (x : Q) :
  NoDup (map fst es) →
  added c x (map (λ e, (e.1, fromCurrent (of_nat e.2))) es) =
    if decide (c ∈ map fst es)
    then b64 (x + fromCurrent (of_nat (tally c (Some es))))
    else x.
Proof.
  revert x. induction es as [|[k n] es IH]; intros x N.
  - cbn [map added]. destruct (decide (c ∈ [])) as [I|]; [|done].
    by apply elem_of_nil in I.
  - cbn [map fst snd added] in *. apply NoDup_cons in N as [N1 N2].
    rewrite tally_cons.
    destruct (decide (k = c)) as [->|Ne].
    + rewrite (IH _ N2).
      destruct (decide (c ∈ map fst es)) as [I|_]; [done|].
      rewrite (tally_absent c es N1), Nat.add_0_r.
      destruct (decide (c ∈ c :: map fst es)) as [|Bad]; [done|].
      destruct Bad. apply elem_of_cons. by left.
    + rewrite (IH x N2). clear IH.
      destruct (decide (c ∈ map fst es)) as [I|NI];
        destruct (decide (c ∈ k :: map fst es)) as [I'|NI']; try done.
      * destruct NI'. apply elem_of_cons. by right.
      * apply elem_of_cons in I' as [?|?]; [congruence|done].
Qed.

Lemma tally_le_total (c : jsstring) (o : option entries) :
  tally c o ≤ sum_list (map snd (default [] o)).
Proof.
  unfold tally. induction (default [] o) as [|[k n] es IH]; simpl; [done|].
  destruct (bool_decide (k = c)); simpl; lia.
Qed.

Lemma history_count_le_total (c : jsstring) (h : list historySession) :
  history_count c h ≤ history_total h.
Proof.
  unfold history_count, history_total.
  induction h as [|s h IH]; simpl; [done|].
  pose proof (tally_le_total c (s_errorMap s)). lia.
Qed.

(** The value the [Map] holds for a character after the two loops. *)
Lemma added_additions (h : list historySession) (cur : option entries)
    (c : jsstring) :
  NoDup (map fst (default [] cur)) →
  (Z.of_nat (history_total h) < 2 ^ 53)%Z →
  added c 0 (additions h cur) =
    b64 (of_nat (history_count c h) + b64 (of_nat (tally c cur) * b64 1.2)).
Proof.
  intros N B. pose proof (history_count_le_total c h) as Le.
  unfold additions. rewrite added_app.
  change 0%Q with (of_nat 0) at 1. rewrite added_history by (simpl; lia).
  cbn [Nat.add]. rewrite (added_current c _ _ N).
  assert (tally c cur = tally c (Some (default [] cur))) as T
    by (by destruct cur).
  destruct (decide (c ∈ map fst (default [] cur))) as [I|NI].
  - by rewrite <- T.
  - rewrite T, (tally_absent c _ NI).
    assert (b64 (of_nat 0 * b64 1.2) = 0%Q) as -> by (by apply b64_0).
    rewrite (b64_proper (of_nat (history_count c h) + 0)
               (of_nat (history_count c h))) by ring.
    symmetry. apply b64_of_nat. lia.
Qed.

Lemma additions_keys (h : list historySession) (cur : option entries)
    (c : jsstring) :
  c ∈ map fst (additions h cur) ↔ recorded h cur c.
Proof.
  unfold additions, recorded.
  rewrite map_app, elem_of_app, !map_map. simpl.
  change (map (λ x : jsstring * nat, x.1)) with (map (@fst jsstring nat)).
  rewrite (or_comm (c ∈ map fst (default [] cur))).
  apply or_iff_compat_r.
  induction h as [|s h IH]; simpl.
  - split; [by intros ?%elem_of_nil|]. intros (s & ?%elem_of_nil & _). done.
  - rewrite map_app, elem_of_app, map_map. simpl.
    change (map (λ x : jsstring * nat, x.1)) with (map (@fst jsstring nat)).
    rewrite IH. split.
    + intros [I|(s' & I1 & I2)].
      * exists s. split; [apply elem_of_cons; by left|done].
      * exists s'. split; [apply elem_of_cons; by right|done].
    + intros (s' & [->|I1]%elem_of_cons & I2); [by left|].
      right. by exists s'.
Qed.

(** ** Sorting *)

Lemma sort_insert_perm {A} (cmp : A → A → Q) (x : A) (l : list A) :
  sort_insert cmp x l ≡ₚ x :: l.
Proof.
  induction l as [|y l IH]; simpl; [done|].
  destruct (Qlt_bool 0 (cmp x y)); [|done].
  rewrite IH. apply perm_swap.
Qed.

Lemma js_sort_perm {A} (cmp : A → A → Q) (l : list A) : js_sort cmp l ≡ₚ l.
Proof.
  induction l as [|x l IH]; [done|].
  unfold js_sort in *. simpl. rewrite sort_insert_perm. by f_equiv.
Qed.

Lemma sort_insert_sorted_by {A} (cmp : A → A → Q) (R : relation A) :
  (∀ x y, Qlt_bool 0 (cmp x y) = true → R y x) →
  (∀ x y, Qlt_bool 0 (cmp x y) = false → R x y) →
  Transitive R →
  ∀ x l, StronglySorted R l → StronglySorted R (sort_insert cmp x l).
Proof.
  intros Gt Le Tr x l. induction l as [|y l IH]; simpl; intros S.
  - repeat constructor.
  - apply StronglySorted_inv in S as [S F].
    destruct (Qlt_bool 0 (cmp x y)) eqn:E.
    + constructor; [by apply IH|].
      rewrite sort_insert_perm. constructor; [by apply Gt|done].
    + constructor; [by constructor|].
      constructor; [by apply Le|].
      eapply Forall_impl; [exact F|]. intros z Hz.
      exact (Tr x y z (Le x y E) Hz).
Qed.

Lemma js_sort_sorted_by {A} (cmp : A → A → Q) (R : relation A) :
  (∀ x y, Qlt_bool 0 (cmp x y) = true → R y x) →
  (∀ x y, Qlt_bool 0 (cmp x y) = false → R x y) →
  Transitive R →
  ∀ l, StronglySorted R (js_sort cmp l).
Proof.
  intros Gt Le Tr l. induction l as [|x l IH]; [constructor|].
  unfold js_sort in *. simpl. by apply sort_insert_sorted_by.
Qed.

(** The difference of two scores is rounded, which keeps its sign. *)
Lemma byScore_above (a b : jsstring * Q) :
  Qlt_bool 0 (byScore a b) = true → (a.2 < b.2)%Q.
Proof.
  intros E%Qlt_bool_lt. unfold byScore in E.
  destruct (Qlt_le_dec 0 (b.2 - a.2)) as [P|N]; [lra|].
  apply b64_mono in N. change (b64 0) with 0%Q in N. lra.
Qed.

Lemma byScore_below (a b : jsstring * Q) :
  Qlt_bool 0 (byScore a b) = false → (b.2 <= a.2)%Q.
Proof.
  intros E. unfold Qlt_bool in E. apply negb_false_iff, Qle_bool_iff in E.
  unfold byScore in E.
  destruct (Qlt_le_dec 0 (b.2 - a.2)) as [P|N]; [|lra].
  apply b64_pos_lt in P. lra.
Qed.

(** ** The ranking *)

Lemma generateSuggestions_ranked h cur mx :
  generateSuggestions h cur mx = take (default 8 mx) (ranked h cur).
Proof.
  unfold generateSuggestions, ranked. cbv zeta.
  rewrite aggregate_additions. symmetry. apply firstn_map.
Qed.

Lemma ranked_chars h cur :
  map char (ranked h cur) ≡ₚ map fst (accumulateAll [] (additions h cur)).
Proof.
  unfold ranked. rewrite map_map. cbn [char toSuggestion].
  rewrite (Permutation_map _ (js_sort_perm byScore _)).
  by rewrite map_map.
Qed.

Lemma ranked_sorted h cur :
  StronglySorted (λ a b, score b <= score a)%Q (ranked h cur).
Proof.
  unfold ranked.
  assert (StronglySorted (λ a b : jsstring * Q, b.2 <= a.2)%Q
            (js_sort byScore
               (map scoreEntry (accumulateAll [] (additions h cur))))) as S.
  { apply js_sort_sorted_by.
    - intros x y E%byScore_above. lra.
    - intros x y E%byScore_below. done.
    - intros x y z ??. simpl in *. lra. }
  induction S as [|x l S IH F]; simpl; constructor; [done|].
  clear S IH. induction F as [|y l Hy F IH]; simpl; by constructor.
Qed.

Lemma ranked_NoDup h cur : NoDup (map char (ranked h cur)).
Proof. rewrite ranked_chars. apply accumulateAll_NoDup, NoDup_nil_2. Qed.

Lemma ranked_recorded h cur c :
  c ∈ map char (ranked h cur) ↔ recorded h cur c.
Proof.
  rewrite ranked_chars, accumulateAll_keys, additions_keys.
  cbn [map]. rewrite elem_of_nil. tauto.
Qed.

(** The score of an entry is the value the [Map] holds for its character,
    times the whitespace factor. *)
Lemma ranked_raw h cur :
  Forall (λ x, score x = b64 (raw_count h cur (char x) * rarityBoost (char x)))
         (ranked h cur).
Proof.
  apply Forall_forall. intros x Hx.
  unfold ranked in Hx.
  apply list_elem_of_In, in_map_iff in Hx as ([k v] & <- & Hx).
  apply list_elem_of_In in Hx. rewrite js_sort_perm in Hx.
  apply list_elem_of_In, in_map_iff in Hx as ([k' v'] & [= <- <-] & Hx).
  apply list_elem_of_In in Hx. cbn [char score toSuggestion fst snd].
  pose proof (accumulateAll_NoDup (additions h cur) [] (NoDup_nil_2)) as N.
  unfold raw_count. by rewrite (Map_get_elem _ _ _ N Hx).
Qed.

Lemma ranked_added h cur :
  Forall (λ x, score x =
               b64 (added (char x) 0 (additions h cur) *
                    (if isWhitespace (char x) then b64 0.4 else 1)))
         (ranked h cur).
Proof.
  eapply Forall_impl; [apply ranked_raw|].
  intros x ->. unfold rarityBoost, raw_count.
  by rewrite accumulateAll_value.
Qed.

Lemma ranked_scores h cur :
  NoDup (map fst (default [] cur)) →
  (Z.of_nat (history_total h) < 2 ^ 53)%Z →
  Forall (λ x, score x = weighted_score h cur (char x)) (ranked h cur).
Proof.
  intros N B. eapply Forall_impl; [apply ranked_added|].
  intros x ->. unfold weighted_score.
  by rewrite (added_additions h cur (char x) N B).
Qed.

Lemma is_space_white_space (u : code_unit) :
  is_space u = true ↔ u ∈ white_space.
Proof.
  unfold is_space, white_space. split.
  - intros H.
    repeat (apply orb_prop in H as [H|H]);
      repeat (apply andb_prop in H as [H ?]);
      repeat match goal with
             | H : (_ <=? _)%N = true |- _ => apply N.leb_le in H
             | H : (_ =? _)%N = true |- _ => apply N.eqb_eq in H
             end.
    + assert (u = 9 ∨ u = 10 ∨ u = 11 ∨ u = 12 ∨ u = 13)%N
        as [->|[->|[->|[->| ->]]]] by lia; set_solver.
    + subst. set_solver.
    + subst. set_solver.
    + subst. set_solver.
    + assert (u = 8192 ∨ u = 8193 ∨ u = 8194 ∨ u = 8195 ∨ u = 8196 ∨
              u = 8197 ∨ u = 8198 ∨ u = 8199 ∨ u = 8200 ∨ u = 8201 ∨
              u = 8202)%N
        as [->|[->|[->|[->|[->|[->|[->|[->|[->|[->| ->]]]]]]]]]] by lia;
        set_solver.
    + subst. set_solver.
    + subst. set_solver.
    + subst. set_solver.
    + subst. set_solver.
    + subst. set_solver.
    + subst. set_solver.
  - intros H. repeat (apply elem_of_cons in H as [->|H]; [reflexivity|]).
    by apply elem_of_nil in H.
Qed.

Lemma isWhitespace_spec (c : jsstring) :
  isWhitespace c = true ↔ ∃ u, u ∈ c ∧ u ∈ white_space.
Proof.
  unfold isWhitespace. rewrite existsb_exists. split.
  - intros (u & I & S). exists u. split; [by apply list_elem_of_In|].
    by apply is_space_white_space.
  - intros (u & I & S). exists u. split; [by apply list_elem_of_In|].
    by apply is_space_white_space.
Qed.

(** C8: the result is the first [max] entries of a list that holds one
    entry for every character with an error recorded in the history or in
    the current session, sorted by descending score.  The score of a
    character is its aggregate times 0.4 for a whitespace character and
    times 1 for any other, the aggregate being the sum, made in the order
    of the loops, of its history counts and of its current count times 1.2;
    constants, sums and products are the machine's.  When the current error
    map is an object (its keys are distinct) and the history counts add up
    to less than 2^53, this is (sum of its history counts + its current
    count × 1.2) × 0.4 or × 1.  A character is whitespace when one of its
    code units is one of those of [\s]: tab, line feed, vertical tab, form
    feed, carriage return, space, no-break space, the other Unicode spaces,
    the line and paragraph separators and the byte order mark.  With
    history [{t: 3}], current map {t: 2} and max 10 the result is the
    single entry for [t] whose score is the double written 5.4; with no
    error recorded anywhere the result is empty. *)
Theorem generateSuggestions_ranking (h : list historySession)
    (cur : option entries) (mx : option nat) :
  (∃ full : list suggestion,
     generateSuggestions h cur mx = take (default 8 mx) full ∧
     StronglySorted (λ a b, score b <= score a)%Q full ∧
     NoDup (map char full) ∧
     (∀ c, c ∈ map char full ↔ recorded h cur c) ∧
     Forall (λ x, score x =
                  b64 (added (char x) 0 (additions h cur) *
                       (if isWhitespace (char x) then b64 0.4 else 1))) full ∧
     (NoDup (map fst (default [] cur)) →
      (Z.of_nat (history_total h) < 2 ^ 53)%Z →
      Forall (λ x, score x = weighted_score h cur (char x)) full)) ∧
  ((∀ c, isWhitespace c = true ↔ ∃ u, u ∈ c ∧ u ∈ white_space) ∧
   isWhitespace (js " ") = true ∧ isWhitespace [9%N] = true ∧
   isWhitespace [10%N] = true ∧ isWhitespace (js "t") = false) ∧
  generateSuggestions [ {| s_errorMap := Some [(js "t", 3)] |} ]
    (Some [(js "t", 2)]) (Some 10) = [ {| char := js "t"; score := b64 5.4 |} ] ∧
  ((∀ c, ¬ recorded h cur c) → generateSuggestions h cur mx = []).
Proof.
  split; [|split; [|split]].
  - exists (ranked h cur). split; [apply generateSuggestions_ranked|].
    split; [apply ranked_sorted|]. split; [apply ranked_NoDup|].
    split; [apply ranked_recorded|]. split; [apply ranked_added|].
    apply ranked_scores.
  - split; [apply isWhitespace_spec|]. repeat split.
  - vm_compute. reflexivity.
  - intros E. rewrite generateSuggestions_ranked.
    destruct (ranked h cur) as [|x l] eqn:R; [by rewrite take_nil|].
    destruct (E (char x)). apply ranked_recorded. rewrite R.
    cbn [map]. apply elem_of_cons. by left.
Qed.

(** The example of the specification: ten errors on [e] and ten on the
    space in the history, two on [t] in the current session. *)
Lemma generateSuggestions_ranking_witness :
  let h := [ {| s_errorMap := Some [(js "e", 10); (js " ", 10)] |} ] in
  let cur := Some [(js "t", 2)] in
  ∃ full : list suggestion,
    generateSuggestions h cur (Some 2) = take 2 full ∧
    Forall (λ x, score x = weighted_score h cur (char x)) full ∧
    ∀ c, c ∈ map char full ↔ recorded h cur c.
Proof.
  intros h cur.
  destruct (generateSuggestions_ranking h cur (Some 2))
    as ((full & E & _ & _ & K & _ & F) & _).
  exists full. split; [exact E|]. split; [|exact K].
  apply F.
  - apply (bool_decide_unpack _). vm_compute. reflexivity.
  - vm_compute. reflexivity.
Defined.

(** On two inputs where the machine's products are not the exact ones:
    with current map {a: 2, space: 5} the scores are 2.4 for [a] and
    2.4000000000000004 for the space, which comes first; with current map
    {t: 3} the score is 3.5999999999999996, the machine's 3 × 1.2. *)
Lemma generateSuggestions_in_doubles :
  generateSuggestions [] (Some [(js "a", 2); (js " ", 5)]) None =
    [ {| char := js " "; score := b64 (b64 (5 * b64 1.2) * b64 0.4) |};
      {| char := js "a"; score := b64 (2 * b64 1.2) |} ] ∧
  (b64 (2 * b64 1.2) < b64 (b64 (5 * b64 1.2) * b64 0.4))%Q ∧
  generateSuggestions [] (Some [(js "t", 3)]) None =
    [ {| char := js "t"; score := b64 (3 * b64 1.2) |} ] ∧
  Some (b64 (3 * b64 1.2)) = Q_of_float (3 * 0x1.3333333333333p+0)%float ∧
  (b64 (3 * b64 1.2) < 3.6)%Q.
Proof. vm_compute. repeat split; reflexivity. Qed.

(** ** The call on a heap: what it reads and what it writes *)

Section Call.
Implicit Types (h ex : heap) (l : loc) (o : object) (v : value) (m : jsMap).

Lemma obj_at_app h ex l :
  Forall not_plain ex → obj_at (h ++ ex) l = obj_at h l.
Proof.
  intros F. unfold obj_at.
  destruct (decide (l < length h)) as [Lt|Ge].
  - by rewrite lookup_app_l.
  - rewrite lookup_app_r by lia. rewrite (lookup_ge_None_2 h l) by lia.
    destruct (ex !! (l - length h)) as [o|] eqn:E; [|done].
    rewrite Forall_forall in F.
    specialize (F o (list_elem_of_lookup_2 _ _ _ E)). by destruct o.
Qed.

Lemma entries_at_app h ex v :
  Forall not_plain ex → entries_at (h ++ ex) v = entries_at h v.
Proof.
  intros F. destruct v as [| | |l]; try done.
  unfold entries_at. by rewrite obj_at_app.
Qed.

Lemma session_at_app h ex v :
  Forall not_plain ex → session_at (h ++ ex) v = session_at h v.
Proof.
  intros F. destruct v as [| | |l]; try done.
  unfold session_at. rewrite obj_at_app by done.
  destruct (obj_at h l) as [props|]; [|done]. simpl.
  by rewrite entries_at_app.
Qed.

Lemma sessions_at_app h ex v ss :
  Forall not_plain ex →
  sessions_at h v = Some ss → sessions_at (h ++ ex) v = Some ss.
Proof.
  intros F. destruct v as [| | |l]; try done.
  unfold sessions_at. destruct (h !! l) as [o|] eqn:E; [|done].
  rewrite (lookup_app_l_Some _ _ _ _ E).
  destruct o as [|elems| |]; try done.
  intros <-. clear E. induction elems as [|s elems IH]; [done|].
  simpl. rewrite session_at_app by done.
  destruct (session_at h s); [|done]. simpl. by rewrite IH.
Qed.

Lemma entriesOf_spec h ex v :
  Forall not_plain ex →
  entriesOf v (h ++ ex) = (λ es, (es, h ++ ex)) <$> entries_at h v.
Proof.
  intros F. destruct v as [| | |l]; try done.
  unfold entriesOf, entries_at, mbind, M_bind, object_at, lift.
  rewrite obj_at_app by done.
  destruct (obj_at h l) as [props|]; [|done]. simpl.
  by destruct (counts props).
Qed.

Lemma bind_eval {A B} (x : M A) (f : A → M B) h :
  (x ≫= f) h = match x h with Some (a, h') => f a h' | None => None end.
Proof. done. Qed.

Lemma ret_eval {A} (a : A) h : (mret a : M A) h = Some (a, h).
Proof. done. Qed.

Lemma forEach_cons {A} (x : A) (l : list A) (f : A → M unit) :
  forEach (x :: l) f = f x ≫= λ _, forEach l f.
Proof. done. Qed.

Lemma addTo_spec h m ex weigh (es : option entries) :
  addTo (length h) weigh es (h ++ MapObj m :: ex) =
    Some (tt, h ++ MapObj (addEntries weigh es m) :: ex).
Proof.
  unfold addTo, addEntries. generalize (default [] es). clear es. intros es.
  revert m. induction es as [|e es IH]; intros m; [done|].
  rewrite forEach_cons, !bind_eval. unfold deref.
  rewrite list_lookup_middle by done. cbn [fmap option_fmap option_map].
  unfold assign.
  destruct (decide (length h < length (h ++ MapObj m :: ex))) as [_|Bad].
  2:{ destruct Bad. rewrite length_app. simpl. lia. }
  rewrite <- (Nat.add_0_r (length h)) at 1. rewrite insert_app_r.
  cbn [insert list_insert foldl]. apply IH.
Qed.

(** The loop over the history: it reads the sessions of the caller's
    heap, and writes to the [Map] only. *)
Lemma history_loop h m ex (elems : list value) :
  Forall not_plain ex →
  forEach elems (λ s, v ← errorMapOf s; es ← entriesOf v;
                      addTo (length h) fromHistory es)
          (h ++ MapObj m :: ex) =
    (λ ss, (tt, h ++ MapObj (foldl (λ m s, addEntries fromHistory
                                             (s_errorMap s) m) m ss) :: ex))
      <$> mapM (session_at h) elems.
Proof.
  intros F. revert m. induction elems as [|s elems IH]; intros m; [done|].
  assert (Forall not_plain (MapObj m :: ex)) as F' by (by constructor).
  rewrite forEach_cons, !bind_eval. cbn [mapM].
  destruct s as [| |n|l]; try done.
  - (* a number *)
    cbn [errorMapOf]. rewrite ret_eval. cbv beta iota.
    rewrite bind_eval. cbn [entriesOf]. rewrite ret_eval. cbv beta iota.
    rewrite addTo_spec. cbn [session_at].
    unfold addEntries at 1. cbn [default foldl].
    rewrite IH. by destruct (mapM _ elems).
  - (* a reference *)
    cbn [errorMapOf session_at]. rewrite bind_eval. unfold object_at.
    rewrite obj_at_app by done.
    destruct (obj_at h l) as [props|]; [|done].
    cbn [fmap option_fmap option_map mbind option_bind].
    rewrite ret_eval. cbv beta iota. rewrite bind_eval.
    rewrite entriesOf_spec by done.
    destruct (entries_at h (getProp (js "errorMap") props)) as [es|]; [|done].
    cbn [fmap option_fmap option_map mbind option_bind].
    rewrite addTo_spec, IH. by destruct (mapM _ elems).
Qed.

(** The call in one equation: it fails exactly when the arguments are not
    read in the caller's heap, and otherwise returns what the function
    makes of their contents and leaves the caller's heap with three new
    objects after it: the [Map], [consider] and the scored array. *)
Lemma call_spec h (hist cur : value) (mx : option nat) :
  generateSuggestions_call hist cur mx h =
    match sessions_at h hist, entries_at h cur with
    | Some ss, Some c =>
        Some (generateSuggestions ss c mx,
              h ++ [MapObj (addEntries fromCurrent c
                              (foldl (λ m s, addEntries fromHistory
                                               (s_errorMap s) m) [] ss));
                    Arr (default [] (elems_at h hist));
                    Pairs (js_sort byScore
                             (map scoreEntry
                                (addEntries fromCurrent c
                                   (foldl (λ m s, addEntries fromHistory
                                                    (s_errorMap s) m) [] ss))))])
    | _, _ => None
    end.
Proof.
  unfold generateSuggestions_call.
  unfold mbind at 1, M_bind at 1, alloc.
  unfold mbind at 1, M_bind at 1.
  destruct hist as [| | |l]; try done.
  cbn [elementsOf sessions_at elems_at]. unfold mbind at 1, M_bind at 1, deref.
  destruct (decide (l < length h)) as [Lt|Ge].
  2:{ rewrite (lookup_ge_None_2 h l) by lia.
      rewrite lookup_app_r by lia.
      destruct (l - length h) as [|k]; [done|]. by destruct k. }
  rewrite lookup_app_l by done.
  destruct (h !! l) as [o|] eqn:E; [|done].
  cbn [fmap option_fmap option_map].
  destruct o as [|elems| |]; try done.
  unfold mret at 1, M_ret at 1.
  unfold mbind at 1, M_bind at 1. rewrite length_app. cbn [length].
  unfold mbind at 1, M_bind at 1. cbn [elementsOf].
  unfold mbind at 1, M_bind at 1, deref.
  rewrite <- app_assoc. cbn [app].
  rewrite (lookup_app_r h) by lia.
  replace (length h + 1 - length h) with 1 by lia.
  cbn [lookup list_lookup fmap option_fmap option_map].
  unfold mret at 1, M_ret at 1.
  unfold mbind at 1, M_bind at 1.
  rewrite (history_loop h [] [Arr elems] elems) by (by repeat constructor).
  destruct (mapM (session_at h) elems) as [ss|]; [|done].
  cbn [fmap option_fmap option_map default].
  set (hist_map := foldl _ [] ss).
  unfold mbind at 1, M_bind at 1.
  rewrite (entriesOf_spec h [MapObj hist_map; Arr elems] cur)
    by (by repeat constructor).
  destruct (entries_at h cur) as [c|]; [|done].
  cbn [fmap option_fmap option_map].
  unfold mbind at 1, M_bind at 1. rewrite addTo_spec.
  set (agg := addEntries fromCurrent c hist_map).
  unfold mbind at 1, M_bind at 1, deref.
  rewrite list_lookup_middle by done.
  cbn [fmap option_fmap option_map].
  unfold mbind at 1, M_bind at 1, alloc.
  rewrite <- app_assoc. cbn [app].
  unfold mbind at 1, M_bind at 1, deref.
  rewrite (lookup_app_r h) by (rewrite length_app; simpl; lia).
  rewrite length_app. cbn [length].
  replace (length h + 2 - length h) with 2 by lia.
  cbn [lookup list_lookup fmap option_fmap option_map].
  unfold mbind at 1, M_bind at 1, assign.
  destruct (decide (length h + 2 < length (h ++ [MapObj agg; Arr elems;
                                                Pairs (map scoreEntry agg)])))
    as [_|Bad].
  2:{ destruct Bad. rewrite length_app. simpl. lia. }
  rewrite insert_app_r. cbn [insert list_insert].
  unfold mbind at 1, M_bind at 1, deref.
  rewrite (lookup_app_r h) by lia.
  replace (length h + 2 - length h) with 2 by lia.
  cbn [lookup list_lookup fmap option_fmap option_map].
  unfold mret, M_ret. unfold generateSuggestions. cbv zeta. done.
Qed.

Lemma call_frame h (hist cur : value) (mx : option nat) out h' :
  generateSuggestions_call hist cur mx h = Some (out, h') →
  ∃ ss c ex,
    sessions_at h hist = Some ss ∧ entries_at h cur = Some c ∧
    out = generateSuggestions ss c mx ∧ h' = h ++ ex ∧ Forall not_plain ex.
Proof.
  rewrite call_spec.
  destruct (sessions_at h hist) as [ss|]; [|done].
  destruct (entries_at h cur) as [c|]; [|done].
  intros [= <- <-]. eexists ss, c, _. repeat split. by repeat constructor.
Qed.

(** The call returns whenever its arguments are read in the heap. *)
Lemma generateSuggestions_call_returns h (hist cur : value) (mx : option nat)
    ss c :
  sessions_at h hist = Some ss → entries_at h cur = Some c →
  ∃ h', generateSuggestions_call hist cur mx h =
          Some (generateSuggestions ss c mx, h').
Proof. intros S C. rewrite call_spec, S, C. by eexists. Qed.
End Call.

(** C9: a call that returns leaves every object that existed before it as
    it was: no location of the caller's heap holds another object
    afterwards, so the history array, the session records in it (which
    [consider] shares with it) and the error maps are not written to, and
    they read after the call as they read before.  The list returned is a
    function of what the arguments hold: a second call on the heap the
    first call left returns the same list, and so does a call on any heap,
    through any references, where the arguments hold the same contents. *)
Theorem generateSuggestions_pure (h : heap) (historySessions currentErrorMap : value)
    (max : option nat) (out : list suggestion) (h' : heap) :
  generateSuggestions_call historySessions currentErrorMap max h = Some (out, h') →
  (∀ l o, h !! l = Some o → h' !! l = Some o) ∧
  (∃ ss c,
     sessions_at h historySessions = Some ss ∧
     entries_at h currentErrorMap = Some c ∧
     sessions_at h' historySessions = Some ss ∧
     entries_at h' currentErrorMap = Some c ∧
     out = generateSuggestions ss c max) ∧
  (∃ h'', generateSuggestions_call historySessions currentErrorMap max h' =
            Some (out, h'')) ∧
  (∀ h2 hist2 cur2,
     sessions_at h2 hist2 = sessions_at h historySessions →
     entries_at h2 cur2 = entries_at h currentErrorMap →
     ∃ h2', generateSuggestions_call hist2 cur2 max h2 = Some (out, h2')).
Proof.
  intros (ss & c & ex & S & C & -> & -> & F)%call_frame.
  pose proof (sessions_at_app h ex _ ss F S) as S'.
  pose proof (entries_at_app h ex currentErrorMap F) as C'. rewrite C in C'.
  split; [intros l o; apply lookup_app_l_Some|].
  split; [by exists ss, c|].
  split; [by apply generateSuggestions_call_returns|].
  intros h2 hist2 cur2 S2 C2. rewrite S in S2. rewrite C in C2.
  by apply generateSuggestions_call_returns.
Qed.

(** A heap in which the history lists one session twice and the current
    error map is that session's error map: object 0 is the map {t: 3},
    object 1 the session, object 2 the history array. *)
Lemma generateSuggestions_pure_witness :
  let h := [ Obj [(js "t", Number 3)];
             Obj [(js "id", Number 7); (js "errorMap", Ref 0)];
             Arr [Ref 1; Ref 1] ] in
  ∃ out h',
    generateSuggestions_call (Ref 2) (Ref 0) (Some 10) h = Some (out, h') ∧
    map char out = [js "t"] ∧
    (∀ l o, h !! l = Some o → h' !! l = Some o) ∧
    ∃ h'', generateSuggestions_call (Ref 2) (Ref 0) (Some 10) h' = Some (out, h'').
Proof.
  intros h.
  destruct (generateSuggestions_call (Ref 2) (Ref 0) (Some 10) h)
    as [[out h']|] eqn:E; [|vm_compute in E; discriminate].
  exists out, h'. split; [reflexivity|].
  destruct (generateSuggestions_pure _ _ _ _ _ _ E) as (F & _ & S & _).
  split; [|split; [exact F|exact S]].
  vm_compute in E. by injection E as <- _.
Defined.

(** ** Cross-checks in binary64 *)

(** The two concrete results that depend on inexact constants, evaluated
    with IEEE doubles instead of rationals: the score 3 + 2 × 1.2 is the
    double written 5.4, and (1/5) / 0 is [Infinity]. *)
Lemma score_in_doubles :
  PrimFloat.eqb (PrimFloat.add 3 (PrimFloat.mul 2 0x1.3333333333333p+0))
                0x1.599999999999ap+2 = true.
Proof. reflexivity. Qed.

Lemma quotient_in_doubles :
  PrimFloat.eqb (PrimFloat.div (PrimFloat.div 1 5) (PrimFloat.div 0 60000))
                PrimFloat.infinity = true.
Proof. reflexivity. Qed.

(** Twenty latency samples that add up to 23: the machine's mean is
    1.1499999999999999 and the reported average 1.1, where the exact mean
    is 1.15. *)
Lemma average_in_doubles :
  let e := {| testText := []; cursor := 0; errors := 0; errorMap := ∅;
              timestamps := []; sessionStart := None;
              latencies := replicate 17 1%Q ++ replicate 3 2%Q;
              latencyBuckets := ∅; confusions := ∅ |} in
  (avg <$> latencySummary e) = Some 1.1%Q ∧
  Q_of_float (23 / 20)%float = Some (b64 (23 / 20)) ∧
  (b64 (23 / 20) < 1.15)%Q.
Proof. vm_compute. repeat split; reflexivity. Qed.

(** ** Range of the accuracy *)

Lemma toFixed1_range (x : Q) :
  (0 <= x)%Q → (x <= 100)%Q → (0 <= toFixed1 x)%Q ∧ (toFixed1 x <= 100)%Q.
Proof.
  intros L U. unfold toFixed1.
  apply Qle_bool_iff in L as Lb. rewrite Lb, (Qabs_pos x L), Qred_correct.
  assert (Qfloor (0 + (1 # 2)) ≤ Qfloor (x * 10 + (1 # 2)))%Z as Lo.
  { apply Qfloor_resp_le. lra. }
  assert (Qfloor (x * 10 + (1 # 2)) ≤ Qfloor (1000 + (1 # 2)))%Z as Hi.
  { apply Qfloor_resp_le. lra. }
  change (Qfloor (0 + (1 # 2))) with 0%Z in Lo.
  change (Qfloor (1000 + (1 # 2))) with 1000%Z in Hi.
  set (n := Qfloor (x * 10 + (1 # 2))) in *.
  unfold Qle. simpl. lia.
Qed.

Lemma ratio_range (c t : nat) :
  c ≤ t → t ≠ 0 →
  (0 <= of_nat c / of_nat t * 100)%Q ∧ (of_nat c / of_nat t * 100 <= 100)%Q.
Proof.
  intros Le Nz. unfold of_nat.
  assert (0 < inject_Z (Z.of_nat t))%Q as Pt.
  { rewrite <- (Zlt_Qlt 0). lia. }
  assert (0 <= inject_Z (Z.of_nat c))%Q as Pc.
  { rewrite <- (Zle_Qle 0). lia. }
  assert (inject_Z (Z.of_nat c) <= inject_Z (Z.of_nat t))%Q as Pct.
  { rewrite <- Zle_Qle. lia. }
  set (a := inject_Z (Z.of_nat c)) in *. set (b := inject_Z (Z.of_nat t)) in *.
  assert (0 <= a / b)%Q as Q0.
  { apply Qle_shift_div_l; [done|]. lra. }
  assert (a / b <= 1)%Q as Q1.
  { apply Qle_shift_div_r; [done|]. lra. }
  split; lra.
Qed.

(** Rounding keeps the quotient within [0, 1] and the product within
    [0, 100], the bounds being doubles. *)
Lemma ratio_range_b64 (c t : nat) :
  c ≤ t → t ≠ 0 →
  (b64 (b64 (of_nat c / of_nat t) * 100) <= 100)%Q.
Proof.
  intros Le Nz.
  destruct (ratio_range c t Le Nz) as [R0 R1].
  assert (0 <= of_nat c / of_nat t)%Q as Q0 by lra.
  assert (of_nat c / of_nat t <= 1)%Q as Q1 by lra.
  assert (b64 1 = 1%Q) as B1 by (by apply (b64_Z 1)).
  assert (b64 100 = 100%Q) as B100 by (by apply (b64_Z 100)).
  apply b64_mono in Q0, Q1.
  change (b64 0) with 0%Q in Q0. rewrite B1 in Q1.
  apply Qle_trans with (b64 100); [apply b64_mono; lra|].
  rewrite B100. lra.
Qed.

Lemma accuracy_bounds (e : TypingEngine) :
  (0 <= accuracy e)%Q ∧ (accuracy e <= 100)%Q.
Proof.
  unfold accuracy.
  destruct (Nat.eqb_spec (cursor e + errors e) 0) as [|Nz]; [split; lra|].
  pose proof (ratio_range_b64 (cursor e) (cursor e + errors e)) as R1.
  apply toFixed1_range.
  - apply Q.le_max_l.
  - apply Q.max_lub; [lra|]. apply R1; [lia|done].
Qed.

(** X1: whatever the state, the reported accuracy lies between 0 and 100. *)
Theorem accuracy_range (e : TypingEngine) :
  (0 <= accuracy e)%Q ∧ (accuracy e <= 100)%Q.
Proof. apply accuracy_bounds. Qed.

(** ** Invariants of the engine over any sequence of calls *)

Lemma bucket_of_spec (x : Q) : ((50 | bucket_of x) ∧ bucket_of x ≤ 4000)%Z.
Proof.
  unfold bucket_of. split; [|lia].
  destruct (Z.min_spec 4000 (Math_round_Q (x / 50) * 50)) as [[_ ->]|[_ ->]].
  - by exists 80%Z.
  - by exists (Math_round_Q (x / 50)).
Qed.

Lemma engine_ok_reset : engine_ok resetSession.
Proof.
  unfold engine_ok. simpl. repeat split; try done.
  all: by rewrite lookup_empty in H.
Qed.

Lemma engine_ok_load (text : jsstring) (t : Q) (w : world) :
  engine_ok (engine w) → engine_ok (engine (loadText text t w)).
Proof.
  intros (_ & _ & _ & B & F & K). unfold engine_ok. simpl.
  repeat split; try done; try lia.
  all: by eapply K.
Qed.

Lemma engine_ok_typeKey (key : jsstring) (t : Q) (e : TypingEngine) :
  engine_ok e → engine_ok (typeKey key t e).
Proof.
  intros (C & T & M & B & F & K).
  pose proof (typeKey_cursor_bound key t e C) as C'.
  unfold engine_ok. rewrite typeKey_testText. split; [done|].
  unfold typeKey in *.
  destruct (is_expected key (expectedChar e)); simpl.
  - split; [rewrite length_app; simpl; lia|]. split; [done|].
    destruct (keeps_sample (interval_at e t)) eqn:S.
    + apply keeps_sample_spec in S.
      split; [rewrite total_count_bump, length_app; simpl; lia|].
      split; [apply Forall_app; split; [done|by constructor]|].
      intros k n. unfold bump.
      destruct (decide (bucket_of (interval_at e t) = k)) as [<-|N].
      * rewrite lookup_insert_eq. intros [= <-].
        split; [apply bucket_of_spec|lia].
      * rewrite lookup_insert_ne by done. apply K.
    + done.
  - split; [done|]. split; [rewrite total_count_bump; lia|done].
Qed.

Lemma act_engine_ok (a : action) (w : world) :
  engine_ok (engine w) → engine_ok (engine (act w a)).
Proof.
  intros I. destruct a as [text t|key c]; simpl.
  - by apply engine_ok_load.
  - destruct (testText (engine w)) eqn:Ht.
    + by rewrite handleKey_empty.
    + rewrite handleKey_engine by (by rewrite Ht). by apply engine_ok_typeKey.
Qed.

Lemma runActions_snoc (l : list action) (a : action) (w : world) :
  runActions (l ++ [a]) w = act (runActions l w) a.
Proof. unfold runActions. by rewrite foldl_app. Qed.

Lemma runActions_engine_ok (l : list action) (w : world) :
  engine_ok (engine w) → engine_ok (engine (runActions l w)).
Proof.
  intros I. induction l as [|a l IH] using rev_ind; [done|].
  rewrite runActions_snoc. by apply act_engine_ok.
Qed.

(** X2: after any sequence of [loadText] and [handleKey] calls on a new
    engine, the cursor is within the text, there is one timestamp per
    correct keystroke of the current text, and the counts of the error map
    add up to the error counter. *)
Theorem counters_invariant (st : list sessionRecord) (l : list action) :
  let e := engine (runActions l (newEngine st)) in
  cursor e ≤ length (testText e) ∧
  length (timestamps e) = cursor e ∧
  total_count (errorMap e) = errors e.
Proof.
  intros e.
  destruct (runActions_engine_ok l (newEngine st) engine_ok_reset)
    as (C & T & M & _).
  done.
Qed.

(** X3: after any sequence of calls on a new engine, every latency sample
    kept is non-zero and below 5000 ms, the histogram holds exactly one
    count per sample, and every histogram bucket is a multiple of 50 no
    greater than 4000. *)
Theorem latency_invariant (st : list sessionRecord) (l : list action) :
  let e := engine (runActions l (newEngine st)) in
  Forall (λ x, ¬ (x == 0)%Q ∧ (x < 5000)%Q) (latencies e) ∧
  total_count (latencyBuckets e) = length (latencies e) ∧
  ∀ k n, latencyBuckets e !! k = Some n → ((50 | k) ∧ k ≤ 4000)%Z ∧ 0 < n.
Proof.
  intros e.
  destruct (runActions_engine_ok l (newEngine st) engine_ok_reset)
    as (_ & _ & _ & B & F & K).
  done.
Qed.

(** ** Records and the History Store *)

Lemma wpm_cases (e : TypingEngine) :
  wpm e = PosInfinity ∨ ∃ z : Z, wpm e = Fin (inject_Z z).
Proof.
  unfold wpm. destruct (last (timestamps e)) as [t|].
  2:{ right. by exists 0%Z. }
  cbv zeta. unfold js_quotient, js_div.
  destruct (Qeq_bool (b64 (_ / 60000)) 0).
  - destruct (Qeq_bool (b64 (of_nat (cursor e) / 5)) 0) eqn:Z0.
    { right. by exists 0%Z. }
    assert (Qle_bool 0 (b64 (of_nat (cursor e) / 5)) = true) as ->; [|by left].
    apply Qle_bool_iff. change 0%Q with (b64 0) at 1. apply b64_mono.
    apply Qle_shift_div_l; [reflexivity|]. rewrite Qmult_0_l.
    unfold of_nat. rewrite <- (Zle_Qle 0). lia.
  - right. rewrite Math_round_or_zero. by eexists.
Qed.

Lemma wpm_not_NaN (e : TypingEngine) : wpm e ≠ NaN.
Proof.
  unfold wpm. destruct (last (timestamps e)); [|done]. cbv zeta.
  unfold js_quotient.
  destruct (js_div _ _) as [r| | |]; simpl; try done.
  by destruct (Qeq_bool (b64 r) 0).
Qed.

Lemma latencySummary_count (e : TypingEngine) :
  match latencySummary e with
  | None => latencies e = []
  | Some s => count s = length (latencies e) ∧ 0 < count s
  end.
Proof.
  unfold latencySummary. destruct (latencies e) as [|x l] eqn:E; [done|].
  cbn [count]. rewrite (js_sort_perm _ (x :: l)). simpl. lia.
Qed.

Lemma buildRecord_ok (e : TypingEngine) (c : clock) :
  testText e ≠ [] → engine_ok e → record_ok (buildRecord e c).
Proof.
  intros Ht (_ & _ & M & _). unfold record_ok, buildRecord. simpl.
  split; [destruct (testText e); [done|simpl; lia]|].
  split; [done|].
  split; [apply accuracy_bounds|]. split; [apply accuracy_bounds|].
  split; [apply wpm_cases|].
  pose proof (latencySummary_count e) as L.
  destruct (latencySummary e) as [s|]; [right|by left].
  exists s. by destruct L.
Qed.

Lemma completed_app (evs evs' : list event) :
  completed (evs ++ evs') = completed evs ++ completed evs'.
Proof. unfold completed. apply flat_map_app. Qed.

(** The store after the actions, relative to the store [st] before. *)
Lemma act_store (st : list sessionRecord) (a : action) (w : world) :
  engine_ok (engine w) →
  (∃ new, storage w = new ++ st ∧ rev (completed (calls w)) = new ∧
          Forall record_ok new) →
  ∃ new, storage (act w a) = new ++ st ∧
         rev (completed (calls (act w a))) = new ∧ Forall record_ok new.
Proof.
  intros I (new & S & C & F). destruct a as [text t|key c]; simpl.
  - exists new. rewrite completed_app. simpl. by rewrite app_nil_r.
  - destruct (testText (engine w)) eqn:Ht.
    { rewrite handleKey_empty by done. by exists new. }
    assert (testText (engine w) ≠ []) as Hne by (by rewrite Ht).
    rewrite handleKey_storage, handleKey_calls by done. cbv zeta.
    set (e' := typeKey key (now c) (engine w)).
    rewrite !completed_app. cbn [completed flat_map app].
    destruct (finished e').
    + exists (buildRecord e' c :: new). cbn [completed flat_map app].
      rewrite rev_app_distr. simpl. rewrite S, C. repeat split; try done.
      constructor; [|done]. apply buildRecord_ok.
      * subst e'. by rewrite typeKey_testText.
      * by apply engine_ok_typeKey.
    + exists new. cbn [completed flat_map app]. by rewrite app_nil_r.
Qed.

Lemma store_ok_runs (st : list sessionRecord) (l : list action) :
  ∃ new,
    storage (runActions l (newEngine st)) = new ++ st ∧
    rev (completed (calls (runActions l (newEngine st)))) = new ∧
    Forall record_ok new.
Proof.
  induction l as [|a l IH] using rev_ind.
  - by exists [].
  - rewrite runActions_snoc. apply act_store; [|done].
    apply runActions_engine_ok, engine_ok_reset.
Qed.

Lemma json_stored_as (r : sessionRecord) : stored_as r (json r).
Proof.
  unfold stored_as, json. simpl. repeat split; try done.
  - by intros ->.
  - by intros q ->.
Qed.

(** X4: the engine only ever adds to the front of the History Store.  After
    any sequence of calls on a new engine, the store reads back what it
    read back before with new entries in front, one for each record passed
    to [onComplete], latest first.  Each of these records has a positive
    length, an error count equal to the sum of its error map, an accuracy
    between 0 and 100, a WPM that is an integer or [Infinity] and a latency
    summary that is null or counts at least one sample; the store reads it
    back with [wpm] [null] in place of [Infinity] and otherwise as it
    was. *)
Theorem store_invariant (st : list sessionRecord) (l : list action) :
  let w := runActions l (newEngine st) in
  ∃ new : list sessionRecord, ∃ held : list storedRecord,
    rev (completed (calls w)) = new ∧
    _load (storage w) = held ++ _load st ∧
    Forall record_ok new ∧
    Forall2 stored_as new held.
Proof.
  intros w. destruct (store_ok_runs st l) as (new & S & C & F).
  exists new, (map json new). fold w in S, C.
  split; [done|]. split; [by rewrite S; unfold _load; rewrite map_app|].
  split; [done|].
  clear. induction new as [|r new IH]; constructor; [apply json_stored_as|done].
Qed.

(** ** Typing a text without a mistake *)

Lemma toFixed1_100 (x : Q) : (x == 100)%Q → toFixed1 x = 100%Q.
Proof.
  intros E. unfold toFixed1.
  assert (Qle_bool 0 x = true) as -> by (apply Qle_bool_iff; lra).
  assert (Qfloor (Qabs x * 10 + (1 # 2)) = 1000%Z) as ->; [|done].
  rewrite E. reflexivity.
Qed.

Lemma accuracy_no_error (e : TypingEngine) : errors e = 0 → accuracy e = 100%Q.
Proof.
  intros E. unfold accuracy. rewrite E, Nat.add_0_r.
  destruct (Nat.eqb_spec (cursor e) 0) as [|Nz]; [done|].
  apply toFixed1_100.
  assert (0 < of_nat (cursor e))%Q as P.
  { unfold of_nat. rewrite <- (Zlt_Qlt 0). lia. }
  assert (of_nat (cursor e) / of_nat (cursor e) == 1)%Q as E1.
  { field. lra. }
  assert (b64 1 = 1%Q) as B1 by (by apply (b64_Z 1)).
  assert (b64 (1 * 100) = 100%Q) as B100.
  { rewrite (b64_proper (1 * 100) (inject_Z 100)) by reflexivity.
    by apply (b64_Z 100). }
  rewrite (b64_proper _ _ E1), B1, B100. reflexivity.
Qed.

Lemma perfect_run (rest : list (code_unit * clock)) :
  ∀ (pre : jsstring) (w : world),
    testText (engine w) = pre ++ map fst rest →
    cursor (engine w) = length pre →
    rest ≠ [] →
    let w' := typeAll (perfectKeys rest) w in
    cursor (engine w') = length (testText (engine w)) ∧
    errors (engine w') = errors (engine w) ∧
    errorMap (engine w') = errorMap (engine w) ∧
    confusions (engine w') = confusions (engine w) ∧
    ∃ c, snd <$> last rest = Some c ∧
         storage w' = buildRecord (engine w') c :: storage w ∧
         completed (calls w') =
           completed (calls w) ++ [buildRecord (engine w') c].
Proof.
  induction rest as [|[ch c] rest IH]; intros pre w Ht Hc Hne; [done|].
  cbn [perfectKeys map typeAll foldl fst snd] in *.
  assert (testText (engine w) ≠ []) as Hn.
  { rewrite Ht. by destruct pre. }
  assert (is_expected [ch] (expectedChar (engine w)) = true) as E.
  { unfold expectedChar. rewrite Ht, Hc, list_lookup_middle by done.
    simpl. by apply bool_decide_eq_true. }
  destruct (typeKey_right [ch] (now c) (engine w) E)
    as (K1 & K2 & K3 & K4 & _).
  set (w1 := handleKey [ch] c w).
  assert (engine w1 = typeKey [ch] (now c) (engine w)) as E1.
  { subst w1. by rewrite handleKey_engine. }
  assert (testText (engine w1) = testText (engine w)) as T1.
  { subst w1. apply handleKey_testText. }
  destruct rest as [|k2 rest].
  - simpl. fold w1. rewrite E1, K1, K2, K3, K4, Ht, Hc, length_app. simpl.
    repeat split; try done; try lia.
    exists c. split; [done|].
    subst w1. rewrite handleKey_storage, handleKey_calls by done. cbv zeta.
    assert (finished (typeKey [ch] (now c) (engine w)) = true) as ->.
    { unfold finished. rewrite typeKey_testText, K1, Ht, Hc, length_app.
      simpl. apply Nat.leb_le. lia. }
    split; [done|].
    rewrite !completed_app. simpl. by rewrite ?app_nil_r.
  - specialize (IH (pre ++ [ch]) w1).
    destruct IH as (I1 & I2 & I3 & I4 & c' & L & S & C).
    + rewrite T1, Ht, <- app_assoc. done.
    + rewrite E1, K1, Hc, length_app. simpl. lia.
    + done.
    + change (foldl (λ w k, handleKey k.1 k.2 w) w1
                (map (λ k, ([k.1], k.2)) (k2 :: rest)))
        with (typeAll (perfectKeys (k2 :: rest)) w1).
      set (w' := typeAll (perfectKeys (k2 :: rest)) w1) in *.
      rewrite T1 in I1. rewrite E1 in I2, I3, I4.
      rewrite I1, I2, I3, I4, K2, K3, K4.
      repeat split; try done.
      exists c'. split; [done|].
      assert (finished (typeKey [ch] (now c) (engine w)) = false) as F.
      { unfold finished. rewrite typeKey_testText, K1, Ht, Hc, length_app.
        simpl. apply Nat.leb_gt. lia. }
      subst w1. rewrite handleKey_storage, handleKey_calls in * by done.
      cbv zeta in *. rewrite F in *.
      split; [done|]. rewrite C, !completed_app. simpl.
      by rewrite ?app_nil_r.
Qed.

(** X5: loading a non-empty text and typing exactly its characters, one
    key each, ends with the cursor at the text length, no error, an empty
    error map and accuracy 100; exactly one record is passed to
    [onComplete], once, and it reports the text length, 0 errors and
    accuracy 100; the store reads back one new entry, in front, which
    reports the same length, errors and accuracy, and has [wpm] [null] when
    the record's WPM is [Infinity]. *)
Theorem perfect_session (w0 : world) (t0 : Q) (ks : list (code_unit * clock)) :
  ks ≠ [] →
  let text := map fst ks in
  let w := typeAll (perfectKeys ks) (loadText text t0 w0) in
  cursor (engine w) = length text ∧
  errors (engine w) = 0 ∧
  errorMap (engine w) = ∅ ∧
  accuracy (engine w) = 100%Q ∧
  ∃ r : sessionRecord, ∃ s : storedRecord,
    completed (calls w) = completed (calls w0) ++ [r] ∧
    _load (storage w) = s :: _load (storage w0) ∧
    rec_length r = length text ∧ rec_errors r = 0 ∧
    rec_accuracy r = 100%Q ∧
    rec_length s = length text ∧ rec_errors s = 0 ∧
    rec_accuracy s = 100%Q ∧
    (rec_wpm r = PosInfinity → rec_wpm s = None) ∧
    (∀ q, rec_wpm r = Fin q → rec_wpm s = Some q).
Proof.
  intros Hne text w.
  destruct (perfect_run ks [] (loadText text t0 w0))
    as (C & E & M & _ & c & _ & S & Co); try done.
  fold w in C, E, M, S, Co.
  change (testText (engine (loadText text t0 w0))) with text in C.
  change (errors (engine (loadText text t0 w0))) with 0 in E.
  change (errorMap (engine (loadText text t0 w0)))
    with (@empty (gmap jsstring nat) _) in M.
  split; [done|]. split; [done|]. split; [done|].
  split; [by apply accuracy_no_error|].
  exists (buildRecord (engine w) c), (json (buildRecord (engine w) c)).
  assert (rec_length (buildRecord (engine w) c) = length text) as Len.
  { simpl. subst w. by rewrite typeAll_testText. }
  split.
  { rewrite Co. simpl. rewrite completed_app. simpl. by rewrite ?app_nil_r. }
  split; [by rewrite S|].
  destruct (json_stored_as (buildRecord (engine w) c))
    as (_ & _ & J1 & J2 & J3 & _ & _ & _ & J4 & J5).
  rewrite J1, J2, J3, Len. simpl. rewrite E.
  repeat split; try done; by apply accuracy_no_error.
Qed.

Lemma perfect_session_witness :
  let w := typeAll (perfectKeys [(104%N, at_ms 200); (105%N, at_ms 300)])
                   (loadText (js "hi") 100 (newEngine [])) in
  cursor (engine w) = 2 ∧ errors (engine w) = 0 ∧
  length (_load (storage w)) = 1.
Proof.
  destruct (perfect_session (newEngine []) 100
              [(104%N, at_ms 200); (105%N, at_ms 300)])
    as (C & E & _ & _ & r & s & _ & S & _); [discriminate|].
  split; [exact C|]. split; [exact E|]. exact (f_equal length S).
Defined.

(** ** Render notifications *)

Lemma updates_app (evs evs' : list event) :
  updates (evs ++ evs') = updates evs ++ updates evs'.
Proof. unfold updates. apply flat_map_app. Qed.

Lemma act_last_update (a : action) (w : world) :
  (last (updates (calls w)) = Some (render (engine w)) ∨
   updates (calls w) = [] ∧ testText (engine w) = []) →
  last (updates (calls (act w a))) = Some (render (engine (act w a))) ∨
  updates (calls (act w a)) = [] ∧ testText (engine (act w a)) = [].
Proof.
  intros I. destruct a as [text t|key c]; simpl.
  - left. rewrite updates_app. simpl. by rewrite last_snoc.
  - destruct (testText (engine w)) eqn:Ht.
    { rewrite handleKey_empty by done. by rewrite Ht. }
    assert (testText (engine w) ≠ []) as Hne by (by rewrite Ht).
    left. rewrite handleKey_calls, handleKey_engine by done. cbv zeta.
    rewrite !updates_app.
    destruct (finished _); simpl; by rewrite last_snoc.
Qed.

(** X6: the last state passed to [onUpdate] is always the state of the
    engine: after any sequence of calls on a new engine, either nothing has
    been rendered yet and no text is loaded, or the latest render
    notification describes the current text and cursor. *)
Theorem render_in_sync (st : list sessionRecord) (l : list action) :
  let w := runActions l (newEngine st) in
  last (updates (calls w)) = Some (render (engine w)) ∨
  updates (calls w) = [] ∧ testText (engine w) = [].
Proof.
  induction l as [|a l IH] using rev_ind; [by right|].
  simpl in *. rewrite runActions_snoc. by apply act_last_update.
Qed.

Lemma count_status_imap (cur : nat) (l : jsstring) :
  ∀ (f : nat → code_unit → code_unit * status) (k : nat),
    (∀ i ch, f i ch = (ch, char_status cur (k + i))) →
    length (List.filter (has_status correct) (imap f l)) =
      Nat.min (cur - k) (length l) ∧
    length (List.filter (has_status current) (imap f l)) =
      (if Nat.leb k cur && Nat.ltb cur (k + length l) then 1 else 0) ∧
    length (List.filter (has_status pending) (imap f l)) =
      k + length l - Nat.max k (S cur).
Proof.
  induction l as [|x l IH]; intros f k Hf.
  - simpl. rewrite Nat.add_0_r, Nat.min_0_r.
    destruct (Nat.leb_spec k cur), (Nat.ltb_spec cur k); simpl;
      repeat split; lia.
  - cbn [imap List.filter length].
    destruct (IH (f ∘ S) (S k)) as (I1 & I2 & I3).
    { intros i ch. simpl. rewrite Hf. by rewrite Nat.add_succ_r. }
    rewrite Hf, Nat.add_0_r.
    destruct (char_status cur k) eqn:Hs; cbn [has_status snd length];
      rewrite I1, I2, I3; unfold char_status in Hs;
      destruct (Nat.ltb_spec k cur), (Nat.eqb_spec k cur); try discriminate;
      destruct (Nat.leb_spec k cur), (Nat.leb_spec (S k) cur),
        (Nat.ltb_spec cur (k + S (length l))),
        (Nat.ltb_spec cur (S k + length l)); simpl; repeat split; lia.
Qed.

Lemma imap_chars (l : jsstring) :
  ∀ f : nat → code_unit → code_unit * status,
    (∀ i ch, (f i ch).1 = ch) → map fst (imap f l) = l.
Proof.
  induction l as [|x l IH]; intros f Hf; [done|].
  cbn [imap map]. rewrite Hf, IH; [done|]. intros i ch. apply Hf.
Qed.

(** X7: a render notification lists every character of the text once, in
    order; as many are marked correct as the cursor has passed, exactly one
    is marked current while the session is unfinished and none once the
    cursor is at the end, and the rest are pending. *)
Theorem render_statuses (e : TypingEngine) :
  cursor e ≤ length (testText e) →
  let t := render e in
  map fst (chars t) = testText e ∧
  total t = length (testText e) ∧ ts_cursor t = cursor e ∧
  count_status correct t = cursor e ∧
  count_status current t = (if finished e then 0 else 1) ∧
  count_status pending t = length (testText e) - cursor e - (if finished e then 0 else 1).
Proof.
  intros B t. subst t. unfold count_status, render. cbn [chars total ts_cursor].
  destruct (count_status_imap (cursor e) (testText e)
              (λ i ch, (ch, char_status (cursor e) i)) 0) as (C1 & C2 & C3);
    [done|].
  rewrite C1, C2, C3. unfold finished.
  split; [by apply imap_chars|].
  destruct (Nat.leb_spec (length (testText e)) (cursor e)),
    (Nat.ltb_spec (cursor e) (0 + length (testText e)));
    simpl; repeat split; lia.
Qed.

Lemma render_statuses_witness :
  let t := render (engine (handleKey (js "a") (at_ms 200)
                             (loadText (js "abc") 100 (newEngine [])))) in
  count_status correct t = 1 ∧ count_status current t = 1 ∧
  count_status pending t = 1.
Proof.
  destruct (render_statuses
              (engine (handleKey (js "a") (at_ms 200)
                         (loadText (js "abc") 100 (newEngine [])))))
    as (_ & _ & _ & C1 & C2 & C3); [simpl; lia|].
  split; [exact C1|]. split; [exact C2|exact C3].
Defined.

(** ** Sign of the WPM *)

Lemma handleKey_sessionStart (w : world) (key : jsstring) (c : clock) :
  sessionStart (engine (handleKey key c w)) = sessionStart (engine w).
Proof.
  destruct (testText (engine w)) eqn:Ht.
  - by rewrite handleKey_empty.
  - rewrite handleKey_engine, typeKey_sessionStart; [done|by rewrite Ht].
Qed.

Lemma typeAll_sessionStart (ks : list (jsstring * clock)) (w : world) :
  sessionStart (engine (typeAll ks w)) = sessionStart (engine w).
Proof.
  induction ks as [|k ks IH] using rev_ind; [done|].
  by rewrite typeAll_snoc, handleKey_sessionStart.
Qed.

Lemma typeAll_timestamps_ge (lo : Q) (ks : list (jsstring * clock)) (w : world) :
  Forall (λ k, lo <= now k.2)%Q ks →
  Forall (λ t, lo <= t)%Q (timestamps (engine w)) →
  Forall (λ t, lo <= t)%Q (timestamps (engine (typeAll ks w))).
Proof.
  induction ks as [|k ks IH] using rev_ind; intros Hk Hw; [done|].
  apply Forall_app in Hk as [Hks Hk]. apply Forall_inv in Hk.
  rewrite typeAll_snoc. specialize (IH Hks Hw).
  destruct (testText (engine (typeAll ks w))) eqn:Ht.
  { by rewrite handleKey_empty. }
  rewrite handleKey_engine by (by rewrite Ht).
  destruct (is_expected k.1 (expectedChar (engine (typeAll ks w)))) eqn:E.
  - destruct (typeKey_right _ (now k.2) _ E) as (_ & _ & _ & _ & -> & _).
    apply Forall_app. split; [done|]. by constructor.
  - by destruct (typeKey_wrong _ (now k.2) _ E) as (_ & _ & _ & _ & _ & ->).
Qed.

Lemma Math_round_Q_nonneg (q : Q) : (0 <= q)%Q → (0 ≤ Math_round_Q q)%Z.
Proof.
  intros P. unfold Math_round_Q.
  change 0%Z with (Qfloor (0 + (1 # 2))). apply Qfloor_resp_le. lra.
Qed.

(** X8: when no keystroke is stamped earlier than the load, the WPM is
    never NaN and never negative: it is a non-negative integer, or
    [Infinity] when the last correct keystroke carries the very reading
    taken at the load. *)
Theorem wpm_sign (w0 : world) (text : jsstring) (t0 : Q)
    (ks : list (jsstring * clock)) :
  Forall (λ k, t0 <= now k.2)%Q ks →
  let e := engine (typeAll ks (loadText text t0 w0)) in
  (∃ z : Z, (0 ≤ z)%Z ∧ wpm e = Fin (inject_Z z)) ∨
  (wpm e = PosInfinity ∧ ∃ t, last (timestamps e) = Some t ∧ (t == t0)%Q).
Proof.
  intros Hk e.
  assert (sessionStart e = Some t0) as S.
  { subst e. by rewrite typeAll_sessionStart. }
  assert (Forall (λ t, t0 <= t)%Q (timestamps e)) as T.
  { subst e. apply typeAll_timestamps_ge; [done|]. constructor. }
  destruct (typeAll_latencies ks (loadText text t0 w0)) as (_ & _ & _ & L & _).
  fold e in L. simpl in L.
  destruct (last (timestamps e)) as [t|] eqn:La.
  - assert (t0 <= t)%Q as Ge.
    { apply last_Some in La as (l' & La). rewrite La in T.
      apply Forall_app in T as [_ T]. by apply Forall_inv in T. }
    destruct (Qeq_dec (t - num_of (sessionStart e)) 0) as [Z|N].
    + right. split.
      * apply (wpm_no_elapsed e t La Z).
        apply last_Some in La as (l' & La). rewrite La, length_app in L.
        simpl in L. lia.
      * exists t. split; [done|]. rewrite S in Z. simpl in Z. lra.
    + left. rewrite (wpm_elapsed e t La N). eexists. split; [|reflexivity].
      apply Math_round_Q_nonneg. rewrite S in *. simpl in *.
      assert (0 < t - t0)%Q as P by lra.
      assert (0 <= of_nat (cursor e))%Q as C.
      { unfold of_nat. rewrite <- (Zle_Qle 0). lia. }
      assert (0 < b64 ((t - t0) / 60000))%Q as Pm.
      { apply b64_pos_lt, Qlt_shift_div_l; [reflexivity|]. lra. }
      assert (0 <= b64 (of_nat (cursor e) / 5))%Q as Pw.
      { change 0%Q with (b64 0) at 1. apply b64_mono.
        apply Qle_shift_div_l; [reflexivity|]. lra. }
      change 0%Q with (b64 0) at 1. apply b64_mono.
      apply Qle_shift_div_l; [done|]. lra.
  - left. exists 0%Z. split; [done|]. unfold wpm. by rewrite La.
Qed.

Lemma wpm_sign_witness :
  let e := engine (typeAll [(js "a", at_ms 200)]
                     (loadText (js "ab") 100 (newEngine []))) in
  (∃ z : Z, (0 ≤ z)%Z ∧ wpm e = Fin (inject_Z z)) ∨
  (wpm e = PosInfinity ∧ ∃ t, last (timestamps e) = Some t ∧ (t == 100)%Q).
Proof.
  apply (wpm_sign (newEngine []) (js "ab") 100 [(js "a", at_ms 200)]).
  constructor; [|constructor]. simpl. unfold Qle. simpl. lia.
Defined.

(** ** The latency summary *)

Lemma sort_ascending (l : list Q) :
  StronglySorted Qle (js_sort (λ a b, a - b)%Q l).
Proof.
  apply js_sort_sorted_by.
  - intros x y E%Qlt_bool_lt. lra.
  - intros x y E. unfold Qlt_bool in E.
    apply negb_false_iff, Qle_bool_iff in E. lra.
  - intros x y z. apply Qle_trans.
Qed.

Lemma sorted_nth_le (l : list Q) :
  StronglySorted Qle l →
  ∀ i j, i ≤ j → j < length l → (nth i l 0 <= nth j l 0)%Q.
Proof.
  induction 1 as [|x l S IH F]; intros i j Le Lt; [simpl in Lt; lia|].
  destruct i as [|i], j as [|j]; simpl in *; try lia.
  - apply Qle_refl.
  - rewrite Forall_forall in F. apply F, list_elem_of_In, nth_In. lia.
  - apply IH; lia.
Qed.

Lemma toFixed1_floor_nonneg (x : Q) : (0 ≤ Qfloor (Qabs x * 10 + (1 # 2)))%Z.
Proof.
  change 0%Z with (Qfloor (0 + (1 # 2))). apply Qfloor_resp_le.
  pose proof (Qabs_nonneg x). lra.
Qed.

Lemma toFixed1_mono (x y : Q) : (x <= y)%Q → (toFixed1 x <= toFixed1 y)%Q.
Proof.
  intros Le. unfold toFixed1. rewrite !Qred_correct.
  pose proof (toFixed1_floor_nonneg x) as Px.
  pose proof (toFixed1_floor_nonneg y) as Py.
  destruct (Qle_bool 0 x) eqn:Sx, (Qle_bool 0 y) eqn:Sy.
  - apply Qle_bool_iff in Sx, Sy.
    assert (Qfloor (Qabs x * 10 + (1 # 2)) ≤ Qfloor (Qabs y * 10 + (1 # 2)))%Z.
    { apply Qfloor_resp_le. rewrite (Qabs_pos x Sx), (Qabs_pos y Sy). lra. }
    set (a := Qfloor (Qabs x * 10 + (1 # 2))) in *.
    set (b := Qfloor (Qabs y * 10 + (1 # 2))) in *.
    unfold Qle. simpl. lia.
  - apply Qle_bool_iff in Sx.
    assert (¬ (0 <= y)%Q) as N by (intros L%Qle_bool_iff; congruence). lra.
  - set (a := Qfloor (Qabs x * 10 + (1 # 2))) in *.
    set (b := Qfloor (Qabs y * 10 + (1 # 2))) in *.
    unfold Qle. simpl. lia.
  - assert (¬ (0 <= x)%Q) as Nx by (intros L%Qle_bool_iff; congruence).
    assert (¬ (0 <= y)%Q) as Ny by (intros L%Qle_bool_iff; congruence).
    assert (Qfloor (Qabs y * 10 + (1 # 2)) ≤ Qfloor (Qabs x * 10 + (1 # 2)))%Z.
    { apply Qfloor_resp_le.
      rewrite (Qabs_neg x), (Qabs_neg y) by lra. lra. }
    set (a := Qfloor (Qabs x * 10 + (1 # 2))) in *.
    set (b := Qfloor (Qabs y * 10 + (1 # 2))) in *.
    unfold Qle. simpl. lia.
Qed.

(** The index [Math.min(n - 1, Math.floor(p * n))] of a percentile. *)
Lemma percentile_index_mono (n : nat) (p q : Q) :
  (p <= q)%Q →
  Nat.min (n - 1) (Z.to_nat (Qfloor (b64 (p * of_nat n)))) ≤
  Nat.min (n - 1) (Z.to_nat (Qfloor (b64 (q * of_nat n)))).
Proof.
  intros Le.
  assert (0 <= of_nat n)%Q as P.
  { unfold of_nat. rewrite <- (Zle_Qle 0). lia. }
  assert (Qfloor (b64 (p * of_nat n)) ≤ Qfloor (b64 (q * of_nat n)))%Z.
  { apply Qfloor_resp_le, b64_mono. by apply Qmult_le_compat_r. }
  lia.
Qed.

Lemma latencySummary_shape (e : TypingEngine) :
  match latencySummary e with
  | None => latencies e = []
  | Some s =>
      count s = length (latencies e) ∧ latencies e ≠ [] ∧
      (p50 s <= p90 s)%Q ∧ (p90 s <= p99 s)%Q ∧
      (∃ x, x ∈ latencies e ∧ p50 s = toFixed1 x) ∧
      (∃ x, x ∈ latencies e ∧ p90 s = toFixed1 x) ∧
      (∃ x, x ∈ latencies e ∧ p99 s = toFixed1 x)
  end.
Proof.
  unfold latencySummary. destruct (latencies e) as [|x0 l0] eqn:E; [done|].
  set (sorted := js_sort (λ a b, a - b)%Q (x0 :: l0)).
  assert (sorted ≡ₚ x0 :: l0) as P by apply js_sort_perm.
  assert (length sorted = S (length l0)) as Len by (by rewrite P).
  pose proof (sort_ascending (x0 :: l0)) as S. fold sorted in S.
  cbn [count p50 p90 p99].
  assert (∀ p, Nat.min (length sorted - 1)
                 (Z.to_nat (Qfloor (b64 (p * of_nat (length sorted)))))
               < length sorted)
    as B by (intros p; lia).
  assert (∀ p, ∃ x, x ∈ x0 :: l0 ∧
            toFixed1 (nth (Nat.min (length sorted - 1)
                        (Z.to_nat (Qfloor (b64 (p * of_nat (length sorted))))))
                        sorted 0%Q) = toFixed1 x) as M.
  { intros p. eexists. split; [|reflexivity].
    rewrite <- P. apply list_elem_of_In, nth_In, B. }
  split; [done|]. split; [done|].
  split; [|split; [|split; [apply M|split; apply M]]].
  - apply toFixed1_mono, sorted_nth_le; [done| |apply B].
    apply percentile_index_mono, b64_mono. by unfold Qle.
  - apply toFixed1_mono, sorted_nth_le; [done| |apply B].
    apply percentile_index_mono, b64_mono. by unfold Qle.
Qed.

(** X9: the latency summary is null exactly when there is no sample;
    otherwise it counts the samples, each percentile is one of the samples
    rounded to one decimal, and the percentiles are ordered:
    p50 <= p90 <= p99. *)
Theorem latencySummary_percentiles (e : TypingEngine) :
  match latencySummary e with
  | None => latencies e = []
  | Some s =>
      count s = length (latencies e) ∧ latencies e ≠ [] ∧
      (p50 s <= p90 s)%Q ∧ (p90 s <= p99 s)%Q ∧
      (∃ x, x ∈ latencies e ∧ p50 s = toFixed1 x) ∧
      (∃ x, x ∈ latencies e ∧ p90 s = toFixed1 x) ∧
      (∃ x, x ∈ latencies e ∧ p99 s = toFixed1 x)
  end.
Proof. apply latencySummary_shape. Qed.

Lemma foldl_Qplus_bound (b : Q) (l : list Q) :
  Forall (λ x, x <= b)%Q l →
  ∀ a, (foldl Qplus a l <= a + b * of_nat (length l))%Q.
Proof.
  induction 1 as [|x l Hx F IH]; intros a; cbn [foldl length].
  - change (of_nat 0) with 0%Q. lra.
  - specialize (IH (a + x)%Q).
    change (of_nat (S (length l))) with (of_nat (1 + length l)).
    rewrite of_nat_add. change (of_nat 1) with 1%Q. lra.
Qed.

Lemma toFixed1_le_5000 (x : Q) : (x <= 5000)%Q → (toFixed1 x <= 5000)%Q.
Proof. intros Le. apply (toFixed1_mono x 5000 Le). Qed.

(** X10: after any sequence of calls on a new engine, no figure of the
    latency summary exceeds 5000 ms: neither the average nor any of the
    three percentiles. *)
Theorem latencySummary_bounded (st : list sessionRecord) (l : list action) :
  let e := engine (runActions l (newEngine st)) in
  ∀ s, latencySummary e = Some s →
       (avg s <= 5000)%Q ∧ (p50 s <= 5000)%Q ∧
       (p90 s <= 5000)%Q ∧ (p99 s <= 5000)%Q.
Proof.
  intros e s Hs.
  destruct (runActions_engine_ok l (newEngine st) engine_ok_reset)
    as (_ & _ & _ & _ & F & _). fold e in F.
  assert (Forall (λ x, x <= 5000)%Q (latencies e)) as F'.
  { eapply Forall_impl; [exact F|]. intros x [_ Lt]. lra. }
  pose proof (latencySummary_shape e) as P. rewrite Hs in P.
  destruct P as (_ & _ & _ & _ & (x1 & I1 & ->) & (x2 & I2 & ->) & (x3 & I3 & ->)).
  rewrite Forall_forall in F'.
  split; [|by repeat split; apply toFixed1_le_5000, F'].
  unfold latencySummary in Hs.
  destruct (latencies e) as [|x0 l0] eqn:E; [done|].
  injection Hs as <-. cbn [avg].
  set (sorted := js_sort (λ a b, a - b)%Q (x0 :: l0)).
  apply toFixed1_le_5000.
  assert (Forall (λ x, x <= 5000)%Q sorted) as Fs.
  { apply Forall_forall. intros x Hx. apply F'.
    subst sorted. by rewrite js_sort_perm in Hx. }
  pose proof (foldl_Qplus_bound 5000 sorted Fs 0) as B.
  assert (0 < of_nat (length sorted))%Q as Pn.
  { unfold of_nat. rewrite <- (Zlt_Qlt 0).
    subst sorted. rewrite js_sort_perm. simpl. lia. }
  assert (b64 5000 = 5000%Q) as B5 by (by apply (b64_Z 5000)).
  apply Qle_trans with (b64 5000); [apply b64_mono|rewrite B5; lra].
  apply Qle_shift_div_r; [done|].
  change (foldl Qplus 0 sorted <= 5000 * of_nat (length sorted))%Q. lra.
Qed.

Lemma latencySummary_bounded_witness :
  let s := {| count := 1; avg := 100; p50 := 100; p90 := 100; p99 := 100 |} in
  (avg s <= 5000)%Q ∧ (p50 s <= 5000)%Q ∧ (p90 s <= 5000)%Q ∧ (p99 s <= 5000)%Q.
Proof.
  apply (latencySummary_bounded []
           [load (js "ab") 100; press (js "a") (at_ms 200)]).
  reflexivity.
Defined.

(** ** Elapsed seconds *)



(** ** Size and order of the suggestions *)

(** X12: the suggestions never exceed [max] (8 by default), never name a
    character twice and only name characters with a recorded error; a
    recorded character is left out only when the list is full. *)
Theorem generateSuggestions_size (h : list historySession)
    (cur : option entries) (mx : option nat) :
  let out := generateSuggestions h cur mx in
  length out ≤ default 8 mx ∧
  NoDup (map char out) ∧
  (∀ c, c ∈ map char out → recorded h cur c) ∧
  (∀ c, recorded h cur c → c ∈ map char out ∨ length out = default 8 mx).
Proof.
  intros out. subst out. rewrite generateSuggestions_ranked.
  set (n := default 8 mx).
  assert (NoDup (map char (ranked h cur))) as N.
  { rewrite ranked_chars. apply accumulateAll_NoDup, NoDup_nil_2. }
  assert (∀ c, c ∈ map char (ranked h cur) ↔ recorded h cur c) as K.
  { intros c. rewrite ranked_chars, accumulateAll_keys, additions_keys.
    cbn [map]. rewrite elem_of_nil. tauto. }
  rewrite <- (take_drop n (ranked h cur)), map_app in N, K.
  apply NoDup_app in N as (N & _ & _).
  split; [rewrite length_take; lia|]. split; [done|]. split.
  - intros c Hc. apply K, elem_of_app. by left.
  - intros c Hc. rewrite length_take.
    apply K, elem_of_app in Hc as [Hc|Hc]; [by left|right].
    destruct (decide (n ≤ length (ranked h cur))); [lia|].
    rewrite drop_ge in Hc by lia. by apply elem_of_nil in Hc.
Qed.

Lemma generateSuggestions_size_witness :
  js "t" ∈ map char (generateSuggestions
                       [ {| s_errorMap := Some [(js "t", 3)] |} ] None None) ∨
  length (generateSuggestions
            [ {| s_errorMap := Some [(js "t", 3)] |} ] None None) = 8.
Proof.
  apply (generateSuggestions_size
           [ {| s_errorMap := Some [(js "t", 3)] |} ] None None).
  right. exists {| s_errorMap := Some [(js "t", 3)] |}.
  split; [apply list_elem_of_singleton; reflexivity|].
  apply list_elem_of_singleton. reflexivity.
Defined.

Section Stable.
Context {A : Type} (cmp : A → A → Q) (key : A → Q) (k : Q).
Hypothesis cmp_above : ∀ x y, Qlt_bool 0 (cmp x y) = true → (key x < key y)%Q.

Local Abbreviation same := (λ x : A, Qeq_bool (key x) k).

Lemma sort_insert_stable (x : A) (l : list A) :
  List.filter same (sort_insert cmp x l) = List.filter same (x :: l).
Proof.
  induction l as [|y l IH]; [done|].
  cbn [sort_insert]. destruct (Qlt_bool 0 (cmp x y)) eqn:E; [|done].
  apply cmp_above in E. cbn [List.filter] in *. rewrite IH.
  destruct (Qeq_bool (key x) k) eqn:Ex, (Qeq_bool (key y) k) eqn:Ey; try done.
  apply Qeq_bool_iff in Ex, Ey. lra.
Qed.

Lemma js_sort_stable (l : list A) :
  List.filter same (js_sort cmp l) = List.filter same l.
Proof.
  induction l as [|x l IH]; [done|].
  unfold js_sort in *. cbn [foldr]. rewrite sort_insert_stable.
  cbn [List.filter]. by rewrite IH.
Qed.
End Stable.

Lemma filter_map {A B} (f : A → B) (p : B → bool) (l : list A) :
  List.filter p (map f l) = map f (List.filter (λ x, p (f x)) l).
Proof.
  induction l as [|x l IH]; [done|].
  simpl. rewrite IH. by destruct (p (f x)).
Qed.

Lemma accumulateAll_order (l : list (jsstring * Q)) (m : jsMap) :
  map fst (accumulateAll m l) = firstSeen (map fst m) (map fst l).
Proof.
  revert m. induction l as [|[c v] l IH]; intros m; [done|].
  unfold accumulateAll, firstSeen in *. cbn [foldl map fst snd].
  rewrite IH. unfold accumulate. by rewrite Map_set_keys.
Qed.

(** X13: sorting is stable.  Entries with the same score, as the machine
    computes it, come out in the order of the unsorted array, which lists
    the characters in the order in which they were first met: history
    sessions in order, then the current error map. *)
Theorem ranking_stable (h : list historySession) (cur : option entries) :
  map char (unsorted h cur) = firstSeen [] (map fst (additions h cur)) ∧
  ∀ (mx : option nat) (k : Q),
    generateSuggestions h cur mx = take (default 8 mx) (ranked h cur) ∧
    List.filter (λ x, Qeq_bool (score x) k) (ranked h cur) =
      List.filter (λ x, Qeq_bool (score x) k) (unsorted h cur).
Proof.
  split.
  - unfold unsorted. rewrite !map_map.
    apply (accumulateAll_order (additions h cur) []).
  - intros mx k. split; [apply generateSuggestions_ranked|].
    unfold ranked, unsorted. rewrite !(filter_map toSuggestion).
    cbn [score toSuggestion].
    by rewrite (js_sort_stable byScore snd k byScore_above).
Qed.

(** The scores of [a] and of the space differ for the current map
    {a: 2, space: 5}, where the space comes first; those of [b] and [a]
    are equal for {b: 2, a: 2}, where [b], met first, comes first. *)
Lemma ranking_stable_cases :
  map char (generateSuggestions [] (Some [(js "a", 2); (js " ", 5)]) None)
    = [js " "; js "a"] ∧
  map char (generateSuggestions [] (Some [(js "b", 2); (js "a", 2)]) None)
    = [js "b"; js "a"] ∧
  map score (generateSuggestions [] (Some [(js "b", 2); (js "a", 2)]) None)
    = [b64 2.4; b64 2.4].
Proof. vm_compute. repeat split; reflexivity. Qed.

Lemma sorted_app_le {A} (R : relation A) (l1 l2 : list A) :
  StronglySorted R (l1 ++ l2) → ∀ x y, x ∈ l1 → y ∈ l2 → R x y.
Proof.
  induction l1 as [|a l1 IH]; intros S x y Hx Hy.
  - by apply elem_of_nil in Hx.
  - simpl in S. apply StronglySorted_inv in S as [S F].
    apply elem_of_cons in Hx as [->|Hx]; [|by apply IH].
    rewrite Forall_forall in F. apply F, elem_of_app. by right.
Qed.

Lemma elem_of_map_char (c : jsstring) (l : list suggestion) :
  c ∈ map char l → ∃ l1 x l2, l = l1 ++ x :: l2 ∧ char x = c.
Proof.
  intros (x & E & I%list_elem_of_In)%list_elem_of_In%in_map_iff.
  apply list_elem_of_split in I as (l1 & l2 & ->). by exists l1, x, l2.
Qed.

(** The factor 0.4 outweighs the rounding of the two products. *)
Lemma whitespace_margin (r1 r2 : Q) :
  (0 < r1)%Q → (r2 <= r1)%Q → (b64 (r2 * b64 0.4) < b64 (r1 * 1))%Q.
Proof.
  intros P Le.
  assert (b64 0.4 = (3602879701896397 # 9007199254740992)%Q) as ->
    by (vm_compute; reflexivity).
  assert (b64 (r2 * (3602879701896397 # 9007199254740992))
          <= b64 (r1 * (3602879701896397 # 9007199254740992)))%Q as M.
  { apply b64_mono. lra. }
  assert (0 < r1 * (3602879701896397 # 9007199254740992))%Q as P1 by lra.
  assert (0 < r1 * 1)%Q as P2 by lra.
  pose proof (b64_error_pos _ P1) as E1. pose proof (b64_error_pos _ P2) as E2.
  apply Qabs_Qle_condition in E1, E2.
  change (2 ^ (-53))%Q with (1 # 9007199254740992)%Q in E1, E2.
  set (b1 := b64 (r1 * (3602879701896397 # 9007199254740992))) in *.
  set (b2 := b64 (r1 * 1)) in *.
  set (b3 := b64 (r2 * (3602879701896397 # 9007199254740992))) in *.
  lra.
Qed.

(** X14: whitespace is ranked lower.  A whitespace character never comes
    before a non-whitespace character whose aggregate count is positive and
    at least as large; so whenever the whitespace character is suggested,
    the other one is suggested too, and earlier. *)
Theorem whitespace_ranks_lower (h : list historySession)
    (cur : option entries) (c1 c2 : jsstring) :
  recorded h cur c1 → recorded h cur c2 →
  isWhitespace c1 = false → isWhitespace c2 = true →
  (0 < raw_count h cur c1)%Q →
  (raw_count h cur c2 <= raw_count h cur c1)%Q →
  (∃ l1 l2 l3, map char (ranked h cur) = l1 ++ c1 :: l2 ++ c2 :: l3) ∧
  ∀ mx, c2 ∈ map char (generateSuggestions h cur mx) →
        c1 ∈ map char (generateSuggestions h cur mx).
Proof.
  intros R1 R2 W1 W2 P Le.
  pose proof (ranked_NoDup h cur) as N.
  pose proof (ranked_recorded h cur) as K.
  pose proof (ranked_sorted h cur) as S.
  pose proof (ranked_raw h cur) as Sc. rewrite Forall_forall in Sc.
  pose proof (whitespace_margin _ _ P Le) as Mg.
  apply K in R1 as I1. apply K in R2 as I2.
  assert (∃ l1 l2 l3, map char (ranked h cur) = l1 ++ c1 :: l2 ++ c2 :: l3)
    as (l1 & l2 & l3 & D).
  { apply elem_of_map_char in I1 as (A & x1 & B & E & C1).
    rewrite E in I2, S, Sc. rewrite E.
    assert (score x1 = b64 (raw_count h cur c1 * 1)) as S1.
    { rewrite (Sc x1) by (apply elem_of_app; right; apply elem_of_cons; by left).
      unfold rarityBoost. by rewrite C1, W1. }
    rewrite map_app in I2. cbn [map] in I2.
    apply elem_of_app in I2 as [I2|I2].
    - apply elem_of_map_char in I2 as (A1 & x2 & A2 & -> & C2).
      assert (score x2 = b64 (raw_count h cur c2 * b64 0.4)) as S2.
      { rewrite (Sc x2).
        - unfold rarityBoost. by rewrite C2, W2.
        - apply elem_of_app. left. apply elem_of_app. right.
          apply elem_of_cons. by left. }
      assert (score x1 <= score x2)%Q as Bad.
      { apply (sorted_app_le _ _ _ S x2 x1).
        - apply elem_of_app. right. apply elem_of_cons. by left.
        - apply elem_of_cons. by left. }
      rewrite S1, S2 in Bad. lra.
    - apply elem_of_cons in I2 as [I2|I2].
      { rewrite C1 in I2. subst c2. congruence. }
      apply elem_of_map_char in I2 as (B1 & x2 & B2 & -> & C2).
      exists (map char A), (map char B1), (map char B2).
      rewrite !map_app. cbn [map]. rewrite !map_app. cbn [map].
      by rewrite C1, C2. }
  split; [by exists l1, l2, l3|].
  intros mx. rewrite generateSuggestions_ranked, <- firstn_map, D.
  rewrite D in N. set (n := default 8 mx).
  rewrite take_app. intros I.
  destruct (n - length l1) as [|m] eqn:E.
  - rewrite take_0, app_nil_r in I.
    apply NoDup_app in N as (_ & N & _).
    destruct (N c2).
    + rewrite <- (take_drop n l1). apply elem_of_app. by left.
    + apply elem_of_cons. right. apply elem_of_app. right.
      apply elem_of_cons. by left.
  - apply elem_of_app. right. cbn [take firstn]. apply elem_of_cons. by left.
Qed.

Lemma whitespace_ranks_lower_witness :
  let h := [ {| s_errorMap := Some [(js " ", 10); (js "e", 10)] |} ] in
  ∃ l1 l2 l3, map char (ranked h None) = l1 ++ js "e" :: l2 ++ js " " :: l3.
Proof.
  apply (whitespace_ranks_lower
           [ {| s_errorMap := Some [(js " ", 10); (js "e", 10)] |} ] None
           (js "e") (js " ")).
  - right. eexists. split; [apply list_elem_of_singleton; reflexivity|].
    apply elem_of_cons. right. apply list_elem_of_singleton. reflexivity.
  - right. eexists. split; [apply list_elem_of_singleton; reflexivity|].
    apply elem_of_cons. left. reflexivity.
  - reflexivity.
  - reflexivity.
  - reflexivity.
  - discriminate.
Defined.

(** ** app.js: error reduction against the recent average *)

Lemma sumValues_nonneg (m : gmap jsstring nat) : (0 <= sumValues m)%Q.
Proof. unfold sumValues, of_nat. rewrite <- (Zle_Qle 0). lia. Qed.

Lemma foldl_sumValues_ge {W} (l : list (record W)) :
  ∀ a, (a <= foldl (λ a s, a + sumValues (rec_errorMap s)) a l)%Q.
Proof.
  induction l as [|s l IH]; intros a; simpl; [lra|].
  specialize (IH (a + sumValues (rec_errorMap s))%Q).
  pose proof (sumValues_nonneg (rec_errorMap s)). lra.
Qed.

Lemma foldl_sumValues_zero {W} (l : list (record W)) :
  Forall (λ s, total_count (rec_errorMap s) = 0) l →
  ∀ a, (foldl (λ a s, a + sumValues (rec_errorMap s)) a l == a)%Q.
Proof.
  induction 1 as [|s l Hs F IH]; intros a; simpl; [reflexivity|].
  rewrite IH. unfold sumValues. rewrite Hs. change (of_nat 0) with 0%Q. lra.
Qed.

(** X15: the error reduction shown after a session never exceeds 100.  It
    is computed against the (at most five) sessions stored before the one
    just saved, whatever that newest record is, and it is 0 when there is
    no such session or when none of them had an error. *)
Theorem averageWeakErrorReduction_spec (old : list sessionRecord)
    (newest r : sessionRecord) :
  (averageWeakErrorReduction (saveSession newest old) r <= 100)%Q ∧
  (∀ other, averageWeakErrorReduction (saveSession newest old) r =
            averageWeakErrorReduction (other :: take 5 old) r) ∧
  averageWeakErrorReduction [] r = 0%Q ∧
  (old = [] → averageWeakErrorReduction (saveSession newest old) r = 0%Q) ∧
  (Forall (λ s, total_count (rec_errorMap s) = 0) (take 5 old) →
     averageWeakErrorReduction (saveSession newest old) r = 0%Q).
Proof.
  assert (∀ x, drop 1 (storage_list (Some 6) (x :: old)) = map json (take 5 old))
    as D.
  { intros x. unfold storage_list, _load. simpl. by rewrite firstn_map. }
  assert (∀ x, drop 1 (storage_list (Some 6) (x :: take 5 old))
               = map json (take 5 old)) as D'.
  { intros x. unfold storage_list, _load. simpl.
    by rewrite firstn_map, take_take. }
  unfold averageWeakErrorReduction, saveSession.
  split; [|split; [|split; [done|split]]].
  - rewrite D. destruct (map json (take 5 old)) as [|s l] eqn:E; [done|].
    set (p := (foldl _ 0 (s :: l) / of_nat (length (s :: l)))%Q).
    destruct (Qeq_bool p 0) eqn:Z; [done|].
    apply Qeq_bool_neq in Z.
    assert (0 <= p)%Q as P0.
    { subst p. apply Qle_shift_div_l.
      - unfold of_nat. rewrite <- (Zlt_Qlt 0). simpl. lia.
      - rewrite Qmult_0_l. apply foldl_sumValues_ge. }
    assert (0 < p)%Q as P by lra.
    pose proof (sumValues_nonneg (rec_errorMap r)) as C.
    set (c := sumValues (rec_errorMap r)) in *.
    assert ((p - c) / p <= 1)%Q; [|lra].
    apply Qle_shift_div_r; [done|]. lra.
  - intros other. by rewrite D, D'.
  - intros ->. done.
  - intros F. rewrite D.
    assert (Forall (λ s : storedRecord, total_count (rec_errorMap s) = 0)
              (map json (take 5 old))) as F'.
    { apply Forall_forall. intros s (s' & <- & I)%list_elem_of_In%in_map_iff.
      rewrite Forall_forall in F. apply F, list_elem_of_In, I. }
    destruct (map json (take 5 old)) as [|s l] eqn:E; [done|].
    assert (Qeq_bool (foldl (λ a s, a + sumValues (rec_errorMap s))%Q 0%Q (s :: l)
                      / of_nat (length (s :: l))) 0 = true) as ->; [|done].
    apply Qeq_bool_iff. rewrite (foldl_sumValues_zero _ F'). reflexivity.
Qed.

Lemma averageWeakErrorReduction_spec_witness :
  let r := buildRecord resetSession (at_ms 0) in
  averageWeakErrorReduction (saveSession r []) r = 0%Q.
Proof.
  destruct (averageWeakErrorReduction_spec []
              (buildRecord resetSession (at_ms 0))
              (buildRecord resetSession (at_ms 0))) as (_ & _ & _ & H & _).
  apply H. reflexivity.
Defined.

(** ** app.js: escaping *)

Lemma entity_cases (c : code_unit) :
  (entity c = None ∧ c ≠ 38 ∧ c ≠ 60 ∧ c ≠ 62 ∧ c ≠ 34 ∧ c ≠ 39)%N ∨
  (c = 38%N ∧ entity c = Some (js "&amp;")) ∨
  (c = 60%N ∧ entity c = Some (js "&lt;")) ∨
  (c = 62%N ∧ entity c = Some (js "&gt;")) ∨
  (c = 34%N ∧ entity c = Some (js "&quot;")) ∨
  (c = 39%N ∧ entity c = Some (js "&#39;")).
Proof.
  unfold entity.
  destruct (N.eqb_spec c 38); [subst; tauto|].
  destruct (N.eqb_spec c 60); [subst; tauto|].
  destruct (N.eqb_spec c 62); [subst; tauto|].
  destruct (N.eqb_spec c 34); [subst; tauto|].
  destruct (N.eqb_spec c 39); [subst; tauto|].
  left. tauto.
Qed.

(** X16: the output of [escapeHTML] contains none of the characters
    less-than, greater-than, double quote and single quote, and a string
    that has none of the five special characters is returned unchanged. *)
Theorem escapeHTML_safe (str : jsstring) :
  (∀ c, c ∈ escapeHTML str → c ≠ 60 ∧ c ≠ 62 ∧ c ≠ 34 ∧ c ≠ 39)%N ∧
  ((∀ c, c ∈ str → c ≠ 38 ∧ c ≠ 60 ∧ c ≠ 62 ∧ c ≠ 34 ∧ c ≠ 39)%N →
   escapeHTML str = str).
Proof.
  split.
  - intros c (x & Hx & Hc)%list_elem_of_In%in_flat_map.
    apply list_elem_of_In in Hc.
    destruct (entity_cases x)
      as [(E & N)|[(_ & E)|[(_ & E)|[(_ & E)|[(_ & E)|(_ & E)]]]]];
      rewrite E in Hc.
    + simpl in Hc. apply list_elem_of_singleton in Hc as ->. tauto.
    + vm_compute in Hc. set_unfold. intuition (subst; discriminate).
    + vm_compute in Hc. set_unfold. intuition (subst; discriminate).
    + vm_compute in Hc. set_unfold. intuition (subst; discriminate).
    + vm_compute in Hc. set_unfold. intuition (subst; discriminate).
    + vm_compute in Hc. set_unfold. intuition (subst; discriminate).
  - induction str as [|x str IH]; intros H; [done|].
    unfold escapeHTML in *. cbn [flat_map].
    rewrite IH by (intros c Hc; apply H, elem_of_cons; by right).
    destruct (entity_cases x) as [(E & _)|E]; [by rewrite E|].
    destruct (H x) as (? & ? & ? & ? & ?); [apply elem_of_cons; by left|].
    destruct E as [(E & _)|[(E & _)|[(E & _)|[(E & _)|(E & _)]]]]; done.
Qed.

Lemma escapeHTML_safe_witness : escapeHTML (js "plain text") = js "plain text".
Proof.
  apply (escapeHTML_safe (js "plain text")).
  intros c Hc. vm_compute in Hc. set_unfold.
  repeat (destruct Hc as [->|Hc]; [repeat split; discriminate|]). done.
Defined.

(** X17: [escapeHTML] loses nothing: two different strings never have the
    same escaped form. *)
Theorem escapeHTML_injective (s1 s2 : jsstring) :
  escapeHTML s1 = escapeHTML s2 → s1 = s2.
Proof.
  revert s2. induction s1 as [|x s1 IH]; intros [|y s2] H.
  - done.
  - unfold escapeHTML in H. cbn [flat_map] in H.
    destruct (entity_cases y) as [(E & _)|[(_ & E)|[(_ & E)|[(_ & E)|[(_ & E)|(_ & E)]]]]];
      rewrite E in H; discriminate.
  - unfold escapeHTML in H. cbn [flat_map] in H.
    destruct (entity_cases x) as [(E & _)|[(_ & E)|[(_ & E)|[(_ & E)|[(_ & E)|(_ & E)]]]]];
      rewrite E in H; discriminate.
  - unfold escapeHTML in H. cbn [flat_map] in H.
    fold (escapeHTML s1) in H. fold (escapeHTML s2) in H.
    destruct (entity_cases x) as [(Ex & Nx)|[(-> & Ex)|[(-> & Ex)|[(-> & Ex)|[(-> & Ex)|(-> & Ex)]]]]];
    destruct (entity_cases y) as [(Ey & Ny)|[(-> & Ey)|[(-> & Ey)|[(-> & Ey)|[(-> & Ey)|(-> & Ey)]]]]];
    rewrite ?Ex, ?Ey in H; cbn in H;
    try discriminate;
    try (injection H as H; f_equal; by apply IH);
    try (injection H as -> H; f_equal; by apply IH);
    try (injection H as <- H; tauto);
    try (injection H as -> H; tauto).
Qed.

(** ** app.js: drills *)

Lemma join_cons (sep x y : jsstring) (l : list jsstring) :
  join sep (x :: y :: l) = x ++ sep ++ join sep (y :: l).
Proof. done. Qed.

Lemma join_elem (sep : jsstring) (l : list jsstring) (u : code_unit) :
  u ∈ join sep l → u ∈ sep ∨ ∃ x, x ∈ l ∧ u ∈ x.
Proof.
  induction l as [|x [|y l] IH].
  - by intros ?%elem_of_nil.
  - simpl. intros H. right. exists x. split; [apply elem_of_cons; by left|done].
  - rewrite join_cons. intros [H|[H|H]%elem_of_app]%elem_of_app.
    + right. exists x. split; [apply elem_of_cons; by left|done].
    + by left.
    + destruct (IH H) as [?|(z & Hz & Hu)]; [by left|].
      right. exists z. split; [apply elem_of_cons; by right|done].
Qed.

Lemma join_part (sep : jsstring) (l : list jsstring) (x : jsstring) :
  x ∈ l → ∃ pre post, join sep l = pre ++ x ++ post.
Proof.
  induction l as [|y [|z l] IH].
  - by intros ?%elem_of_nil.
  - intros ->%list_elem_of_singleton. exists [], []. simpl. by rewrite app_nil_r.
  - rewrite join_cons. intros [->|H]%elem_of_cons.
    + by exists [], (sep ++ join sep (z :: l)).
    + destruct (IH H) as (pre & post & ->).
      exists (y ++ sep ++ pre), post. by rewrite <- !app_assoc.
Qed.

Lemma join_length (sep : jsstring) (k : nat) (l : list jsstring) :
  Forall (λ x, length x = k) l → l ≠ [] →
  length (join sep l) + length sep = length l * (k + length sep).
Proof.
  induction l as [|x [|y l] IH]; intros F N; [done| |].
  - apply Forall_inv in F. simpl. lia.
  - apply Forall_cons in F as [Hx F]. rewrite join_cons, !length_app.
    specialize (IH F ltac:(done)). cbn [length] in *. lia.
Qed.

(** X18: a drill exists exactly when there is a suggestion.  It is made
    only of suggested characters and separating spaces, it contains every
    suggested character four times in a row, and for n one-unit characters
    it is 5n - 1 units long. *)
Theorem buildDrill_spec (chars : list jsstring) :
  (buildDrillFromSuggestions chars = None ↔ chars = []) ∧
  ∀ drill, buildDrillFromSuggestions chars = Some drill →
    (∀ u, u ∈ drill → u = 32%N ∨ ∃ c, c ∈ chars ∧ u ∈ c) ∧
    (∀ c, c ∈ chars → ∃ pre post, drill = pre ++ (c ++ c ++ c ++ c) ++ post) ∧
    (Forall (λ c, length c = 1) chars → length drill + 1 = 5 * length chars).
Proof.
  split; [by destruct chars|].
  intros drill H.
  assert (chars ≠ [] ∧ drill = join (js " ") (map repeat4 chars)) as [N ->].
  { destruct chars; [done|]. by injection H as <-. }
  split; [|split].
  - intros u [Hu|(x & Hx & Hu)]%join_elem.
    + left. by apply list_elem_of_singleton in Hu.
    + right. apply list_elem_of_In, in_map_iff in Hx as (c & <- & Hc).
      exists c. split; [by apply list_elem_of_In|].
      unfold repeat4 in Hu. rewrite !elem_of_app in Hu. tauto.
  - intros c Hc. apply (join_part (js " ") (map repeat4 chars) (repeat4 c)).
    apply list_elem_of_In, in_map. by apply list_elem_of_In.
  - intros F.
    assert (Forall (λ x, length x = 4) (map repeat4 chars)) as F4.
    { apply Forall_forall. intros x (c & <- & Hc)%list_elem_of_In%in_map_iff.
      rewrite Forall_forall in F. apply list_elem_of_In in Hc.
      unfold repeat4. rewrite !length_app, (F c Hc). done. }
    assert (map repeat4 chars ≠ []) as Nn by (by destruct chars).
    pose proof (join_length (js " ") 4 _ F4 Nn) as L.
    rewrite length_map in L. change (length (js " ")) with 1 in L. lia.
Qed.

Lemma buildDrill_spec_witness :
  ∃ pre post, js "eeee tttt" = pre ++ (js "t" ++ js "t" ++ js "t" ++ js "t") ++ post.
Proof.
  apply (proj2 (buildDrill_spec [js "e"; js "t"]) (js "eeee tttt")).
  - reflexivity.
  - apply elem_of_cons. right. apply list_elem_of_singleton. reflexivity.
Defined.

(** ** Virtual scrolling *)

Lemma flat_map_length_le {A B} (f : A → list B) (l : list A) :
  (∀ x, length (f x) ≤ 1) → length (flat_map f l) ≤ length l.
Proof.
  intros Hf. induction l as [|x l IH]; [done|].
  simpl. rewrite length_app. specialize (Hf x). lia.
Qed.

(** X19: [render] creates at most [visibleItems + 1] items, and never more
    than one per datum; each is a datum of the list placed at
    [index * itemHeight], with an index from the visible range. *)
Theorem renderItems_bound {A} (v : VirtualScroll A) :
  length (renderItems v) ≤ Z.to_nat (visibleItems v + 1) ∧
  ∀ i x top, (i, x, top) ∈ renderItems v →
    (0 ≤ i)%Z ∧ data v !! Z.to_nat i = Some x ∧
    (top = inject_Z i * itemHeight v)%Q ∧
    ∃ s, startIndex v = Some s ∧ (s ≤ i < s + visibleItems v + 1)%Z.
Proof.
  unfold renderItems. destruct (startIndex v) as [s|] eqn:Es.
  - split.
    + etransitivity.
      * apply flat_map_length_le. intros i. destruct (item_at _ _); simpl; lia.
      * rewrite length_seqZ. unfold endIndex. lia.
    + intros i x top (j & Hj & H)%list_elem_of_In%in_flat_map.
      apply list_elem_of_In, elem_of_seqZ in Hj.
      unfold item_at in H. destruct (Z.ltb_spec j 0); [done|].
      destruct (data v !! Z.to_nat j) as [y|] eqn:Ey; [|done].
      apply list_elem_of_In, list_elem_of_singleton in H. injection H as -> -> ->.
      repeat split; try done. exists s. split; [done|].
      unfold endIndex in Hj. lia.
  - split; [simpl; lia|]. by intros i x top ?%elem_of_nil.
Qed.

(** X20: with a positive item height, every datum whose box
    [index * itemHeight, (index + 1) * itemHeight) meets the viewport
    [scrollTop, scrollTop + visibleItems * itemHeight) is rendered. *)
Theorem renderItems_covers {A} (v : VirtualScroll A) (i : nat) (x : A) :
  (0 < itemHeight v)%Q →
  data v !! i = Some x →
  (scrollTop v < (of_nat i + 1) * itemHeight v)%Q →
  (of_nat i * itemHeight v
     < scrollTop v + inject_Z (visibleItems v) * itemHeight v)%Q →
  (Z.of_nat i, x, of_nat i * itemHeight v)%Q ∈ renderItems v.
Proof.
  intros Hh Hx Top Bot. unfold renderItems, startIndex, js_div.
  set (h := itemHeight v) in *. set (t := scrollTop v) in *.
  assert (Qeq_bool h 0 = false) as ->.
  { destruct (Qeq_bool h 0) eqn:E; [|done]. apply Qeq_bool_iff in E. lra. }
  set (s := Qfloor (t / h)).
  pose proof (Qfloor_le (t / h)) as Lo. pose proof (Qlt_floor (t / h)) as Hi.
  fold s in Lo, Hi. rewrite inject_Z_plus in Hi.
  change (inject_Z 1) with 1%Q in Hi.
  assert (t / h < of_nat i + 1)%Q as Q1.
  { apply Qlt_shift_div_r; [done|]. lra. }
  assert (of_nat i - inject_Z (visibleItems v) < t / h)%Q as Q2.
  { apply Qlt_shift_div_l; [done|]. lra. }
  assert (s ≤ Z.of_nat i)%Z as S1.
  { apply Z.lt_succ_r. rewrite Zlt_Qlt. unfold Z.succ.
    rewrite inject_Z_plus. unfold of_nat in *.
    change (inject_Z 1) with 1%Q. lra. }
  assert (Z.of_nat i < s + visibleItems v + 1)%Z as S2.
  { rewrite Zlt_Qlt, !inject_Z_plus. unfold of_nat in *.
    change (inject_Z 1) with 1%Q. lra. }
  apply list_elem_of_In, in_flat_map. exists (Z.of_nat i). split.
  - apply list_elem_of_In, elem_of_seqZ. unfold endIndex.
    apply lookup_lt_Some in Hx. lia.
  - unfold item_at. destruct (Z.ltb_spec (Z.of_nat i) 0); [lia|].
    rewrite Nat2Z.id, Hx. apply list_elem_of_In, list_elem_of_singleton. done.
Qed.

Lemma renderItems_covers_witness :
  let v := {| itemHeight := 40; visibleItems := 5;
              data := [1; 2; 3; 4; 5; 6; 7; 8; 9; 10]; scrollTop := 100 |} in
  (7%Z, 8, (of_nat 7 * 40)%Q) ∈ renderItems v.
Proof.
  apply (renderItems_covers
           {| itemHeight := 40; visibleItems := 5;
              data := [1; 2; 3; 4; 5; 6; 7; 8; 9; 10]; scrollTop := 100 |} 7 8);
    reflexivity.
Defined.

Lemma renderItems_bound_witness :
  let v := {| itemHeight := 40; visibleItems := 5;
              data := [1; 2; 3]; scrollTop := 100 |} in
  (0 ≤ 2)%Z ∧ data v !! Z.to_nat 2 = Some 3 ∧
  ((of_nat 2 * 40)%Q = inject_Z 2 * itemHeight v)%Q ∧
  ∃ s, startIndex v = Some s ∧ (s ≤ 2 < s + visibleItems v + 1)%Z.
Proof.
  apply (proj2 (renderItems_bound
           {| itemHeight := 40; visibleItems := 5;
              data := [1; 2; 3]; scrollTop := 100 |}) 2%Z 3 (of_nat 2 * 40)%Q).
  vm_compute. apply list_elem_of_singleton. reflexivity.
Defined.

(** ** Sample backend *)

Lemma hash_eq (p q : option jsstring) : hash p = hash q ↔ field p = field q.
Proof.
  unfold hash. split; [|by intros ->]. intros H. by apply app_inv_head in H.
Qed.

(** X21: a signup answers 200 only for a fresh user name with a non-empty
    password typed twice the same, and otherwise leaves the stores alone.
    After a successful signup that user logs in exactly with a password
    whose string form is the one signed up with, starts with an empty
    session list, and every other user logs in as before. *)
Theorem signup_then_login {R} (username password password2 : option jsstring)
    (s : server R) :
  let code := (signup username password password2 s).1 in
  let s' := (signup username password password2 s).2 in
  (code ≠ 200 → s' = s) ∧
  (code = 200 →
     ∃ u p, username = Some u ∧ password = Some p ∧ password2 = Some p ∧
       u ≠ [] ∧ p ≠ [] ∧ users s !! u = None ∧
       sessions s' !! u = Some [] ∧
       (∀ q, login (Some u) q s' = 200 ↔ field q = p) ∧
       (∀ u' q, u' ≠ u → login (Some u') q s' = login (Some u') q s)) ∧
  (∀ passwordHash, users s !! field username = Some passwordHash → code ≠ 200).
Proof.
  unfold signup.
  destruct username as [[|a u]|], password as [[|b p]|]; simpl;
    try (repeat split; try done; intros; done).
  destruct (bool_decide (Some (b :: p) = password2)) eqn:E; simpl;
    [|repeat split; try done; intros; done].
  apply bool_decide_eq_true in E as <-.
  destruct (users s !! (a :: u)) as [h|] eqn:U; simpl.
  { repeat split; try done. }
  split; [done|]. split; [|by intros h [=]].
  intros _. exists (a :: u), (b :: p).
  repeat split; try done.
  - apply lookup_insert_eq.
  - unfold login. simpl. rewrite lookup_insert_eq. unfold verify.
    destruct (bool_decide (hash q = hash (Some (b :: p)))) eqn:V; [|done].
    intros _. apply bool_decide_eq_true in V. by apply hash_eq in V.
  - unfold login. simpl. rewrite lookup_insert_eq. unfold verify.
    intros F. rewrite bool_decide_eq_true_2; [done|]. by apply hash_eq.
  - intros u' q N. unfold login. simpl. by rewrite lookup_insert_ne.
Qed.

Lemma signup_then_login_witness :
  let s := {| users := ∅; sessions := ∅ |} : server nat in
  let s' := (signup (Some (js "ann")) (Some (js "pw")) (Some (js "pw")) s).2 in
  login (Some (js "ann")) (Some (js "pw")) s' = 200.
Proof.
  intros s s'.
  destruct (signup_then_login (Some (js "ann")) (Some (js "pw"))
              (Some (js "pw")) s) as (_ & H & _).
  destruct H as (u & p & [= <-] & [= <-] & _ & _ & _ & _ & _ & L & _);
    [reflexivity|].
  apply L. reflexivity.
Defined.

Lemma post_step {R} (r : R) (l : list R) :
  length l ≤ 200 →
  (if Nat.ltb 200 (length (r :: l)) then removelast (r :: l) else r :: l)
  = take 200 (r :: l).
Proof.
  intros B. destruct (Nat.ltb_spec 200 (length (r :: l))) as [G|L].
  - rewrite removelast_firstn_len. f_equal. simpl in *. lia.
  - by rewrite take_ge.
Qed.

Lemma postSession_record {R} (user : jsstring) (r : R) (s : server R) :
  length (default [] (sessions s !! user)) ≤ 200 →
  postSession user (Some r) s =
    (200, {| users := users s;
             sessions := <[user := take 200 (r :: default [] (sessions s !! user))]>
                           (sessions s) |}).
Proof. intros B. unfold postSession. cbv zeta. by rewrite (post_step r _ B). Qed.

(** X22: the backend keeps at most 200 records per user, newest first.
    Posting records one by one to a list of at most 200 leaves the 200 most
    recent ones, the history endpoint returns the 50 most recent ones, and
    neither the user store nor any other user's list changes. *)
Theorem postAll_keeps_recent {R} (user : jsstring) (rs : list R) (s : server R) :
  length (default [] (sessions s !! user)) ≤ 200 →
  let s' := postAll user rs s in
  default [] (sessions s' !! user) =
    take 200 (rev rs ++ default [] (sessions s !! user)) ∧
  sessionHistory user s' =
    take 50 (rev rs ++ default [] (sessions s !! user)) ∧
  users s' = users s ∧
  ∀ other, other ≠ user → sessions s' !! other = sessions s !! other.
Proof.
  intros B. induction rs as [|r rs IH] using rev_ind.
  - simpl. unfold sessionHistory. rewrite take_ge by done. done.
  - simpl in *. unfold postAll in *. rewrite foldl_app. cbn [foldl].
    set (s1 := foldl (λ s r, (postSession user (Some r) s).2) s rs) in *.
    destruct IH as (I1 & _ & I3 & I4).
    assert (length (default [] (sessions s1 !! user)) ≤ 200) as B1.
    { rewrite I1, length_take. lia. }
    rewrite (postSession_record user r s1 B1).
    unfold sessionHistory. cbn [snd sessions users].
    rewrite lookup_insert_eq. cbn [default from_option id].
    rewrite I1, rev_app_distr. cbn [rev app take firstn].
    unfold Datatypes.id. cbn [take firstn]. rewrite !take_take.
    change (Nat.min 199 200) with 199. change (Nat.min 49 199) with 49.
    repeat split; try done.
    intros other N. rewrite lookup_insert_ne by done. by apply I4.
Qed.

Lemma postAll_keeps_recent_witness :
  let s := {| users := ∅; sessions := ∅ |} : server nat in
  sessionHistory (js "ann") (postAll (js "ann") [1; 2; 3] s) = [3; 2; 1].
Proof.
  intros s.
  destruct (postAll_keeps_recent (js "ann") [1; 2; 3] s) as (_ & H & _).
  - subst s. simpl. rewrite lookup_empty. simpl. lia.
  - exact H.
Defined.

(** ** Further instances *)

Lemma latency_invariant_witness : ((50 | 100) ∧ 100 ≤ 4000)%Z ∧ 0 < 1.
Proof.
  apply (proj2 (proj2 (latency_invariant []
           [load (js "ab") 100; press (js "a") (at_ms 200)])) 100%Z 1).
  vm_compute. reflexivity.
Defined.

Lemma escapeHTML_injective_witness : js "<b>" = js "<b>".
Proof. apply (escapeHTML_injective (js "<b>") (js "<b>")). reflexivity. Defined.

(** ** Reading the store after a session *)

(** X23: [list(limit)] returns at most [limit] entries, and for a positive
    limit the first of them is what the store's text holds of the record
    most recently passed to [onComplete], whatever calls were made on the
    engine: that record with [wpm] [null] if its WPM is [Infinity], and the
    record as it was otherwise. *)
Theorem latest_record_listed (st : list sessionRecord) (l : list action)
    (limit : nat) :
  let w := runActions l (newEngine st) in
  length (storage_list (Some limit) (storage w)) ≤ limit ∧
  (0 < limit → ∀ r, last (completed (calls w)) = Some r →
     ∃ s, head (storage_list (Some limit) (storage w)) = Some s ∧
          stored_as r s).
Proof.
  intros w. unfold storage_list. change (default 25 (Some limit)) with limit.
  split; [rewrite length_take; lia|].
  intros P r La.
  destruct (store_ok_runs st l) as (new & S & C & _). fold w in S, C.
  apply last_Some in La as (evs & La). rewrite La, rev_app_distr in C.
  simpl in C. subst new. rewrite S.
  exists (json r). split; [|apply json_stored_as].
  destruct limit; [lia|done].
Qed.

(** Load ["a"] and type [a] on the reading taken at the load: the record
    passed to [onComplete] has WPM [Infinity], and the first entry listed
    by the store has [wpm] [null]. *)
Lemma latest_record_listed_witness :
  let w := runActions [load (js "a") 100; press (js "a") (at_ms 100)]
                      (newEngine []) in
  (rec_wpm <$> last (completed (calls w))) = Some PosInfinity ∧
  ∃ s, head (storage_list (Some 1) (storage w)) = Some s ∧ rec_wpm s = None.
Proof.
  intros w. split; [reflexivity|].
  destruct (proj2 (latest_record_listed []
              [load (js "a") 100; press (js "a") (at_ms 100)] 1)
              ltac:(lia) (buildRecord (engine w) (at_ms 100)) eq_refl)
    as (s & H & J).
  exists s. split; [exact H|].
  destruct J as (_ & _ & _ & _ & _ & _ & _ & _ & J & _). apply J. reflexivity.
Defined.
